(** * Backrooms maze runtime: maze generation, placement, movement, enemy FSM

    A shallow embedding of [src/runtime.js].

    Numbers.  JavaScript numbers are IEEE doubles.  Cell indices and seeds
    are integers well below 2^53 and are modelled by [Z].  The state of the
    PRNG is a double that holds an integer and grows at every draw without
    ever being reduced: it is modelled by the integer it holds, and the
    addition that advances it rounds as the addition of doubles does
    ([JS.add]).  Continuous quantities (positions, angles, times) are
    modelled by exact rationals [Q].  [Math.hypot] is only ever compared against constants or
    fed to [Math.ceil] after a division, so a Euclidean length is carried by
    its square ([Norm]) and those operations are computed exactly.
    [Math.cos], [Math.sin], [Math.atan2] and [Math.PI] are parameters
    ([MathLib]).

    Arrays.  The grid is an array of rows, [list (list Z)], with [1] = wall
    and [0] = floor.  Indexing a missing row raises a [TypeError] in
    JavaScript and reading past the end of a row gives [undefined]; both are
    written out in [grid_read].

    Outcomes.  A run either returns, raises a [TypeError], or is cut off by
    the iteration bound given to an unbounded [while] loop ([Res]).  *)

From Stdlib Require Import ZArith QArith Qround Qabs Qminmax Lia Lqa Ascii String DecimalString.
From stdpp Require Import base option list.

Local Open Scope Z_scope.

(** ** Outcomes of a run *)

Inductive Res (A : Type) : Type :=
| Ok (a : A)
| TypeError
| Timeout.
Arguments Ok {A} a.
Arguments TypeError {A}.
Arguments Timeout {A}.

Definition bind {A B} (m : Res A) (f : A -> Res B) : Res B :=
  match m with
  | Ok a => f a
  | TypeError => TypeError
  | Timeout => Timeout
  end.

Declare Scope res_scope.
Delimit Scope res_scope with res.
Notation "x <- m ; k" := (bind m (fun x => k))
  (at level 20, m at level 100, k at level 200, only parsing) : res_scope.
Notation "' p <- m ; k" := (bind m (fun x => match x with p => k end))
  (at level 20, p pattern, m at level 100, k at level 200, only parsing) : res_scope.
Open Scope res_scope.

(** [o.field] where [o] may be [undefined] *)
Definition deref {A} (o : option A) : Res A :=
  match o with
  | Some a => Ok a
  | None => TypeError
  end.

(** ** 32-bit integer operators of JavaScript *)

Module JS.

Definition two32 : Z := 4294967296.

(** [x >>> 0] *)
Definition toUint32 (z : Z) : Z := z mod two32.

(** [x | 0] *)
Definition toInt32 (z : Z) : Z :=
  let u := toUint32 z in if u <? 2147483648 then u else u - two32.

(** [a ^ b] *)
Definition xor (a b : Z) : Z := toInt32 (Z.lxor (toInt32 a) (toInt32 b)).

(** [a | b] *)
Definition or (a b : Z) : Z := toInt32 (Z.lor (toInt32 a) (toInt32 b)).

(** [a >>> n] *)
Definition ushr (a n : Z) : Z := Z.shiftr (toUint32 a) (n mod 32).

(** [Math.imul(a, b)] *)
Definition imul (a b : Z) : Z := toInt32 (toInt32 a * toInt32 b).

(** The double nearest to the integer [z], ties to even.  A double holds 53
    significant bits: the integers up to 2^53 in absolute value are doubles,
    and between [2^k] and [2^(k+1)], for [k >= 53], the doubles are the
    multiples of [2^(k-52)].  (The largest double is just below 2^1024;
    nothing here comes near it.) *)
Definition round_double (z : Z) : Z :=
  let a := Z.abs z in
  if a <=? 9007199254740992 then z else
  let ulp := 2 ^ (Z.log2 a - 52) in
  let q := a / ulp in
  let r := a mod ulp in
  let q := if 2 * r <? ulp then q
           else if ulp <? 2 * r then q + 1
           else if Z.even q then q else q + 1 in
  Z.sgn z * (q * ulp).

(** [a + b] on doubles that hold integers: the exact sum, rounded. *)
Definition add (a b : Z) : Z := round_double (a + b).

End JS.

(** ** The PRNG (mulberry32)

    The closure variable [t] is the whole state.  [rng seed] is the initial
    state, [rng_next t] is one call of the returned closure: the drawn number
    and the new state.  [t += 0x6D2B79F5] is an addition of doubles: [t] is
    never reduced to 32 bits, only the operators applied to [x] do that. *)

Definition rng (seed : Z) : Z := JS.toUint32 seed.

Definition rng_out (t : Z) : Q :=
  let x := t in
  let x := JS.imul (JS.xor x (JS.ushr x 15)) (JS.or x 1) in
  let x := JS.xor x (x + JS.imul (JS.xor x (JS.ushr x 7)) (JS.or x 61)) in
  Qmake (JS.ushr (JS.xor x (JS.ushr x 14)) 0) 4294967296.

Definition rng_next (t : Z) : Q * Z :=
  let t := JS.add t 0x6D2B79F5 in
  (rng_out t, t).

(** [Math.floor(r * n)] for an integer [n] *)
Definition floor_mul (r : Q) (n : Z) : Z := Qfloor (r * inject_Z n).

(** ** The grid *)

Definition Grid : Type := list (list Z).

Record Pt : Type := mkPt { pt_x : Z; pt_y : Z }.

#[global] Instance Pt_eq_dec : EqDecision Pt.
Proof. solve_decision. Defined.

(** [Array.from({length: h}, () => Array.from({length: w}, () => 1))] *)
Definition new_grid (w h : Z) : Grid :=
  replicate (Z.to_nat h) (replicate (Z.to_nat w) 1).

(** [a[i]] on an array: [None] is [undefined]. *)
Definition index {A} (l : list A) (i : Z) : option A :=
  if 0 <=? i then l !! Z.to_nat i else None.

(** [grid[y][x]].  The outer [None] is the [TypeError] of indexing the missing
    row [grid[y]]; the inner [None] is the value [undefined]. *)
Definition grid_read (g : Grid) (x y : Z) : Res (option Z) :=
  row <- deref (index g y); Ok (index row x).

(** [grid[y][x] = v].  A missing row [y] is a [TypeError].  A write outside
    the row would make JavaScript grow the row, and the grid would stop being
    a rectangle; the model has no such grids and reports that write as a
    [TypeError] too ([makeMaze_returns] shows it never happens for grids of
    width and height at least 3). *)
Definition grid_write (g : Grid) (x y v : Z) : Res Grid :=
  row <- deref (index g y);
  _ <- deref (index row x);
  Ok (<[Z.to_nat y := <[Z.to_nat x := v]> row]> g).

(** [v === k] for a value read from the grid *)
Definition is_val (v : option Z) (k : Z) : bool := bool_decide (v = Some k).

(** ** makeMaze *)

Record Cand : Type := mkCand { c_nx : Z; c_ny : Z; c_wx : Z; c_wy : Z }.

Definition dirs : list Pt := [mkPt 0 (-2); mkPt 0 2; mkPt (-2) 0; mkPt 2 0].

(** The [for (const d of dirs)] loop that fills [candidates]. *)
Fixpoint collect (w h : Z) (g : Grid) (cur : Pt) (ds : list Pt) : Res (list Cand) :=
  match ds with
  | [] => Ok []
  | d :: ds' =>
      let nx := pt_x cur + pt_x d in
      let ny := pt_y cur + pt_y d in
      if (nx <=? 0) || (ny <=? 0) || (nx >=? w - 1) || (ny >=? h - 1)
      then collect w h g cur ds'
      else
        v <- grid_read g nx ny;
        rest <- collect w h g cur ds';
        Ok (if is_val v 1
              then mkCand nx ny (pt_x cur + pt_x d / 2) (pt_y cur + pt_y d / 2) :: rest
              else rest)
  end.

(** The [while (stack.length)] loop.  The head of the list is the top of the
    stack.  [fuel] bounds the number of iterations; [makeMaze_returns] below
    shows that the bound chosen by [makeMaze] is never reached. *)
Fixpoint carve (fuel : nat) (w h : Z) (g : Grid) (stack : list Pt) (t : Z)
  : Res (Grid * Z) :=
  match stack with
  | [] => Ok (g, t)
  | cur :: below =>
      match fuel with
      | O => Timeout
      | S fuel' =>
          cands <- collect w h g cur dirs;
          match cands with
          | [] => carve fuel' w h g below t
          | _ :: _ =>
              let '(r, t') := rng_next t in
              pick <- deref (index cands (floor_mul r (Z.of_nat (length cands))));
              g1 <- grid_write g (c_wx pick) (c_wy pick) 0;
              g2 <- grid_write g1 (c_nx pick) (c_ny pick) 0;
              carve fuel' w h g2 (mkPt (c_nx pick) (c_ny pick) :: stack) t'
          end
      end
  end.

(** Number of iterations of [for (let i = 0; i < (w * h) * 0.02; i++)]. *)
Definition loop_count (w h : Z) : nat :=
  Z.to_nat (Qceiling (inject_Z (w * h) * (2 # 100))).

(** One iteration of the loop that knocks down random walls. *)
Definition knock (w h : Z) (g : Grid) (t : Z) : Res (Grid * Z) :=
  let '(r1, t) := rng_next t in
  let x := 1 + floor_mul r1 (w - 2) in
  let '(r2, t) := rng_next t in
  let y := 1 + floor_mul r2 (h - 2) in
  c <- grid_read g x y;
  if is_val c 1 then
    up <- grid_read g x (y - 1);
    down <- grid_read g x (y + 1);
    left <- grid_read g (x - 1) y;
    right <- grid_read g (x + 1) y;
    let n := Z.b2z (is_val up 0) + Z.b2z (is_val down 0)
             + Z.b2z (is_val left 0) + Z.b2z (is_val right 0) in
    if n >=? 2 then g' <- grid_write g x y 0; Ok (g', t) else Ok (g, t)
  else Ok (g, t).

Fixpoint knock_loop (n : nat) (w h : Z) (g : Grid) (t : Z) : Res (Grid * Z) :=
  match n with
  | O => Ok (g, t)
  | S n' => '(g', t') <- knock w h g t; knock_loop n' w h g' t'
  end.

Definition carve_fuel (w h : Z) : nat := 2 * Z.to_nat w * Z.to_nat h.

Record Maze : Type := mkMaze { maze_grid : Grid; maze_seed : Z }.

Definition makeMaze (w h seed : Z) : Res Maze :=
  let t := rng seed in
  let g := new_grid w h in
  g <- grid_write g 1 1 0;
  '(g, t) <- carve (carve_fuel w h) w h g [mkPt 1 1] t;
  '(g, _) <- knock_loop (loop_count w h) w h g t;
  Ok (mkMaze g seed).


(** ** Numbers of the game *)

Local Open Scope Q_scope.

Definition Qltb (a b : Q) : bool := negb (Qle_bool b a).

(** [clamp(v, a, b)] *)
Definition clamp (v a b : Q) : Q := Qmax a (Qmin b v).

(** The result of [Math.hypot(dx, dy)], carried by its square. *)
Record Norm : Type := mkNorm { norm_sq : Q }.

Definition hypot (dx dy : Q) : Norm := mkNorm (dx * dx + dy * dy).

(** [d < r] and [d > r] for a length [d] and a number [r] *)
Definition norm_ltb (d : Norm) (r : Q) : bool :=
  Qltb 0 r && Qltb (norm_sq d) (r * r).

Definition norm_gtb (d : Norm) (r : Q) : bool :=
  Qltb r 0 || Qltb (r * r) (norm_sq d).

(** [Math.ceil(d / c)] for a length [d] and [c > 0]: the least [n >= 0] with
    [n * c >= d], that is with [n * n >= d^2 / c^2]. *)
Definition norm_ceil_div (d : Norm) (c : Q) : Z :=
  Z.sqrt_up (Qceiling (norm_sq d / (c * c))).

(** The transcendental part of [Math]. *)
Record MathLib : Type := mkMathLib {
  PI : Q;
  PI_pos : 0 < PI;
  cos : Q -> Q;
  sin : Q -> Q;
  atan2 : Q -> Q -> Q
}.

(** Iterations of [while (a < -Math.PI) a += Math.PI * 2] started at [a], and
    of the second loop of [wrapAngle] likewise: [excess] is how far [a] is
    past the bound. *)
Definition turns (M : MathLib) (excess : Q) : nat :=
  Z.to_nat (Qceiling (excess / (PI M * 2))).

Fixpoint wrap_up (M : MathLib) (n : nat) (a : Q) : Q :=
  match n with
  | O => a
  | S n' => if Qltb a (- PI M) then wrap_up M n' (a + PI M * 2) else a
  end.

Fixpoint wrap_down (M : MathLib) (n : nat) (a : Q) : Q :=
  match n with
  | O => a
  | S n' => if Qltb (PI M) a then wrap_down M n' (a - PI M * 2) else a
  end.

Definition wrapAngle (M : MathLib) (a : Q) : Q :=
  let a := wrap_up M (turns M (- PI M - a)) a in
  wrap_down M (turns M (a - PI M)) a.

(** ** Session state *)

Inductive EnemyState : Type := wander | chase.

#[global] Instance EnemyState_eq_dec : EqDecision EnemyState.
Proof. solve_decision. Defined.

Record Player : Type := mkPlayer {
  pl_x : Q; pl_y : Q; pl_a : Q; pl_vx : Q; pl_vy : Q; pl_speed : Q
}.

Record Enemy : Type := mkEnemy {
  en_x : Q; en_y : Q; en_state : EnemyState; en_a : Q; en_speed : Q; en_lastSeen : Q
}.

(** The UI handle: text contents and [style.display] values of its elements. *)
Record UI : Type := mkUI {
  ui_keys : string;
  ui_status : string;
  ui_title : string;
  ui_desc : string;
  ui_btnStart : string;
  ui_btnRestart : string;
  ui_overlay : string
}.

(** The fields of [Game] that gameplay reads or writes.  [R] is the state of
    the session PRNG.  The canvas, its context, [world] and [fov] only
    matter to drawing. *)
Record Game : Type := mkGame {
  running : bool;
  paused : bool;
  mapW : Z;
  mapH : Z;
  seed : Z;
  R : Z;
  grid : Grid;
  player : Player;
  move : Q * Q;
  keys : Z;
  keyPos : list Pt;
  exitPos : option Pt;
  enemy : Enemy;
  lastT : Q;
  ui : UI
}.

Definition set_running (b : bool) (s : Game) : Game :=
  mkGame b (paused s) (mapW s) (mapH s) (seed s) (R s) (grid s) (player s) (move s)
         (keys s) (keyPos s) (exitPos s) (enemy s) (lastT s) (ui s).
Definition set_paused (b : bool) (s : Game) : Game :=
  mkGame (running s) b (mapW s) (mapH s) (seed s) (R s) (grid s) (player s) (move s)
         (keys s) (keyPos s) (exitPos s) (enemy s) (lastT s) (ui s).
Definition set_seed (v : Z) (s : Game) : Game :=
  mkGame (running s) (paused s) (mapW s) (mapH s) v (R s) (grid s) (player s) (move s)
         (keys s) (keyPos s) (exitPos s) (enemy s) (lastT s) (ui s).
Definition set_R (t : Z) (s : Game) : Game :=
  mkGame (running s) (paused s) (mapW s) (mapH s) (seed s) t (grid s) (player s) (move s)
         (keys s) (keyPos s) (exitPos s) (enemy s) (lastT s) (ui s).
Definition set_grid (g : Grid) (s : Game) : Game :=
  mkGame (running s) (paused s) (mapW s) (mapH s) (seed s) (R s) g (player s) (move s)
         (keys s) (keyPos s) (exitPos s) (enemy s) (lastT s) (ui s).
Definition set_player (p : Player) (s : Game) : Game :=
  mkGame (running s) (paused s) (mapW s) (mapH s) (seed s) (R s) (grid s) p (move s)
         (keys s) (keyPos s) (exitPos s) (enemy s) (lastT s) (ui s).
Definition set_move (m : Q * Q) (s : Game) : Game :=
  mkGame (running s) (paused s) (mapW s) (mapH s) (seed s) (R s) (grid s) (player s) m
         (keys s) (keyPos s) (exitPos s) (enemy s) (lastT s) (ui s).
Definition set_keys (k : Z) (s : Game) : Game :=
  mkGame (running s) (paused s) (mapW s) (mapH s) (seed s) (R s) (grid s) (player s) (move s)
         k (keyPos s) (exitPos s) (enemy s) (lastT s) (ui s).
Definition set_keyPos (l : list Pt) (s : Game) : Game :=
  mkGame (running s) (paused s) (mapW s) (mapH s) (seed s) (R s) (grid s) (player s) (move s)
         (keys s) l (exitPos s) (enemy s) (lastT s) (ui s).
Definition set_exitPos (e : option Pt) (s : Game) : Game :=
  mkGame (running s) (paused s) (mapW s) (mapH s) (seed s) (R s) (grid s) (player s) (move s)
         (keys s) (keyPos s) e (enemy s) (lastT s) (ui s).
Definition set_enemy (e : Enemy) (s : Game) : Game :=
  mkGame (running s) (paused s) (mapW s) (mapH s) (seed s) (R s) (grid s) (player s) (move s)
         (keys s) (keyPos s) (exitPos s) e (lastT s) (ui s).
Definition set_lastT (t : Q) (s : Game) : Game :=
  mkGame (running s) (paused s) (mapW s) (mapH s) (seed s) (R s) (grid s) (player s) (move s)
         (keys s) (keyPos s) (exitPos s) (enemy s) t (ui s).
Definition set_ui (u : UI) (s : Game) : Game :=
  mkGame (running s) (paused s) (mapW s) (mapH s) (seed s) (R s) (grid s) (player s) (move s)
         (keys s) (keyPos s) (exitPos s) (enemy s) (lastT s) u.

Definition set_pl_pos (x y : Q) (p : Player) : Player :=
  mkPlayer x y (pl_a p) (pl_vx p) (pl_vy p) (pl_speed p).
Definition set_pl_a (a : Q) (p : Player) : Player :=
  mkPlayer (pl_x p) (pl_y p) a (pl_vx p) (pl_vy p) (pl_speed p).

Definition set_en_pos (x y : Q) (e : Enemy) : Enemy :=
  mkEnemy x y (en_state e) (en_a e) (en_speed e) (en_lastSeen e).
Definition set_en_state (st : EnemyState) (e : Enemy) : Enemy :=
  mkEnemy (en_x e) (en_y e) st (en_a e) (en_speed e) (en_lastSeen e).
Definition set_en_a (a : Q) (e : Enemy) : Enemy :=
  mkEnemy (en_x e) (en_y e) (en_state e) a (en_speed e) (en_lastSeen e).
Definition set_en_lastSeen (t : Q) (e : Enemy) : Enemy :=
  mkEnemy (en_x e) (en_y e) (en_state e) (en_a e) (en_speed e) t.

Definition set_ui_keys (v : string) (u : UI) : UI :=
  mkUI v (ui_status u) (ui_title u) (ui_desc u) (ui_btnStart u) (ui_btnRestart u) (ui_overlay u).
Definition set_ui_status (v : string) (u : UI) : UI :=
  mkUI (ui_keys u) v (ui_title u) (ui_desc u) (ui_btnStart u) (ui_btnRestart u) (ui_overlay u).
Definition set_ui_title (v : string) (u : UI) : UI :=
  mkUI (ui_keys u) (ui_status u) v (ui_desc u) (ui_btnStart u) (ui_btnRestart u) (ui_overlay u).
Definition set_ui_desc (v : string) (u : UI) : UI :=
  mkUI (ui_keys u) (ui_status u) (ui_title u) v (ui_btnStart u) (ui_btnRestart u) (ui_overlay u).
Definition set_ui_btnStart (v : string) (u : UI) : UI :=
  mkUI (ui_keys u) (ui_status u) (ui_title u) (ui_desc u) v (ui_btnRestart u) (ui_overlay u).
Definition set_ui_btnRestart (v : string) (u : UI) : UI :=
  mkUI (ui_keys u) (ui_status u) (ui_title u) (ui_desc u) (ui_btnStart u) v (ui_overlay u).
Definition set_ui_overlay (v : string) (u : UI) : UI :=
  mkUI (ui_keys u) (ui_status u) (ui_title u) (ui_desc u) (ui_btnStart u) (ui_btnRestart u) v.

(** [String(n)] for an integer [n] *)
Definition String_of (n : Z) : string := NilZero.string_of_int (Z.to_int n).

(** The state left by the constructor (with the UI handle it was given). *)
Definition new_Game (u : UI) : Game :=
  mkGame false false 31%Z 31%Z 0%Z (rng 1) []
         (mkPlayer 1.5 1.5 0 0 0 3.4) (0, 0) 0%Z [] None
         (mkEnemy 2.5 2.5 wander 0 1.7 0) 0 u.

(** ** Entity placement *)

Record Pos : Type := mkPos { pos_x : Q; pos_y : Q }.

(** [{ x: c.x + 0.5, y: c.y + 0.5 }] *)
Definition center (c : Pt) : Pos := mkPos (inject_Z (pt_x c) + 0.5) (inject_Z (pt_y c) + 0.5).

Definition player_pos (p : Player) : Pos := mkPos (pl_x p) (pl_y p).

Definition dist (a b : Pos) : Norm := hypot (pos_x a - pos_x b) (pos_y a - pos_y b).

(** [grid[0].length] *)
Definition row0_length (g : Grid) : Res Z :=
  row <- deref (index g 0); Ok (Z.of_nat (length row)).

(** The [for (let tries = 0; tries < 10000; tries++)] loop, [n] tries left. *)
Fixpoint findRandomFloor_loop (n : nat) (g : Grid) (w h : Z) (t : Z) : Res (Pt * Z) :=
  match n with
  | O => Ok (mkPt 1 1, t)
  | S n' =>
      let '(r1, t) := rng_next t in
      let x := (1 + floor_mul r1 (w - 2))%Z in
      let '(r2, t) := rng_next t in
      let y := (1 + floor_mul r2 (h - 2))%Z in
      c <- grid_read g x y;
      if is_val c 0 then Ok (mkPt x y, t) else findRandomFloor_loop n' g w h t
  end.

Definition findRandomFloor (g : Grid) (t : Z) : Res (Pt * Z) :=
  let h := Z.of_nat (length g) in
  w <- row0_length g;
  findRandomFloor_loop (Z.to_nat 10000) g w h t.

(** [this.keyPos.some(o => o.x === c.x && o.y === c.y)] *)
Definition on_key (l : list Pt) (c : Pt) : bool :=
  existsb (fun o => (pt_x o =? pt_x c)%Z && (pt_y o =? pt_y c)%Z) l.

(** [while (this.keyPos.length < 3)]; [fuel] bounds the iterations. *)
Fixpoint place_keys (fuel : nat) (s : Game) : Res Game :=
  if (length (keyPos s) <? 3)%nat then
    match fuel with
    | O => Timeout
    | S fuel' =>
        '(k, t) <- findRandomFloor (grid s) (R s);
        let s := set_R t s in
        if norm_ltb (dist (center k) (player_pos (player s))) 8 then place_keys fuel' s
        else if on_key (keyPos s) k then place_keys fuel' s
        else place_keys fuel' (set_keyPos (keyPos s ++ [k]) s)
    end
  else Ok s.

(** [while (true)] of the exit; [fuel] bounds the iterations. *)
Fixpoint place_exit (fuel : nat) (s : Game) : Res Game :=
  match fuel with
  | O => Timeout
  | S fuel' =>
      '(e, t) <- findRandomFloor (grid s) (R s);
      let s := set_R t s in
      if norm_ltb (dist (center e) (player_pos (player s))) 10 then place_exit fuel' s
      else if on_key (keyPos s) e then place_exit fuel' s
      else Ok (set_exitPos (Some e) s)
  end.

(** [for (let tries = 0; tries < 8000; tries++)] of the enemy, [n] tries left;
    the result is [en]. *)
Fixpoint place_enemy_loop (n : nat) (s : Game) : Res (option Pt * Game) :=
  match n with
  | O => Ok (None, s)
  | S n' =>
      '(cand, t) <- findRandomFloor (grid s) (R s);
      let s := set_R t s in
      let d := dist (center cand) (player_pos (player s)) in
      if norm_ltb d 6 || norm_gtb d 10 then place_enemy_loop n' s
      else Ok (Some cand, s)
  end.

(** The cell [en] the enemy is put on: the loop, then the fallback
    [if (!en) en = findRandomFloor(...)]. *)
Definition enemy_cell (s : Game) : Res (Pt * Game) :=
  '(en, s) <- place_enemy_loop (Z.to_nat 8000) s;
  match en with
  | Some c => Ok (c, s)
  | None =>
      '(c, t) <- findRandomFloor (grid s) (R s);
      Ok (c, set_R t s)
  end.

(** [startNew()], in the order of the source.  [date_now] is the value of
    [Date.now()], [perf_now] that of [performance.now()]; [fuel] bounds each
    of the two [while] loops.  The final [requestAnimationFrame] only
    schedules the next frame. *)

(** Flags, maze and session PRNG. *)
Definition start_maze (date_now : Z) (s : Game) : Res Game :=
  let s := set_running true s in
  let s := set_paused false s in
  m <- makeMaze (mapW s) (mapH s) date_now;
  let s := set_grid (maze_grid m) s in
  let s := set_seed (maze_seed m) s in
  Ok (set_R (rng (maze_seed m)) s).

(** [// place player] *)
Definition place_player (M : MathLib) (s : Game) : Res Game :=
  '(p, t) <- findRandomFloor (grid s) (R s);
  let s := set_R t s in
  let s := set_player (set_pl_pos (inject_Z (pt_x p) + 0.5) (inject_Z (pt_y p) + 0.5) (player s)) s in
  let '(r, t) := rng_next (R s) in
  let s := set_R t s in
  Ok (set_player (set_pl_a (r * PI M * 2) (player s)) s).

(** [// place enemy] *)
Definition place_enemy (M : MathLib) (s : Game) : Res Game :=
  '(en, s) <- enemy_cell s;
  let s := set_enemy (set_en_pos (inject_Z (pt_x en) + 0.5) (inject_Z (pt_y en) + 0.5) (enemy s)) s in
  let s := set_enemy (set_en_state wander (enemy s)) s in
  let '(r, t) := rng_next (R s) in
  let s := set_R t s in
  let s := set_enemy (set_en_a (r * PI M * 2) (enemy s)) s in
  Ok (set_enemy (set_en_lastSeen 0 (enemy s)) s).

(** The UI updates and the time stamp that end [startNew]. *)
Definition start_ui (perf_now : Q) (s : Game) : Game :=
  let s := set_ui (set_ui_keys (String_of (keys s)) (ui s)) s in
  let s := set_ui (set_ui_status "Find keys" (ui s)) s in
  let s := set_ui (set_ui_btnStart "none" (ui s)) s in
  let s := set_ui (set_ui_btnRestart "none" (ui s)) s in
  set_lastT perf_now s.

Definition startNew (M : MathLib) (fuel : nat) (date_now : Z) (perf_now : Q) (s : Game)
  : Res Game :=
  s <- start_maze date_now s;
  s <- place_player M s;
  let s := set_keys 0%Z s in
  let s := set_keyPos [] s in
  s <- place_keys fuel s;
  s <- place_exit fuel s;
  s <- place_enemy M s;
  Ok (start_ui perf_now s).

(** ** Session methods *)

Definition setMove (vx vy : Q) (s : Game) : Game := set_move (vx, vy) s.

Definition addLook (dx : Q) (s : Game) : Game :=
  if negb (running s) || paused s then s
  else set_player (set_pl_a (pl_a (player s) + dx * 0.0045) (player s)) s.

Definition seed_note (what : string) (n : Z) : string :=
  (what ++ " (seed: " ++ String_of n ++ ")")%string.

Definition win (s : Game) : Game :=
  let s := set_running false s in
  let s := set_ui (set_ui_title "Clear!" (ui s)) s in
  let s := set_ui (set_ui_desc (seed_note "You escaped." (seed s)) (ui s)) s in
  let s := set_ui (set_ui_btnRestart "inline-block" (ui s)) s in
  set_ui (set_ui_overlay "flex" (ui s)) s.

Definition gameOver (s : Game) : Game :=
  let s := set_running false s in
  let s := set_ui (set_ui_title "Game Over" (ui s)) s in
  let s := set_ui (set_ui_desc (seed_note "Caught..." (seed s)) (ui s)) s in
  let s := set_ui (set_ui_btnRestart "inline-block" (ui s)) s in
  set_ui (set_ui_overlay "flex" (ui s)) s.

Definition isWall (g : Grid) (x y : Q) : Res bool :=
  let xi := Qfloor x in
  let yi := Qfloor y in
  if (yi <? 0)%Z || (yi >=? Z.of_nat (length g))%Z then Ok true else
  w <- row0_length g;
  if (xi <? 0)%Z || (xi >=? w)%Z then Ok true else
  c <- grid_read g xi yi;
  Ok (is_val c 1).

Definition canStand (g : Grid) (nx ny : Q) : Res bool :=
  let r := 0.14 in
  a <- isWall g (nx + r) ny;
  if a then Ok false else
  b <- isWall g (nx - r) ny;
  if b then Ok false else
  c <- isWall g nx (ny + r);
  if c then Ok false else
  d <- isWall g nx (ny - r);
  Ok (negb d).

(** [tryMove(actor, nx, ny)] on the position of the actor *)
Definition tryMove (g : Grid) (actor : Pos) (nx ny : Q) : Res Pos :=
  cx <- canStand g nx (pos_y actor);
  let actor := if cx then mkPos nx (pos_y actor) else actor in
  cy <- canStand g (pos_x actor) ny;
  let actor := if cy then mkPos (pos_x actor) ny else actor in
  Ok actor.

(** The key loop of [pickup]: the keys left once the first key lying on cell
    [(px, py)] is spliced out, if there is one. *)
Fixpoint take_key (l : list Pt) (px py : Z) : option (list Pt) :=
  match l with
  | [] => None
  | k :: l' =>
      if (pt_x k =? px)%Z && (pt_y k =? py)%Z then Some l'
      else rest ← take_key l' px py; Some (k :: rest)
  end.

Definition objective (n : Z) : string :=
  if (n >=? 3)%Z then "Go to EXIT"%string else "Find keys"%string.

Definition pickup (s : Game) : Game :=
  let px := Qfloor (pl_x (player s)) in
  let py := Qfloor (pl_y (player s)) in
  let s :=
    match take_key (keyPos s) px py with
    | Some l =>
        let s := set_keyPos l s in
        let s := set_keys (keys s + 1)%Z s in
        let s := set_ui (set_ui_keys (String_of (keys s)) (ui s)) s in
        set_ui (set_ui_status (objective (keys s)) (ui s)) s
    | None => s
    end in
  match exitPos s with
  | Some e =>
      if (pt_x e =? px)%Z && (pt_y e =? py)%Z then
        if (keys s >=? 3)%Z then win s
        else set_ui (set_ui_status "Need 3 keys" (ui s)) s
      else s
  | None => s
  end.

(** ** Enemy *)

(** The sampling loop of [canSeePlayer]: [n] iterations left, counter [i]. *)
Fixpoint sight_loop (n : nat) (g : Grid) (e : Enemy) (dx dy : Q) (steps i : Z) : Res bool :=
  match n with
  | O => Ok true
  | S n' =>
      let t := inject_Z i / inject_Z steps in
      let x := en_x e + dx * t in
      let y := en_y e + dy * t in
      b <- isWall g x y;
      if b then Ok false else sight_loop n' g e dx dy steps (i + 1)%Z
  end.

Definition canSeePlayer (s : Game) (maxDist : Q) : Res bool :=
  let dx := pl_x (player s) - en_x (enemy s) in
  let dy := pl_y (player s) - en_y (enemy s) in
  let d := hypot dx dy in
  if norm_gtb d maxDist then Ok false else
  let steps := norm_ceil_div d 0.15 in
  sight_loop (Z.to_nat (steps - 1)) (grid s) (enemy s) dx dy steps 1%Z.

(** The wander branch of [stepEnemy]: the new [targetA]. *)
Definition wander_target (M : MathLib) (s : Game) (targetA : Q) : Res (Q * Game) :=
  let '(r, t) := rng_next (R s) in
  let s := set_R t s in
  let '(targetA, s) :=
    if Qltb r 0.02 then
      let '(r, t) := rng_next (R s) in
      (targetA + (r - 0.5) * 1.3, set_R t s)
    else (targetA, s) in
  let fx := en_x (enemy s) + cos M targetA * 0.35 in
  let fy := en_y (enemy s) + sin M targetA * 0.35 in
  b <- isWall (grid s) fx fy;
  if b then
    let '(r1, t) := rng_next (R s) in
    let '(r2, t) := rng_next t in
    Ok (targetA + (if Qltb r1 0.5 then 1 else -1) * (0.8 + r2), set_R t s)
  else Ok (targetA, s).

(** The state machine at the head of [stepEnemy], [sees] being the answer of
    [canSeePlayer()]. *)
Definition enemy_decide (sees : bool) (now : Q) (s : Game) : Game :=
  if sees then
    let s := set_enemy (set_en_state chase (enemy s)) s in
    let s := set_enemy (set_en_lastSeen now (enemy s)) s in
    set_ui (set_ui_status "RUN!" (ui s)) s
  else if bool_decide (en_state (enemy s) = chase) && Qltb 1.8 (now - en_lastSeen (enemy s))
  then
    let s := set_enemy (set_en_state wander (enemy s)) s in
    set_ui (set_ui_status (objective (keys s)) (ui s)) s
  else s.

(** The rest of [stepEnemy]: turn, move, and catch the player. *)
Definition enemy_act (M : MathLib) (dt : Q) (s : Game) : Res Game :=
  let targetA := en_a (enemy s) in
  '(targetA, s) <-
    (if bool_decide (en_state (enemy s) = chase) then
       Ok (atan2 M (pl_y (player s) - en_y (enemy s)) (pl_x (player s) - en_x (enemy s)), s)
     else wander_target M s targetA);
  let da := wrapAngle M (targetA - en_a (enemy s)) in
  let s := set_enemy (set_en_a (en_a (enemy s) + da * clamp (dt * 4) 0 1) (enemy s)) s in
  let spd := if bool_decide (en_state (enemy s) = chase) then 2.7 else en_speed (enemy s) in
  let nx := en_x (enemy s) + cos M (en_a (enemy s)) * spd * dt in
  let ny := en_y (enemy s) + sin M (en_a (enemy s)) * spd * dt in
  p <- tryMove (grid s) (mkPos (en_x (enemy s)) (en_y (enemy s))) nx ny;
  let s := set_enemy (set_en_pos (pos_x p) (pos_y p) (enemy s)) s in
  let d := hypot (pl_x (player s) - en_x (enemy s)) (pl_y (player s) - en_y (enemy s)) in
  if norm_ltb d 0.35 then Ok (gameOver s) else Ok s.

Definition stepEnemy (M : MathLib) (dt now : Q) (s : Game) : Res Game :=
  sees <- canSeePlayer s 12;
  enemy_act M dt (enemy_decide sees now s).

(** ** Raycast *)

(** The variables the DDA loop updates. *)
Record Ray : Type := mkRay {
  sideDistX : Q; sideDistY : Q; mapX : Z; mapY : Z; side : Z; hit : Z
}.

(** The constants of one ray. *)
Record RayDir : Type := mkRayDir {
  deltaDistX : Q; deltaDistY : Q; stepX : Z; stepY : Z
}.

(** The value [raycast] returns. *)
Record RayHit : Type := mkRayHit { rh_dist : Q; rh_side : Z; rh_mapX : Z; rh_mapY : Z }.

(** [v || 1e-9] *)
Definition or_tiny (v : Q) : Q := if Qeq_bool v 0 then 1 # 1000000000 else v.

(** The first half of the loop body: advance along the nearer axis. *)
Definition dda_advance (d : RayDir) (r : Ray) : Ray :=
  if Qltb (sideDistX r) (sideDistY r)
  then mkRay (sideDistX r + deltaDistX d) (sideDistY r) (mapX r + stepX d)%Z (mapY r) 0 (hit r)
  else mkRay (sideDistX r) (sideDistY r + deltaDistY d) (mapX r) (mapY r + stepY d)%Z 1 (hit r).

(** [mapY < 0 || mapY >= grid.length || mapX < 0 || mapX >= grid[0].length] *)
Definition off_grid (g : Grid) (mx my : Z) : Res bool :=
  if (my <? 0)%Z || (my >=? Z.of_nat (length g))%Z then Ok true else
  if (mx <? 0)%Z then Ok true else
  w <- row0_length g;
  Ok (mx >=? w)%Z.

Definition set_hit (r : Ray) : Ray :=
  mkRay (sideDistX r) (sideDistY r) (mapX r) (mapY r) (side r) 1.

(** [for (let i = 0; i < 128; i++)] with [n] iterations left *)
Fixpoint dda (n : nat) (g : Grid) (d : RayDir) (r : Ray) : Res Ray :=
  match n with
  | O => Ok r
  | S n' =>
      let r := dda_advance d r in
      off <- off_grid g (mapX r) (mapY r);
      if off then Ok (set_hit r) else
      c <- grid_read g (mapX r) (mapY r);
      if is_val c 1 then Ok (set_hit r) else dda n' g d r
  end.

(** The setup of [raycast]: the ray constants and the loop variables before
    the first iteration, for a ray from [(px, py)] along [(dx, dy)]. *)
Definition ray_dir (dx dy : Q) : RayDir :=
  mkRayDir (Qabs (1 / or_tiny dx)) (Qabs (1 / or_tiny dy))
           (if Qltb dx 0 then -1 else 1) (if Qltb dy 0 then -1 else 1).

Definition ray_init (px py dx dy : Q) : Ray :=
  let mapX := Qfloor px in
  let mapY := Qfloor py in
  let d := ray_dir dx dy in
  mkRay (if Qltb dx 0 then (px - inject_Z mapX) * deltaDistX d
         else (inject_Z mapX + 1 - px) * deltaDistX d)
        (if Qltb dy 0 then (py - inject_Z mapY) * deltaDistY d
         else (inject_Z mapY + 1 - py) * deltaDistY d)
        mapX mapY 0 0.

(** [perpWallDist] and the returned object *)
Definition ray_result (d : RayDir) (r : Ray) : RayHit :=
  mkRayHit (if (side r =? 0)%Z then sideDistX r - deltaDistX d else sideDistY r - deltaDistY d)
           (side r) (mapX r) (mapY r).

(** The loop of [raycast(angle)]: the loop variables when the loop is left. *)
Definition raycast_loop (M : MathLib) (s : Game) (angle : Q) : Res Ray :=
  let px := pl_x (player s) in
  let py := pl_y (player s) in
  let dx := cos M angle in
  let dy := sin M angle in
  dda (Z.to_nat 128) (grid s) (ray_dir dx dy) (ray_init px py dx dy).

Definition raycast (M : MathLib) (s : Game) (angle : Q) : Res RayHit :=
  r <- raycast_loop M s angle;
  Ok (ray_result (ray_dir (cos M angle) (sin M angle)) r).

(** ** The frame loop *)

(** [Math.sign(v)] *)
Definition Qsign (v : Q) : Q := if Qltb 0 v then 1 else if Qltb v 0 then -1 else v.

(** [boost] of [step]; [pow x y] stands for [x ** y]. *)
Definition boost (pow : Q -> Q -> Q) (v : Q) : Q :=
  Qsign v * Qmin 1 (pow (Qabs v) 0.75).

Definition step (M : MathLib) (pow : Q -> Q -> Q) (dt now : Q) (s : Game) : Res Game :=
  let ax := fst (move s) in
  let ay := snd (move s) in
  let dz := 0.06 in
  let mx := if Qltb (Qabs ax) dz then 0 else ax in
  let my := if Qltb (Qabs ay) dz then 0 else ay in
  let ca := cos M (pl_a (player s)) in
  let sa := sin M (pl_a (player s)) in
  let forward := - my in
  let strafe := mx in
  let vx := (ca * boost pow forward - sa * boost pow strafe) * pl_speed (player s) in
  let vy := (sa * boost pow forward + ca * boost pow strafe) * pl_speed (player s) in
  let nx := pl_x (player s) + vx * dt in
  let ny := pl_y (player s) + vy * dt in
  p <- tryMove (grid s) (player_pos (player s)) nx ny;
  let s := set_player (set_pl_pos (pos_x p) (pos_y p) (player s)) s in
  let s := pickup s in
  if negb (running s) then Ok s else stepEnemy M dt now s.

(** [loop(t)].  The flag returned tells whether the frame was drawn and the
    next one requested; drawing does not touch the session. *)
Definition loop (M : MathLib) (pow : Q -> Q -> Q) (t : Q) (s : Game) : Res (Game * bool) :=
  if negb (running s) || paused s then Ok (s, false) else
  let dt := clamp ((t - lastT s) / 1000) 0 0.033 in
  let s := set_lastT t s in
  s <- step M pow dt (t / 1000) s;
  if negb (running s) then Ok (s, false) else Ok (s, true).


(** ** audio.js: the sound manager *)

Module Audio.

(** The fields of [AudioManager] that [update] reads or writes.  [humGain],
    [heartGain] and [noiseGain] are the gain values last written or targeted
    on the WebAudio nodes of these names, [heartRate] is the frequency last
    targeted on [heartOsc], and [blips] counts the footstep sounds played by
    [blipFoot]. *)
Record AudioManager : Type := mkAudioManager {
  enabled : bool;
  footTimer : Q;
  humGain : Q;
  heartRate : Q;
  heartGain : Q;
  noiseGain : Q;
  blips : nat
}.

Definition set_footTimer (v : Q) (a : AudioManager) : AudioManager :=
  mkAudioManager (enabled a) v (humGain a) (heartRate a) (heartGain a) (noiseGain a) (blips a).
Definition set_humGain (v : Q) (a : AudioManager) : AudioManager :=
  mkAudioManager (enabled a) (footTimer a) v (heartRate a) (heartGain a) (noiseGain a) (blips a).
Definition set_heartRate (v : Q) (a : AudioManager) : AudioManager :=
  mkAudioManager (enabled a) (footTimer a) (humGain a) v (heartGain a) (noiseGain a) (blips a).
Definition set_heartGain (v : Q) (a : AudioManager) : AudioManager :=
  mkAudioManager (enabled a) (footTimer a) (humGain a) (heartRate a) v (noiseGain a) (blips a).
Definition set_noiseGain (v : Q) (a : AudioManager) : AudioManager :=
  mkAudioManager (enabled a) (footTimer a) (humGain a) (heartRate a) (heartGain a) v (blips a).

(** The values [start()] leaves once the audio graph is built. *)
Definition started : AudioManager := mkAudioManager true 0 0.12 2.0 0.0 0.0 0.

Definition stop (a : AudioManager) : AudioManager :=
  mkAudioManager false (footTimer a) (humGain a) (heartRate a) (heartGain a) (noiseGain a)
                 (blips a).

Definition blipFoot (a : AudioManager) : AudioManager :=
  if negb (enabled a) then a
  else mkAudioManager (enabled a) (footTimer a) (humGain a) (heartRate a) (heartGain a)
                      (noiseGain a) (S (blips a)).

(** [update({ moving, danger })] *)
Definition update (moving danger : Q) (a : AudioManager) : AudioManager :=
  if negb (enabled a) then a else
  let a := set_humGain (0.10 + 0.08 * danger) a in
  let cadence := 0.42 - 0.18 * Qmin 1 moving in
  let a := set_footTimer (footTimer a + 1 / 60) a in
  let a := if Qltb 0.15 moving && Qltb cadence (footTimer a)
           then blipFoot (set_footTimer 0 a) else a in
  let hb := Qmin 1 (Qmax 0 danger) in
  let a := set_heartRate (1.6 + hb * 2.6) a in
  let a := set_heartGain (0.10 + hb * 0.55) a in
  set_noiseGain (hb * 0.22) a.

(** One [update] per frame, for the [(moving, danger)] pairs of a run of
    frames. *)
Fixpoint updates (frames : list (Q * Q)) (a : AudioManager) : AudioManager :=
  match frames with
  | [] => a
  | (moving, danger) :: rest => updates rest (update moving danger a)
  end.

End Audio.

(** ** Look input: [bindLook] wired to [addLook] *)

Module Look.

(** The [state] object of [bindLook]; [id] is [None] for [null]. *)
Record LookState : Type := mkLookState { active : bool; id : option Z; lastX : Q }.

Definition initial : LookState := mkLookState false None 0.

(** The [pointerdown] handler, for an event at [clientX] of pointer
    [pointerId] on a canvas whose rectangle starts at [left] and is [width]
    wide. *)
Definition pointerdown (clientX : Q) (pointerId : Z) (left width : Q) (st : LookState)
  : LookState :=
  if Qltb clientX (left + width * 0.45) then st
  else mkLookState true (Some pointerId) clientX.

(** The [pointermove] handler: the new state and the [dx] passed to [onDx],
    if any. *)
Definition pointermove (clientX : Q) (pointerId : Z) (st : LookState)
  : LookState * option Q :=
  if negb (active st) || negb (bool_decide (id st = Some pointerId)) then (st, None)
  else (mkLookState (active st) (id st) clientX, Some (clientX - lastX st)).

(** The handler [end] of [pointerup] and [pointercancel]. *)
Definition pointerend (pointerId : Z) (st : LookState) : LookState :=
  if negb (bool_decide (id st = Some pointerId)) then st
  else mkLookState false None (lastX st).

(** A run of [pointermove] events [(pointerId, clientX)], with [onDx] bound to
    [game.addLook] as the page does. *)
Fixpoint moves (events : list (Z * Q)) (st : LookState) (s : Game) : LookState * Game :=
  match events with
  | [] => (st, s)
  | (pointerId, clientX) :: rest =>
      let '(st', dx) := pointermove clientX pointerId st in
      moves rest st' (match dx with Some d => addLook d s | None => s end)
  end.

End Look.

(** A rational stand-in for [Math], used to run the model on examples:
    [cos] and [sin] are their Taylor polynomials of degree two at 0. *)
Definition mathQ : MathLib :=
  mkMathLib (355 # 113) eq_refl (fun a => Qred (1 - a * a / 2)) (fun a => Qred a) (fun y x => 0).

Definition ui0 : UI := mkUI "0" "" "" "" "" "none" "flex".


(** A small hand-made grid for examples:
<<
  #####
  #.#.#
  #.#.#
  #...#
  #####
>> *)
Definition grid5 : Grid :=
  [[1; 1; 1; 1; 1]; [1; 0; 1; 0; 1]; [1; 0; 1; 0; 1]; [1; 0; 0; 0; 1]; [1; 1; 1; 1; 1]]%Z.

(** Sessions on [grid5] for examples.  The player stands on the exit cell
    [(3, 1)] with [k] keys collected and one key left elsewhere. *)
Definition at_exit (k : Z) : Game :=
  set_keys k (set_keyPos [mkPt 1 3] (set_exitPos (Some (mkPt 3 1))
    (set_player (set_pl_pos 3.5 1.5 (player (new_Game ui0)))
      (set_grid grid5 (set_running true (new_Game ui0)))))).

(** The enemy at [(1.5, 1.5)] chases since time [0]; the player at
    [(3.5, 1.5)] is hidden by the wall cell [(2, 1)]. *)
Definition hidden_player : Game :=
  set_enemy (mkEnemy 1.5 1.5 chase 0 1.7 0) (at_exit 0).

(** The enemy at [(1.5, 1.5)] wanders; the player at [(1.5, 3.5)] is in
    plain sight down the corridor. *)
Definition seen_player : Game :=
  set_enemy (mkEnemy 1.5 1.5 wander 0 1.7 0)
    (set_player (set_pl_pos 1.5 3.5 (player (new_Game ui0))) (at_exit 0)).

(** A player in cell [(1, 1)], a hair above the lower side of the cell, in
    front of the wall cell [(2, 1)]; the row below is a corridor of 198 floor
    cells. *)
Definition corridor : Grid :=
  [ replicate 200 1%Z;
    [1; 0]%Z ++ replicate 198 1%Z;
    [1%Z] ++ replicate 198 0%Z ++ [1%Z];
    replicate 200 1%Z ].

Definition above_corridor : Game :=
  set_player (set_pl_pos 1.5 (2 - (1 # 100000000000)) (player (new_Game ui0)))
    (set_grid corridor (set_running true (new_Game ui0))).

(** A session whose map is 5 by 5, the smallest size of the generator. *)
Definition tiny_session : Game :=
  mkGame false false 5%Z 5%Z 0%Z (rng 1) []
         (mkPlayer 1.5 1.5 0 0 0 3.4) (0, 0) 0%Z [] None
         (mkEnemy 2.5 2.5 wander 0 1.7 0) 0 ui0.

(** * Vocabulary of the properties *)

Definition grid_height (g : Grid) : Z := Z.of_nat (length g).

(** The width the code uses: the length of row 0. *)
Definition grid_width (g : Grid) : Z :=
  match g with
  | [] => 0%Z
  | row :: _ => Z.of_nat (length row)
  end.

(** Cell [(x, y)] lies inside the bounds of the grid. *)
Definition in_bounds (g : Grid) (x y : Z) : Prop :=
  (0 <= y < grid_height g)%Z /\ (0 <= x < grid_width g)%Z.

(** None of the four probe points around [(x, y)] lies in a wall cell. *)
Definition probes_clear (g : Grid) (x y : Q) : Prop :=
  isWall g (x + 0.14) y = Ok false /\ isWall g (x - 0.14) y = Ok false /\
  isWall g x (y + 0.14) = Ok false /\ isWall g x (y - 0.14) = Ok false.

(** The line of sight from the enemy to the player is clear: the player is
    not farther than [maxDist] and none of the points sampled on the segment
    (samples [1 .. steps - 1] of [steps], one every 0.15 at most) lies in a
    wall cell. *)
Definition sees_player (s : Game) (maxDist : Q) : Prop :=
  let dx := pl_x (player s) - en_x (enemy s) in
  let dy := pl_y (player s) - en_y (enemy s) in
  let steps := norm_ceil_div (hypot dx dy) 0.15 in
  norm_gtb (hypot dx dy) maxDist = false /\
  forall i, (1 <= i < steps)%Z ->
    isWall (grid s) (en_x (enemy s) + dx * (inject_Z i / inject_Z steps))
                    (en_y (enemy s) + dy * (inject_Z i / inject_Z steps)) = Ok false.

(** The cell the ray stands in stops it: it lies outside the grid or it is a
    wall cell. *)
Definition ray_blocked (g : Grid) (r : Ray) : Prop :=
  ~ in_bounds g (mapX r) (mapY r) \/ grid_read g (mapX r) (mapY r) = Ok (Some 1%Z).

(** The loop variables after [k] DDA steps of the ray cast by [raycast]. *)
Definition ray_after (M : MathLib) (s : Game) (angle : Q) (k : nat) : Ray :=
  Nat.iter k (dda_advance (ray_dir (cos M angle) (sin M angle)))
           (ray_init (pl_x (player s)) (pl_y (player s)) (cos M angle) (sin M angle)).


(** The center of cell [c] is at Euclidean distance at least [r] (for
    [r >= 0]) from the player. *)
Definition far_from (p : Player) (c : Pt) (r : Q) : Prop :=
  r * r <= (inject_Z (pt_x c) + 0.5 - pl_x p) * (inject_Z (pt_x c) + 0.5 - pl_x p)
         + (inject_Z (pt_y c) + 0.5 - pl_y p) * (inject_Z (pt_y c) + 0.5 - pl_y p).

(** What the key loop keeps true of the keys placed so far. *)
Definition keys_placed (s : Game) : Prop :=
  NoDup (keyPos s) /\ (length (keyPos s) <= 3)%nat /\
  forall k, k ∈ keyPos s -> far_from (player s) k 8.


(** The PRNG state [t] after [n] more draws. *)
Definition after_draws (t : Z) (n : Z) : Z :=
  Nat.iter (Z.to_nat n) (fun t => snd (rng_next t)) t.
Arguments after_draws : simpl never.

(** Cell [c] is a floor cell of [g]. *)
Definition is_floor (g : Grid) (c : Pt) : Prop :=
  grid_read g (pt_x c) (pt_y c) = Ok (Some 0%Z).

(** ** Vocabulary of the maze properties *)

(** The value of cell [(x, y)], [None] outside the grid. *)
Definition cell_of (g : Grid) (x y : Z) : option Z :=
  match index g y with
  | Some row => index row x
  | None => None
  end.

(** [g] has [h] rows of [w] cells each. *)
Definition rect (w h : Z) (g : Grid) : Prop :=
  Z.of_nat (length g) = h /\ Forall (fun row => Z.of_nat (length row) = w) g.

(** Every cell holds [0] or [1]. *)
Definition binary (g : Grid) : Prop :=
  forall x y v, cell_of g x y = Some v -> v = 0%Z \/ v = 1%Z.

(** Cells that share a side. *)
Definition adjacent (a b : Pt) : Prop :=
  (pt_x a = pt_x b /\ (pt_y a = pt_y b + 1 \/ pt_y b = pt_y a + 1))%Z \/
  (pt_y a = pt_y b /\ (pt_x a = pt_x b + 1 \/ pt_x b = pt_x a + 1))%Z.

Definition floor_cell (g : Grid) (c : Pt) : Prop := cell_of g (pt_x c) (pt_y c) = Some 0%Z.

(** [connected g a b]: one can walk from floor cell [a] to floor cell [b]
    through floor cells, each step going to a cell that shares a side. *)
Inductive connected (g : Grid) (a : Pt) : Pt -> Prop :=
| connected_here : floor_cell g a -> connected g a a
| connected_step (b c : Pt) :
    connected g a b -> adjacent b c -> floor_cell g c -> connected g a c.

(** Odd coordinates: the cells the carving walks on. *)
Definition anchor (c : Pt) : Prop := Z.odd (pt_x c) = true /\ Z.odd (pt_y c) = true.

(** Strictly inside the border of a [w] by [h] grid. *)
Definition interior (w h : Z) (c : Pt) : Prop :=
  (0 < pt_x c < w - 1)%Z /\ (0 < pt_y c < h - 1)%Z.

Definition wallbit (c : Z) : nat := if (c =? 1)%Z then 1%nat else 0%nat.

(** Number of wall cells of the grid. *)
Definition count_walls (g : Grid) : nat := sum_list_with (sum_list_with wallbit) g.

(** The cell reached from [c] by the offset [d]. *)
Definition shift (c d : Pt) : Pt := mkPt (pt_x c + pt_x d) (pt_y c + pt_y d).

(** Every interior cell two steps away from [c] is carved already. *)
Definition closed (w h : Z) (g : Grid) (c : Pt) : Prop :=
  forall d, d ∈ dirs -> interior w h (shift c d) -> floor_cell g (shift c d).

(** What the carving loop keeps true of the grid and the stack. *)
Record carve_inv (w h : Z) (g : Grid) (stack : list Pt) : Prop := mk_carve_inv {
  ci_rect : rect w h g;
  ci_binary : binary g;
  ci_interior : forall c, floor_cell g c -> interior w h c;
  ci_start : floor_cell g (mkPt 1 1);
  ci_conn : forall c, floor_cell g c -> connected g (mkPt 1 1) c;
  ci_stack : forall c, c ∈ stack -> floor_cell g c /\ anchor c;
  ci_closed : forall c, floor_cell g c -> anchor c -> c ∈ stack \/ closed w h g c
}.

(** What holds of the grid once the carving is over, and after every wall
    knocked down. *)
Record maze_ok (w h : Z) (g : Grid) : Prop := mk_maze_ok {
  mo_rect : rect w h g;
  mo_binary : binary g;
  mo_interior : forall c, floor_cell g c -> interior w h c;
  mo_anchors : forall c, anchor c -> interior w h c -> floor_cell g c;
  mo_conn : forall c, floor_cell g c -> connected g (mkPt 1 1) c
}.

(** ** Vocabulary of the session properties *)

(** The position is the center of a floor cell. *)
Definition on_floor (g : Grid) (x y : Q) : Prop :=
  exists c, floor_cell g c /\ x = inject_Z (pt_x c) + 0.5 /\ y = inject_Z (pt_y c) + 0.5.

(** The cell the player stands in. *)
Definition player_cell (s : Game) : Pt :=
  mkPt (Qfloor (pl_x (player s))) (Qfloor (pl_y (player s))).

(** The parts of a session that placing entities leaves alone. *)
Definition same_session (s s' : Game) : Prop :=
  running s' = running s /\ paused s' = paused s /\ mapW s' = mapW s /\ mapH s' = mapH s /\
  seed s' = seed s /\ grid s' = grid s /\ keys s' = keys s /\ ui s' = ui s.

(** The bookkeeping of keys: the keys left lie on distinct cells, none of
    them on the exit cell, and collected plus left make three. *)
Definition session_inv (s : Game) : Prop :=
  NoDup (keyPos s) /\
  (keys s + Z.of_nat (length (keyPos s)) = 3)%Z /\
  (forall e, exitPos s = Some e -> e ∉ keyPos s).

(** Two sessions that differ at most in the state of the PRNG. *)
Definition same_but_R (s s' : Game) : Prop :=
  same_session s s' /\ player s' = player s /\ move s' = move s /\
  keyPos s' = keyPos s /\ exitPos s' = exitPos s /\ enemy s' = enemy s /\ lastT s' = lastT s.

(** The session after the enemy has turned to [a] and moved to [p], caught
    the player or not; [s1] is the session before the move. *)
Definition enemy_moved (s1 : Game) (a : Q) (p : Pos) : Game :=
  let s2 := set_enemy (mkEnemy (pos_x p) (pos_y p) (en_state (enemy s1)) a
                               (en_speed (enemy s1)) (en_lastSeen (enemy s1))) s1 in
  if norm_ltb (hypot (pl_x (player s1) - pos_x p) (pl_y (player s1) - pos_y p)) 0.35
  then gameOver s2 else s2.

(** Squared Euclidean distance from the player to the enemy. *)
Definition gap_sq (s : Game) : Q :=
  (pl_x (player s) - en_x (enemy s)) * (pl_x (player s) - en_x (enemy s))
  + (pl_y (player s) - en_y (enemy s)) * (pl_y (player s) - en_y (enemy s)).

(** The side distances and the per-cell increments of a ray are not
    negative. *)
Definition ray_sound (d : RayDir) (r : Ray) : Prop :=
  0 <= sideDistX r /\ 0 <= sideDistY r /\ 0 <= deltaDistX d /\ 0 <= deltaDistY d.

(** The ray has advanced at least once: the side distance of the axis it
    advanced on last holds a whole increment. *)
Definition ray_stepped (d : RayDir) (r : Ray) : Prop :=
  (side r = 0%Z /\ deltaDistX d <= sideDistX r) \/
  (side r = 1%Z /\ deltaDistY d <= sideDistY r).


(** ** Rays along an axis *)

(** The four directions along the axes of the grid. *)
Inductive Axis : Type := Xpos | Xneg | Ypos | Yneg.

Definition axis_dx (a : Axis) : Z := match a with Xpos => 1 | Xneg => -1 | _ => 0 end.

Definition axis_dy (a : Axis) : Z := match a with Ypos => 1 | Yneg => -1 | _ => 0 end.

(** The side as [raycast] reports it: 0 for a cell entered along x, 1 for a
    cell entered along y. *)
Definition axis_side (a : Axis) : Z := match a with Xpos | Xneg => 0 | _ => 1 end.

(** The cell next to the player's in direction [a]. *)
Definition ahead (s : Game) (a : Axis) : Pt :=
  mkPt (pt_x (player_cell s) + axis_dx a) (pt_y (player_cell s) + axis_dy a).

(** The distance from the player to the side of its cell that faces [a]. *)
Definition to_side (s : Game) (a : Axis) : Q :=
  match a with
  | Xpos => inject_Z (pt_x (player_cell s)) + 1 - pl_x (player s)
  | Xneg => pl_x (player s) - inject_Z (pt_x (player_cell s))
  | Ypos => inject_Z (pt_y (player_cell s)) + 1 - pl_y (player s)
  | Yneg => pl_y (player s) - inject_Z (pt_y (player_cell s))
  end.

(** A ray in direction [a] reaches the side of the player's cell that faces
    [a] before it leaves the cell across the other axis.  [raycast] replaces
    the component of the direction that is 0 by [1e-9], so the ray drifts
    toward [Xpos] or [Ypos], a billion times more slowly than it advances;
    the test [sideDistX < sideDistY] of the loop gives ties to the y axis. *)
Definition crosses_first (s : Game) (a : Axis) : Prop :=
  match a with
  | Xpos | Xneg => to_side s a < to_side s Ypos * 1000000000
  | Ypos | Yneg => to_side s a <= to_side s Xpos * 1000000000
  end.

(** ** Look input *)

(** The [pointermove] events [(pointerId, clientX)] that [bindLook] follows
    in state [st]: those of the pointer that is down, if one is. *)
Definition tracked (st : Look.LookState) (events : list (Z * Q)) : list (Z * Q) :=
  filter (fun e => Look.active st = true /\ Look.id st = Some (fst e)) events.
(** * Properties *)

(** ** Outcomes and numbers *)

Lemma bind_Ok {A B} (m : Res A) (f : A -> Res B) (b : B) :
  bind m f = Ok b <-> exists a, m = Ok a /\ f a = Ok b.
Proof.
  destruct m; simpl; split; try (intros [a' [E1 E2]]); try discriminate; eauto.
  congruence.
Qed.

(** Turn a hypothesis [bind m f = Ok b] into its two steps. *)
Tactic Notation "bind_inv" hyp(H) "as" simple_intropattern(a) ident(E) :=
  apply bind_Ok in H; destruct H as [a [E H]].

Lemma Qltb_lt (a b : Q) : Qltb a b = true <-> a < b.
Proof.
  unfold Qltb. rewrite negb_true_iff, <- not_true_iff_false, Qle_bool_iff.
  split; [apply Qnot_le_lt | apply Qlt_not_le].
Qed.

Lemma Qltb_ge (a b : Q) : Qltb a b = false <-> b <= a.
Proof.
  unfold Qltb. rewrite negb_false_iff. apply Qle_bool_iff.
Qed.

(** ** Reading the grid *)

Lemma index_Some {A} (l : list A) (i : Z) :
  (0 <= i < Z.of_nat (length l))%Z -> exists a, index l i = Some a.
Proof.
  intros H. unfold index.
  destruct (Z.leb_spec 0 i) as [_|]; [|lia].
  apply lookup_lt_is_Some_2. lia.
Qed.

Lemma index_None {A} (l : list A) (i : Z) :
  (i < 0 \/ Z.of_nat (length l) <= i)%Z -> index l i = None.
Proof.
  intros H. unfold index.
  destruct (Z.leb_spec 0 i) as [Hi|]; [|reflexivity].
  apply lookup_ge_None. lia.
Qed.

Lemma row0_length_width (g : Grid) :
  (0 < grid_height g)%Z -> row0_length g = Ok (grid_width g).
Proof.
  unfold grid_height, row0_length, grid_width. destruct g as [|row g]; simpl; [lia|].
  reflexivity.
Qed.

(** [isWall] always returns: its two guards keep every row access inside the
    grid. *)
Lemma isWall_returns (g : Grid) (x y : Q) : exists b, isWall g x y = Ok b.
Proof.
  unfold isWall.
  destruct (Z.ltb_spec (Qfloor y) 0); simpl; [eauto|].
  destruct (Z.geb_spec (Qfloor y) (Z.of_nat (length g))) as [|Hy]; simpl; [eauto|].
  rewrite row0_length_width by (unfold grid_height; lia). simpl.
  destruct (Z.ltb_spec (Qfloor x) 0); simpl; [eauto|].
  destruct (Z.geb_spec (Qfloor x) (grid_width g)); simpl; [eauto|].
  unfold grid_read.
  destruct (index_Some g (Qfloor y)) as [row ->]; [lia|]. simpl. eauto.
Qed.

Lemma canStand_returns (g : Grid) (x y : Q) : exists b, canStand g x y = Ok b.
Proof.
  unfold canStand.
  destruct (isWall_returns g (x + 0.14) y) as [[] ->]; simpl; [eauto|].
  destruct (isWall_returns g (x - 0.14) y) as [[] ->]; simpl; [eauto|].
  destruct (isWall_returns g x (y + 0.14)) as [[] ->]; simpl; [eauto|].
  destruct (isWall_returns g x (y - 0.14)) as [[] ->]; simpl; eauto.
Qed.

Lemma canStand_probes (g : Grid) (x y : Q) :
  canStand g x y = Ok true <-> probes_clear g x y.
Proof.
  unfold canStand, probes_clear. split.
  - destruct (isWall_returns g (x + 0.14) y) as [[] ->]; simpl; [discriminate|].
    destruct (isWall_returns g (x - 0.14) y) as [[] ->]; simpl; [discriminate|].
    destruct (isWall_returns g x (y + 0.14)) as [[] ->]; simpl; [discriminate|].
    destruct (isWall_returns g x (y - 0.14)) as [[] ->]; simpl; [discriminate|].
    auto.
  - intros (-> & -> & -> & ->). reflexivity.
Qed.

Lemma tryMove_returns (g : Grid) (actor : Pos) (nx ny : Q) :
  exists p, tryMove g actor nx ny = Ok p.
Proof.
  unfold tryMove.
  destruct (canStand_returns g nx (pos_y actor)) as [cx ->]. simpl.
  match goal with |- context [canStand g ?a ny] =>
    destruct (canStand_returns g a ny) as [cy ->] end.
  simpl. eauto.
Qed.

(** Outside the bounds [isWall] answers [true]. *)
Lemma isWall_outside (g : Grid) (x y : Q) :
  ~ in_bounds g (Qfloor x) (Qfloor y) -> isWall g x y = Ok true.
Proof.
  intros Hout. unfold isWall.
  destruct (Z.ltb_spec (Qfloor y) 0); simpl; [reflexivity|].
  destruct (Z.geb_spec (Qfloor y) (Z.of_nat (length g))) as [|Hy]; simpl; [reflexivity|].
  rewrite row0_length_width by (unfold grid_height; lia). simpl.
  destruct (Z.ltb_spec (Qfloor x) 0); simpl; [reflexivity|].
  destruct (Z.geb_spec (Qfloor x) (grid_width g)); simpl; [reflexivity|].
  exfalso. apply Hout. unfold in_bounds, grid_height. lia.
Qed.

(** A position [canStand] accepts is kept or replaced, one axis at a time,
    by a position [canStand] accepts. *)
Lemma tryMove_standable (g : Grid) (actor : Pos) (nx ny : Q) :
  canStand g (pos_x actor) (pos_y actor) = Ok true ->
  exists p, tryMove g actor nx ny = Ok p /\ canStand g (pos_x p) (pos_y p) = Ok true.
Proof.
  intros Hclear. unfold tryMove.
  destruct (canStand_returns g nx (pos_y actor)) as [cx Hx]. rewrite Hx. cbn [bind].
  set (a1 := if cx then mkPos nx (pos_y actor) else actor).
  assert (H1 : canStand g (pos_x a1) (pos_y a1) = Ok true).
  { subst a1. destruct cx; [exact Hx | exact Hclear]. }
  destruct (canStand_returns g (pos_x a1) ny) as [cy Hy]. rewrite Hy. cbn [bind].
  eexists. split; [reflexivity|].
  destruct cy; [exact Hy | exact H1].
Qed.

(** ** Range of the PRNG *)

Lemma toUint32_range (z : Z) : (0 <= JS.toUint32 z < 4294967296)%Z.
Proof. unfold JS.toUint32, JS.two32. apply Z.mod_pos_bound. lia. Qed.

(** Every number drawn lies in [[0, 1)]. *)
Lemma rng_out_range (t : Z) : 0 <= rng_out t /\ rng_out t < 1.
Proof.
  unfold rng_out.
  set (x := JS.xor _ (JS.ushr _ 14)).
  assert (H : (0 <= JS.ushr x 0 < 4294967296)%Z).
  { unfold JS.ushr. change (0 mod 32)%Z with 0%Z. rewrite Z.shiftr_0_r. apply toUint32_range. }
  unfold Qle, Qlt. simpl. lia.
Qed.

Lemma floor_mul_nonneg (r : Q) (n : Z) :
  0 <= r -> (0 <= n)%Z -> (0 <= floor_mul r n)%Z.
Proof.
  intros Hr Hn. unfold floor_mul.
  rewrite <- (Qfloor_Z 0). apply Qfloor_resp_le.
  apply Qmult_le_0_compat; [exact Hr|]. rewrite Zle_Qle in Hn. exact Hn.
Qed.

Lemma floor_mul_le (r : Q) (n : Z) :
  r < 1 -> (0 <= n)%Z -> (floor_mul r n <= n)%Z.
Proof.
  intros Hr Hn. unfold floor_mul.
  rewrite <- (Qfloor_Z n) at 2. apply Qfloor_resp_le.
  rewrite Zle_Qle in Hn.
  apply Qle_trans with (1 * inject_Z n); [|rewrite Qmult_1_l; apply Qle_refl].
  apply Qmult_le_compat_r; [apply Qlt_le_weak; exact Hr | exact Hn].
Qed.

(** [Math.floor(R() * n)] is an index below [n]. *)
Lemma floor_mul_lt (r : Q) (n : Z) :
  0 <= r -> r < 1 -> (0 < n)%Z -> (0 <= floor_mul r n < n)%Z.
Proof.
  intros Hr0 Hr1 Hn. split; [apply floor_mul_nonneg; [exact Hr0 | lia]|].
  unfold floor_mul. rewrite Zlt_Qlt.
  apply Qle_lt_trans with (r * inject_Z n); [apply Qfloor_le|].
  rewrite Zlt_Qlt in Hn.
  apply Qlt_le_trans with (1 * inject_Z n); [|rewrite Qmult_1_l; apply Qle_refl].
  apply Qmult_lt_compat_r; [exact Hn | exact Hr1].
Qed.


(** ** Counting draws *)

Lemma after_draws_add (t a b : Z) :
  (0 <= a)%Z -> (0 <= b)%Z -> after_draws (after_draws t a) b = after_draws t (a + b).
Proof.
  intros Ha Hb. unfold after_draws.
  rewrite Z2Nat.inj_add by assumption. rewrite (Nat.add_comm (Z.to_nat a)).
  rewrite Nat.iter_add. reflexivity.
Qed.

Lemma after_draws_two (t : Z) (k : nat) :
  after_draws (JS.add (JS.add t 0x6D2B79F5) 0x6D2B79F5) (2 * Z.of_nat k)
  = after_draws t (2 * Z.of_nat (S k)).
Proof.
  change (JS.add (JS.add t 0x6D2B79F5) 0x6D2B79F5) with (after_draws t 2).
  rewrite after_draws_add by lia. f_equal. lia.
Qed.

(** ** The state of the PRNG as a double *)

(** Integers up to 2^53 are doubles. *)
Lemma round_double_exact (z : Z) : (Z.abs z <= 2 ^ 53)%Z -> JS.round_double z = z.
Proof.
  intros H. unfold JS.round_double. change (2 ^ 53)%Z with 9007199254740992%Z in H.
  destruct (Z.leb_spec (Z.abs z) 9007199254740992); [reflexivity | lia].
Qed.

Lemma add_exact (t : Z) :
  (0 <= t)%Z -> (t + 0x6D2B79F5 <= 2 ^ 53)%Z -> JS.add t 0x6D2B79F5 = (t + 0x6D2B79F5)%Z.
Proof. intros H0 H1. unfold JS.add. apply round_double_exact. lia. Qed.

(** At 2^84 the doubles are 2^32 apart and the increment is less than half
    of that: the state cannot pass 2^84. *)
Lemma add_bounded (t : Z) :
  (0 <= t <= 2 ^ 84)%Z -> (0 <= JS.add t 0x6D2B79F5 <= 2 ^ 84)%Z.
Proof.
  intros Ht. unfold JS.add, JS.round_double.
  set (a := (t + 1831565813)%Z). assert (Ha : (0 < a)%Z) by (subst a; lia).
  rewrite (Z.abs_eq a) by lia.
  destruct (Z.leb_spec a 9007199254740992) as [Hs|Hs]; [change (2 ^ 84)%Z with 19342813113834066795298816%Z; lia|].
  rewrite (Z.sgn_pos a Ha), Z.mul_1_l.
  destruct (Z.log2_spec a Ha) as [Hlo Hhi].
  set (L := Z.log2 a) in *.
  assert (HL : (53 <= L)%Z).
  { destruct (Z.le_gt_cases 53 L) as [H|H]; [exact H|].
    assert ((2 ^ Z.succ L <= 2 ^ 53)%Z) by (apply Z.pow_le_mono_r; lia).
    change (2 ^ 53)%Z with 9007199254740992%Z in *. lia. }
  set (ulp := (2 ^ (L - 52))%Z).
  assert (Hulp : (0 < ulp)%Z) by (apply Z.pow_pos_nonneg; lia).
  assert (Hsplit : (2 ^ Z.succ L = ulp * 2 ^ 53)%Z).
  { subst ulp. rewrite <- Z.pow_add_r by lia. f_equal. lia. }
  set (q := (a / ulp)%Z). set (r := (a mod ulp)%Z).
  assert (Hq0 : (0 <= q)%Z) by (apply Z.div_pos; lia).
  assert (Hq : (q < 2 ^ 53)%Z) by (apply Z.div_lt_upper_bound; lia).
  assert (Hdm : (a = ulp * q + r)%Z) by (apply Z.div_mod; lia).
  assert (Hr : (0 <= r < ulp)%Z) by (apply Z.mod_pos_bound; lia).
  destruct (Z.lt_ge_cases a (2 ^ 84)) as [Hlt|Hge].
  - assert (HL' : (L < 84)%Z).
    { destruct (Z.lt_ge_cases L 84) as [H|H]; [exact H|].
      assert ((2 ^ 84 <= 2 ^ L)%Z) by (apply Z.pow_le_mono_r; lia). lia. }
    assert (Htop : (ulp * 2 ^ 53 <= 2 ^ 84)%Z).
    { rewrite <- Hsplit. apply Z.pow_le_mono_r; lia. }
    assert (Hup : ((q + 1) * ulp <= 2 ^ 84)%Z) by nia.
    assert (Hdn : (0 <= q * ulp)%Z) by nia.
    destruct (2 * r <? ulp)%Z; [nia|]. destruct (ulp <? 2 * r)%Z; [nia|].
    destruct (Z.even q); nia.
  - assert (HL' : L = 84%Z).
    { assert (Ha85 : (a < 2 ^ 85)%Z).
      { subst a. change (2 ^ 85)%Z with 38685626227668133590597632%Z.
        change (2 ^ 84)%Z with 19342813113834066795298816%Z in Ht. lia. }
      destruct (Z.lt_trichotomy L 84) as [H|[H|H]]; [|exact H|].
      - assert ((2 ^ Z.succ L <= 2 ^ 84)%Z) by (apply Z.pow_le_mono_r; lia). lia.
      - assert ((2 ^ 85 <= 2 ^ L)%Z) by (apply Z.pow_le_mono_r; lia). lia. }
    assert (Hu : ulp = 4294967296%Z) by (subst ulp; rewrite HL'; reflexivity).
    change (2 ^ 84)%Z with 19342813113834066795298816%Z in *.
    assert (Hq52 : q = 4503599627370496%Z) by (subst a; lia).
    assert (Hr2 : (2 * r < ulp)%Z) by (subst a; lia).
    destruct (Z.ltb_spec (2 * r) ulp) as [_|H]; [lia | lia].
Qed.

Lemma after_draws_bounded (seed n : Z) : (0 <= after_draws (rng seed) n <= 2 ^ 84)%Z.
Proof.
  unfold after_draws. induction (Z.to_nat n) as [|k IH].
  - cbn [Nat.iter nat_rect]. pose proof (toUint32_range seed) as H. unfold rng.
    change (2 ^ 84)%Z with 19342813113834066795298816%Z. lia.
  - rewrite Nat.iter_succ. unfold rng_next at 1. cbn [snd]. apply add_bounded. exact IH.
Qed.
(** ** Determinism of maze generation *)




(** ** Look input, walls, movement, pickups *)

(** C10.  When the game is not running, or is paused, [addLook dx] leaves the
    whole session state as it is, so the facing angle of the player is not
    modified. *)
Theorem addLook_ignored (dx : Q) (s : Game) :
  running s = false \/ paused s = true -> addLook dx s = s.
Proof.
  intros [H | H]; unfold addLook; rewrite H; simpl; [reflexivity|].
  rewrite orb_true_r. reflexivity.
Qed.

Lemma addLook_ignored_witness :
  addLook 40 (new_Game ui0) = new_Game ui0 /\
  addLook 40 (set_paused true (set_running true (new_Game ui0)))
  = set_paused true (set_running true (new_Game ui0)).
Proof.
  split.
  - apply (addLook_ignored 40 (new_Game ui0)). left. reflexivity.
  - apply (addLook_ignored 40 (set_paused true (set_running true (new_Game ui0)))).
    right. reflexivity.
Defined.

(** C9.  [isWall] returns on every grid and every coordinate pair (no row is
    indexed outside the grid, also when the grid is still empty), and it
    answers [true] whenever the cell containing [(x, y)] lies outside the
    bounds of the grid. *)
Theorem isWall_out_of_grid (g : Grid) (x y : Q) :
  (exists b, isWall g x y = Ok b) /\
  (~ in_bounds g (Qfloor x) (Qfloor y) -> isWall g x y = Ok true).
Proof.
  split; [apply isWall_returns|].
  intros Hout. unfold isWall.
  destruct (Z.ltb_spec (Qfloor y) 0); simpl; [reflexivity|].
  destruct (Z.geb_spec (Qfloor y) (Z.of_nat (length g))) as [|Hy]; simpl; [reflexivity|].
  rewrite row0_length_width by (unfold grid_height; lia). simpl.
  destruct (Z.ltb_spec (Qfloor x) 0); simpl; [reflexivity|].
  destruct (Z.geb_spec (Qfloor x) (grid_width g)); simpl; [reflexivity|].
  exfalso. apply Hout. unfold in_bounds, grid_height. lia.
Qed.

Lemma isWall_out_of_grid_witness :
  isWall [] 1.5 1.5 = Ok true /\ isWall grid5 (-0.25) 1.5 = Ok true /\
  isWall grid5 1.5 5 = Ok true.
Proof.
  split; [|split].
  - apply (isWall_out_of_grid [] 1.5 1.5). vm_compute. intuition discriminate.
  - apply (isWall_out_of_grid grid5 (-0.25) 1.5). vm_compute. intuition discriminate.
  - apply (isWall_out_of_grid grid5 1.5 5). vm_compute. intuition discriminate.
Defined.

(** A blocked probe point makes [canStand] answer [false]; in particular no
    actor can stand where a probe point leaves the grid. *)
Lemma canStand_out_of_grid (g : Grid) (x y : Q) :
  canStand g x y = Ok true ->
  in_bounds g (Qfloor (x + 0.14)) (Qfloor y) /\ in_bounds g (Qfloor (x - 0.14)) (Qfloor y) /\
  in_bounds g (Qfloor x) (Qfloor (y + 0.14)) /\ in_bounds g (Qfloor x) (Qfloor (y - 0.14)).
Proof.
  intros H. apply canStand_probes in H. destruct H as (H1 & H2 & H3 & H4).
  assert (Hin : forall a b, isWall g a b = Ok false -> in_bounds g (Qfloor a) (Qfloor b)).
  { intros a b Hw.
    destruct (decide ((0 <= Qfloor b < grid_height g)%Z /\ (0 <= Qfloor a < grid_width g)%Z))
      as [Hd | Hd]; [exact Hd|].
    apply (isWall_outside g a b) in Hd. congruence. }
  auto.
Qed.

(** C3.  If none of the four probe points of the actor lies in a wall cell,
    then [tryMove] returns and none of the four probe points of the resulting
    position lies in a wall cell, whatever the target [(nx, ny)]. *)
Theorem tryMove_keeps_clear (g : Grid) (actor : Pos) (nx ny : Q) :
  probes_clear g (pos_x actor) (pos_y actor) ->
  exists p, tryMove g actor nx ny = Ok p /\ probes_clear g (pos_x p) (pos_y p).
Proof.
  intros Hclear. unfold tryMove.
  destruct (canStand_returns g nx (pos_y actor)) as [cx Hx]. rewrite Hx. simpl.
  set (a1 := if cx then mkPos nx (pos_y actor) else actor).
  assert (H1 : probes_clear g (pos_x a1) (pos_y a1)).
  { subst a1. destruct cx; simpl; [apply canStand_probes; exact Hx | exact Hclear]. }
  destruct (canStand_returns g (pos_x a1) ny) as [cy Hy]. rewrite Hy. simpl.
  eexists. split; [reflexivity|].
  destruct cy; simpl; [apply canStand_probes; exact Hy | exact H1].
Qed.

Lemma tryMove_keeps_clear_witness :
  exists p, tryMove grid5 (mkPos 1.5 1.5) 2.0 1.75 = Ok p /\ probes_clear grid5 (pos_x p) (pos_y p).
Proof.
  apply (tryMove_keeps_clear grid5 (mkPos 1.5 1.5) 2.0 1.75).
  unfold probes_clear. vm_compute. auto.
Defined.

(** The same for the two actors of a session: their positions after
    [tryMove] can be stood on. *)
Lemma tryMove_canStand (g : Grid) (actor : Pos) (nx ny : Q) :
  canStand g (pos_x actor) (pos_y actor) = Ok true ->
  exists p, tryMove g actor nx ny = Ok p /\ canStand g (pos_x p) (pos_y p) = Ok true.
Proof.
  apply tryMove_standable.
Qed.

Lemma take_key_off (l : list Pt) (c : Pt) :
  on_key l c = false -> take_key l (pt_x c) (pt_y c) = None.
Proof.
  induction l as [|k l IH]; simpl; [reflexivity|].
  intros H. apply orb_false_elim in H. destruct H as [Hk Hl].
  rewrite Hk. rewrite (IH Hl). reflexivity.
Qed.

(** C8.  In a running session whose player stands on the exit cell: with at
    least 3 keys collected, [pickup] ends the session as won ([running]
    becomes [false] and the overlay shows the win screen); with fewer than 3
    keys (and, as [startNew] arranges, no key lying on the exit cell),
    [pickup] changes nothing but the status text, which becomes
    ["Need 3 keys"], so the session is still running. *)
Theorem pickup_at_exit (s : Game) (e : Pt) :
  running s = true ->
  exitPos s = Some e ->
  pt_x e = Qfloor (pl_x (player s)) ->
  pt_y e = Qfloor (pl_y (player s)) ->
  ((3 <= keys s)%Z ->
     running (pickup s) = false /\
     ui_title (ui (pickup s)) = "Clear!"%string /\
     ui_overlay (ui (pickup s)) = "flex"%string /\
     ui_btnRestart (ui (pickup s)) = "inline-block"%string) /\
  ((keys s < 3)%Z -> on_key (keyPos s) e = false ->
     pickup s = set_ui (set_ui_status "Need 3 keys" (ui s)) s /\
     running (pickup s) = true).
Proof.
  intros Hrun Hexit Hx Hy. split.
  - intros Hk. unfold pickup.
    destruct (take_key (keyPos s) (Qfloor (pl_x (player s))) (Qfloor (pl_y (player s))))
      as [l|]; simpl; rewrite Hexit; rewrite Hx, Hy, !Z.eqb_refl; simpl.
    + destruct (Z.geb_spec (keys s + 1) 3); [|lia]. repeat split.
    + destruct (Z.geb_spec (keys s) 3); [|lia]. repeat split.
  - intros Hk Hoff. unfold pickup.
    rewrite <- Hx, <- Hy, (take_key_off _ _ Hoff), Hexit, !Z.eqb_refl. simpl.
    destruct (Z.geb_spec (keys s) 3); [lia|]. split; [reflexivity|]. exact Hrun.
Qed.

Lemma pickup_at_exit_witness :
  running (pickup (at_exit 3)) = false /\
  pickup (at_exit 2) = set_ui (set_ui_status "Need 3 keys" (ui (at_exit 2))) (at_exit 2).
Proof.
  split.
  - apply (proj1 (pickup_at_exit (at_exit 3) (mkPt 3 1) eq_refl eq_refl eq_refl eq_refl)).
    vm_compute. discriminate.
  - apply (proj2 (pickup_at_exit (at_exit 2) (mkPt 3 1) eq_refl eq_refl eq_refl eq_refl)).
    + reflexivity.
    + reflexivity.
Defined.

(** ** Enemy state machine *)

Lemma wander_target_returns (M : MathLib) (s : Game) (a : Q) :
  exists a' s', wander_target M s a = Ok (a', s') /\ enemy s' = enemy s /\
                grid s' = grid s /\ player s' = player s.
Proof.
  unfold wander_target, rng_next.
  destruct (Qltb (rng_out (JS.add (R s) 1831565813)) 0.02).
  - match goal with |- context [isWall ?g ?x ?y] =>
      destruct (isWall_returns g x y) as [[] ->] end; cbn [bind];
      (do 2 eexists; split; [reflexivity|]; repeat split).
  - match goal with |- context [isWall ?g ?x ?y] =>
      destruct (isWall_returns g x y) as [[] ->] end; cbn [bind];
      (do 2 eexists; split; [reflexivity|]; repeat split).
Qed.

(** Turning and moving never change the state of the state machine. *)
Lemma enemy_act_state (M : MathLib) (dt : Q) (s : Game) :
  exists s', enemy_act M dt s = Ok s' /\
             en_state (enemy s') = en_state (enemy s) /\
             en_lastSeen (enemy s') = en_lastSeen (enemy s).
Proof.
  unfold enemy_act.
  assert (Ht : exists a' s1,
    (if bool_decide (en_state (enemy s) = chase)
     then Ok (atan2 M (pl_y (player s) - en_y (enemy s)) (pl_x (player s) - en_x (enemy s)), s)
     else wander_target M s (en_a (enemy s))) = Ok (a', s1) /\ enemy s1 = enemy s).
  { destruct (bool_decide (en_state (enemy s) = chase)); [eauto|].
    destruct (wander_target_returns M s (en_a (enemy s))) as (a' & s1 & H & He & _). eauto. }
  destruct Ht as (a' & s1 & -> & He). simpl.
  match goal with |- context [tryMove ?g ?p ?x ?y] =>
    destruct (tryMove_returns g p x y) as [q ->] end.
  simpl.
  match goal with |- context [norm_ltb ?d ?r] => destruct (norm_ltb d r) end;
    eexists; (split; [reflexivity|]); simpl; rewrite He; auto.
Qed.

(** What [canSeePlayer] tests: sample [i] of the segment from the enemy to
    the player, cut in [steps] parts. *)
Lemma sight_loop_true (n : nat) (g : Grid) (e : Enemy) (dx dy : Q) (steps i : Z) :
  sight_loop n g e dx dy steps i = Ok true <->
  forall j, (i <= j < i + Z.of_nat n)%Z ->
    isWall g (en_x e + dx * (inject_Z j / inject_Z steps))
             (en_y e + dy * (inject_Z j / inject_Z steps)) = Ok false.
Proof.
  revert i. induction n as [|n IH]; intros i; simpl.
  - split; [intros _ j Hj; lia | reflexivity].
  - destruct (isWall_returns g (en_x e + dx * (inject_Z i / inject_Z steps))
                (en_y e + dy * (inject_Z i / inject_Z steps))) as [b Hb].
    rewrite Hb. simpl. destruct b.
    + split; [discriminate|]. intros H. specialize (H i ltac:(lia)). congruence.
    + rewrite IH. split.
      * intros H j Hj. destruct (decide (j = i)) as [->|]; [exact Hb|]. apply H. lia.
      * intros H j Hj. apply H. lia.
Qed.

Lemma canSeePlayer_true (s : Game) (maxDist : Q) :
  canSeePlayer s maxDist = Ok true <->
  sees_player s maxDist.
Proof.
  unfold canSeePlayer, sees_player.
  destruct (norm_gtb _ maxDist).
  - split; [discriminate | intros [H _]; discriminate].
  - rewrite sight_loop_true. split.
    + intros H. split; [reflexivity|]. intros j Hj. apply H. lia.
    + intros [_ H] j Hj. apply H. lia.
Qed.

(** C7 (amended).  When the line-of-sight check from the enemy to the player
    succeeds, one [stepEnemy] update returns with the enemy in state [chase]
    and the sighting time set to [now].  When the enemy is in [chase], the
    check fails and more than 1.8 seconds have passed since the last sighting,
    one [stepEnemy] update returns with the enemy in state [wander]. *)
Theorem stepEnemy_transitions (M : MathLib) (dt now : Q) (s : Game) :
  (sees_player s 12 ->
     exists s', stepEnemy M dt now s = Ok s' /\
                en_state (enemy s') = chase /\ en_lastSeen (enemy s') = now) /\
  (en_state (enemy s) = chase -> canSeePlayer s 12 = Ok false ->
   1.8 < now - en_lastSeen (enemy s) ->
     exists s', stepEnemy M dt now s = Ok s' /\ en_state (enemy s') = wander).
Proof.
  unfold stepEnemy. split.
  - intros H. apply canSeePlayer_true in H. rewrite H. cbn [bind].
    destruct (enemy_act_state M dt (enemy_decide true now s)) as (s' & -> & Hs & Hl).
    exists s'. simpl in Hs, Hl. auto.
  - intros Hc Hsees Hlate. rewrite Hsees. cbn [bind].
    destruct (enemy_act_state M dt (enemy_decide false now s)) as (s' & -> & Hs & _).
    exists s'. split; [reflexivity|]. rewrite Hs. unfold enemy_decide.
    rewrite Hc. apply Qltb_lt in Hlate. rewrite Hlate. reflexivity.
Qed.

Lemma stepEnemy_transitions_witness :
  (exists s', stepEnemy mathQ 0.016 5 seen_player = Ok s' /\
              en_state (enemy s') = chase /\ en_lastSeen (enemy s') = 5) /\
  (exists s', stepEnemy mathQ 0.016 2 hidden_player = Ok s' /\
              en_state (enemy s') = wander).
Proof.
  split.
  - apply (proj1 (stepEnemy_transitions mathQ 0.016 5 seen_player)).
    apply canSeePlayer_true. vm_compute. reflexivity.
  - apply (proj2 (stepEnemy_transitions mathQ 0.016 2 hidden_player)).
    + reflexivity.
    + vm_compute. reflexivity.
    + vm_compute. reflexivity.
Defined.

(** C7, the claim as first stated, fails when exactly 1.8 seconds have passed:
    the enemy of [hidden_player] chases, cannot see the player, was last in
    contact at time [0], and at time [1.8] it still chases after the update. *)
Lemma stepEnemy_boundary :
  en_state (enemy hidden_player) = chase /\
  canSeePlayer hidden_player 12 = Ok false /\
  1.8 <= 1.8 - en_lastSeen (enemy hidden_player) /\
  exists s', stepEnemy mathQ 0.016 1.8 hidden_player = Ok s' /\
             en_state (enemy s') = chase.
Proof.
  split; [reflexivity|]. split; [vm_compute; reflexivity|].
  split; [vm_compute; discriminate|].
  eexists. split; [vm_compute; reflexivity|]. reflexivity.
Qed.

(** ** Raycast *)

Lemma off_grid_spec (g : Grid) (x y : Z) :
  exists b, off_grid g x y = Ok b /\ (b = true <-> ~ in_bounds g x y).
Proof.
  unfold off_grid, in_bounds, grid_height.
  destruct (Z.ltb_spec y 0); simpl.
  { exists true. split; [reflexivity|]. split; [intros _; lia | reflexivity]. }
  destruct (Z.geb_spec y (Z.of_nat (length g))); simpl.
  { exists true. split; [reflexivity|]. split; [intros _; lia | reflexivity]. }
  destruct (Z.ltb_spec x 0); simpl.
  { exists true. split; [reflexivity|]. split; [intros _; lia | reflexivity]. }
  rewrite row0_length_width by (unfold grid_height; lia). simpl.
  eexists. split; [reflexivity|].
  destruct (Z.geb_spec x (grid_width g)); split; try lia; try discriminate; auto.
Qed.

Lemma grid_read_in_bounds (g : Grid) (x y : Z) :
  (0 <= y < grid_height g)%Z -> exists v, grid_read g x y = Ok v.
Proof.
  intros H. unfold grid_read. destruct (index_Some g y H) as [row ->]. simpl. eauto.
Qed.

(** One iteration of the loop: the test made after advancing. *)
Lemma dda_test (g : Grid) (r : Ray) :
  (exists b, off_grid g (mapX r) (mapY r) = Ok true /\ b = true /\ ray_blocked g r) \/
  (off_grid g (mapX r) (mapY r) = Ok false /\
   exists v, grid_read g (mapX r) (mapY r) = Ok v /\
             (is_val v 1 = true <-> ray_blocked g r)).
Proof.
  destruct (off_grid_spec g (mapX r) (mapY r)) as ([] & Hb & Hspec).
  - left. exists true. repeat split; auto. left. apply Hspec. reflexivity.
  - right. split; [exact Hb|].
    assert (Hin : in_bounds g (mapX r) (mapY r)).
    { destruct (decide ((0 <= mapY r < grid_height g)%Z /\ (0 <= mapX r < grid_width g)%Z))
        as [Hd|Hd]; [exact Hd|]. apply Hspec in Hd. discriminate. }
    destruct (grid_read_in_bounds g (mapX r) (mapY r) (proj1 Hin)) as [v Hv].
    exists v. split; [exact Hv|]. unfold ray_blocked, is_val. rewrite Hv.
    rewrite bool_decide_eq_true. split.
    + intros ->. right. reflexivity.
    + intros [Hout | Heq]; [contradiction | congruence].
Qed.

Lemma dda_advance_hit (d : RayDir) (r : Ray) : hit (dda_advance d r) = hit r.
Proof. unfold dda_advance. destruct (Qltb _ _); reflexivity. Qed.

Lemma iter_advance_hit (d : RayDir) (r : Ray) (k : nat) :
  hit (Nat.iter k (dda_advance d) r) = hit r.
Proof.
  induction k as [|k IH]; simpl; [reflexivity|]. rewrite dda_advance_hit. exact IH.
Qed.

(** The loop returns, after [k <= n] steps, at the first blocked cell, or
    after all [n] steps when no cell reached was blocked. *)
Lemma dda_spec (n : nat) (g : Grid) (d : RayDir) (r0 : Ray) :
  exists (r : Ray) (k : nat),
    dda n g d r0 = Ok r /\ (k <= n)%nat /\
    (forall j, (1 <= j < k)%nat -> ~ ray_blocked g (Nat.iter j (dda_advance d) r0)) /\
    ((r = set_hit (Nat.iter k (dda_advance d) r0) /\ (1 <= k)%nat /\
      ray_blocked g (Nat.iter k (dda_advance d) r0)) \/
     (r = Nat.iter k (dda_advance d) r0 /\ k = n /\
      ((1 <= n)%nat -> ~ ray_blocked g (Nat.iter k (dda_advance d) r0)))).
Proof.
  revert r0. induction n as [|n IH]; intros r0.
  - exists r0, 0%nat. simpl. repeat split; [lia | intros j Hj; lia | right].
    repeat split. intros Hn; lia.
  - simpl. destruct (dda_test g (dda_advance d r0)) as [(b & Hoff & _ & Hbl) | (Hoff & v & Hv & Hval)].
    + rewrite Hoff. simpl. exists (set_hit (dda_advance d r0)), 1%nat.
      repeat split; [lia | intros j Hj; lia | left]. repeat split; [lia | exact Hbl].
    + rewrite Hoff. simpl. rewrite Hv. simpl. destruct (is_val v 1) eqn:Hw.
      * exists (set_hit (dda_advance d r0)), 1%nat.
        repeat split; [lia | intros j Hj; lia | left].
        repeat split; [lia | apply Hval; reflexivity].
      * destruct (IH (dda_advance d r0)) as (r & k & Hr & Hk & Hfree & Hend).
        assert (Hfirst : ~ ray_blocked g (dda_advance d r0)).
        { intros Hb. apply Hval in Hb. congruence. }
        exists r, (S k). rewrite Nat.iter_succ_r. repeat split; [exact Hr | lia | |].
        -- intros j Hj. destruct j as [|j]; [lia|]. rewrite Nat.iter_succ_r.
           destruct j as [|j]; [exact Hfirst|]. apply Hfree. lia.
        -- destruct Hend as [(-> & Hk1 & Hb) | (-> & -> & Hb)].
           ++ left. repeat split; [lia | exact Hb].
           ++ right. repeat split. intros _.
              destruct n as [|n]; [exact Hfirst | apply Hb; lia].
Qed.

(** When the first cell entered stops the ray, the loop leaves there. *)
Lemma raycast_loop_first (M : MathLib) (s : Game) (angle : Q) :
  ray_blocked (grid s) (ray_after M s angle 1) ->
  raycast_loop M s angle = Ok (set_hit (ray_after M s angle 1)).
Proof.
  unfold raycast_loop, ray_after. cbn [Nat.iter nat_rect].
  set (d := ray_dir _ _). set (r0 := ray_init _ _ _ _). intros Hb.
  change (Z.to_nat 128) with (S 127). cbn [dda].
  destruct (dda_test (grid s) (dda_advance d r0)) as [(b & Hoff & _ & _) | (Hoff & v & Hv & Hval)].
  - rewrite Hoff. reflexivity.
  - rewrite Hoff. cbn [bind]. rewrite Hv. cbn [bind].
    apply Hval in Hb. rewrite Hb. reflexivity.
Qed.

Lemma to_side_range (s : Game) (a : Axis) : 0 <= to_side s a /\ to_side s a <= 1.
Proof.
  pose proof (Qfloor_le (pl_x (player s))) as Hx0. pose proof (Qlt_floor (pl_x (player s))) as Hx1.
  pose proof (Qfloor_le (pl_y (player s))) as Hy0. pose proof (Qlt_floor (pl_y (player s))) as Hy1.
  rewrite inject_Z_plus in Hx1, Hy1. change (inject_Z 1) with 1 in Hx1, Hy1.
  destruct a; unfold to_side, player_cell; cbn [pt_x pt_y]; split; lra.
Qed.

Lemma or_tiny_zero (v : Q) : v == 0 -> or_tiny v = 1 # 1000000000.
Proof. intros H. unfold or_tiny. apply Qeq_bool_iff in H. rewrite H. reflexivity. Qed.

Lemma or_tiny_unit (v : Q) : v == 1 \/ v == -1 -> or_tiny v = v.
Proof.
  intros H. unfold or_tiny. destruct (Qeq_bool v 0) eqn:E; [|reflexivity].
  apply Qeq_bool_iff in E. destruct H as [H|H]; rewrite H in E; discriminate.
Qed.

Lemma Qabs_inv_unit (v : Q) : v == 1 \/ v == -1 -> Qabs (1 / v) == 1.
Proof. intros [H|H]; rewrite H; reflexivity. Qed.

(** The first step of a ray along an axis: the cell entered and the distance
    to it. *)
Lemma first_step_axis (M : MathLib) (s : Game) (angle : Q) (a : Axis) :
  cos M angle == inject_Z (axis_dx a) -> sin M angle == inject_Z (axis_dy a) ->
  crosses_first s a ->
  let r1 := ray_after M s angle 1 in
  mapX r1 = pt_x (ahead s a) /\ mapY r1 = pt_y (ahead s a) /\ side r1 = axis_side a /\
  rh_dist (ray_result (ray_dir (cos M angle) (sin M angle)) (set_hit r1)) == to_side s a.
Proof.
  intros Hc Hs Hcross. unfold ray_after. cbn [Nat.iter nat_rect].
  set (dx := cos M angle) in *. set (dy := sin M angle) in *.
  set (px := pl_x (player s)) in *. set (py := pl_y (player s)) in *.
  assert (Hbig : Qabs (1 / (1 # 1000000000)) == 1000000000) by reflexivity.
  unfold dda_advance, ray_init, ray_dir, ray_result, set_hit.
  cbn [sideDistX sideDistY mapX mapY side hit deltaDistX deltaDistY stepX stepY
       rh_dist rh_side rh_mapX rh_mapY].
  unfold ahead, player_cell. cbn [pt_x pt_y]. fold px py.
  unfold crosses_first, to_side, player_cell in Hcross |- *. cbn [pt_x pt_y] in Hcross |- *.
  fold px py in Hcross |- *.
  destruct a; cbn [axis_dx axis_dy axis_side] in *.
  - (* +x *)
    assert (Hu : dx == 1 \/ dx == -1) by (left; exact Hc).
    assert (Hx : Qltb dx 0 = false) by (apply Qltb_ge; rewrite Hc; discriminate).
    assert (Hy : Qltb dy 0 = false) by (apply Qltb_ge; rewrite Hs; discriminate).
    rewrite Hx, Hy, (or_tiny_zero dy Hs), (or_tiny_unit dx Hu).
    pose proof (Qabs_inv_unit dx Hu) as Hd.
    assert (Ht : Qltb ((inject_Z (Qfloor px) + 1 - px) * Qabs (1 / dx))
                      ((inject_Z (Qfloor py) + 1 - py) * Qabs (1 / (1 # 1000000000))) = true).
    { apply Qltb_lt. rewrite Hd, Hbig. lra. }
    rewrite Ht. cbn [sideDistX sideDistY mapX mapY side Z.eqb].
    repeat split; [lia|]. rewrite Hd. ring.
  - (* -x *)
    assert (Hu : dx == 1 \/ dx == -1) by (right; exact Hc).
    assert (Hx : Qltb dx 0 = true) by (apply Qltb_lt; rewrite Hc; reflexivity).
    assert (Hy : Qltb dy 0 = false) by (apply Qltb_ge; rewrite Hs; discriminate).
    rewrite Hx, Hy, (or_tiny_zero dy Hs), (or_tiny_unit dx Hu).
    pose proof (Qabs_inv_unit dx Hu) as Hd.
    assert (Ht : Qltb ((px - inject_Z (Qfloor px)) * Qabs (1 / dx))
                      ((inject_Z (Qfloor py) + 1 - py) * Qabs (1 / (1 # 1000000000))) = true).
    { apply Qltb_lt. rewrite Hd, Hbig. lra. }
    rewrite Ht. cbn [sideDistX sideDistY mapX mapY side Z.eqb].
    repeat split; [lia|]. rewrite Hd. ring.
  - (* +y *)
    assert (Hu : dy == 1 \/ dy == -1) by (left; exact Hs).
    assert (Hx : Qltb dx 0 = false) by (apply Qltb_ge; rewrite Hc; discriminate).
    assert (Hy : Qltb dy 0 = false) by (apply Qltb_ge; rewrite Hs; discriminate).
    rewrite Hx, Hy, (or_tiny_zero dx Hc), (or_tiny_unit dy Hu).
    pose proof (Qabs_inv_unit dy Hu) as Hd.
    assert (Ht : Qltb ((inject_Z (Qfloor px) + 1 - px) * Qabs (1 / (1 # 1000000000)))
                      ((inject_Z (Qfloor py) + 1 - py) * Qabs (1 / dy)) = false).
    { apply Qltb_ge. rewrite Hd, Hbig. lra. }
    rewrite Ht. cbn [sideDistX sideDistY mapX mapY side Z.eqb].
    repeat split; [lia|]. rewrite Hd. ring.
  - (* -y *)
    assert (Hu : dy == 1 \/ dy == -1) by (right; exact Hs).
    assert (Hx : Qltb dx 0 = false) by (apply Qltb_ge; rewrite Hc; discriminate).
    assert (Hy : Qltb dy 0 = true) by (apply Qltb_lt; rewrite Hs; reflexivity).
    rewrite Hx, Hy, (or_tiny_zero dx Hc), (or_tiny_unit dy Hu).
    pose proof (Qabs_inv_unit dy Hu) as Hd.
    assert (Ht : Qltb ((inject_Z (Qfloor px) + 1 - px) * Qabs (1 / (1 # 1000000000)))
                      ((py - inject_Z (Qfloor py)) * Qabs (1 / dy)) = false).
    { apply Qltb_ge. rewrite Hd, Hbig. lra. }
    rewrite Ht. cbn [sideDistX sideDistY mapX mapY side Z.eqb].
    repeat split; [lia|]. rewrite Hd. ring.
Qed.

(** C6 (amended).  For every ray angle and player position [raycast]
    returns.  Its loop makes [k] DDA steps with [1 <= k <= 128]; no cell
    reached before step [k] is a wall or outside the grid; either the cell
    reached at step [k] is a wall or outside the grid and the loop leaves
    with its flag [hit = 1], or all 128 steps were made and the flag is still
    [0].  The flag is local to the loop: in both cases [raycast] returns the
    distance, side and cell of the cell reached last, and nothing else.  In
    particular, for a ray along an axis ([cos] and [sin] of the angle are
    [1, 0], [-1, 0], [0, 1] or [0, -1]) with a wall in the next cell in that
    direction, fired from a position from which it reaches that cell first,
    the loop leaves after one step with [hit = 1] and [raycast] returns that
    cell and the distance from the player to it, which lies between 0 and 1,
    below the step bound. *)
Theorem raycast_bounded (M : MathLib) (s : Game) (angle : Q) :
  (exists (r : Ray) (k : nat),
     raycast_loop M s angle = Ok r /\
     raycast M s angle = Ok (ray_result (ray_dir (cos M angle) (sin M angle)) r) /\
     (1 <= k <= 128)%nat /\
     (forall j, (1 <= j < k)%nat -> ~ ray_blocked (grid s) (ray_after M s angle j)) /\
     ((hit r = 1%Z /\ r = set_hit (ray_after M s angle k) /\
       ray_blocked (grid s) (ray_after M s angle k)) \/
      (hit r = 0%Z /\ k = 128%nat /\ r = ray_after M s angle k /\
       ~ ray_blocked (grid s) (ray_after M s angle k)))) /\
  (forall a : Axis,
     cos M angle == inject_Z (axis_dx a) -> sin M angle == inject_Z (axis_dy a) ->
     grid_read (grid s) (pt_x (ahead s a)) (pt_y (ahead s a)) = Ok (Some 1%Z) ->
     crosses_first s a ->
     exists (r : Ray) (h : RayHit),
       raycast_loop M s angle = Ok r /\ hit r = 1%Z /\
       raycast M s angle = Ok h /\
       rh_mapX h = pt_x (ahead s a) /\ rh_mapY h = pt_y (ahead s a) /\
       rh_side h = axis_side a /\
       rh_dist h == to_side s a /\ 0 <= rh_dist h /\ rh_dist h <= 1 /\ rh_dist h < 128).
Proof.
  split.
  - unfold raycast, raycast_loop, ray_after.
    set (d := ray_dir (cos M angle) (sin M angle)).
    set (r0 := ray_init _ _ _ _).
    destruct (dda_spec (Z.to_nat 128) (grid s) d r0) as (r & k & Hr & Hk & Hfree & Hend).
    exists r, k. rewrite Hr. cbn [bind].
    change (Z.to_nat 128) with 128%nat in *.
    destruct Hend as [(-> & Hk1 & Hb) | (-> & -> & Hb)].
    + repeat split; [lia | lia | exact Hfree | left]. repeat split. exact Hb.
    + repeat split; [lia | lia | exact Hfree | right].
      split; [rewrite iter_advance_hit; reflexivity|]. repeat split. apply Hb. lia.
  - intros a Hc Hs Hwall Hcross.
    destruct (first_step_axis M s angle a Hc Hs Hcross) as (Hmx & Hmy & Hside & Hdist).
    assert (Hb : ray_blocked (grid s) (ray_after M s angle 1)).
    { right. rewrite Hmx, Hmy. exact Hwall. }
    pose proof (raycast_loop_first M s angle Hb) as Hloop.
    destruct (to_side_range s a) as [H0 H1].
    exists (set_hit (ray_after M s angle 1)),
           (ray_result (ray_dir (cos M angle) (sin M angle)) (set_hit (ray_after M s angle 1))).
    split; [exact Hloop|]. split; [reflexivity|].
    split; [unfold raycast; rewrite Hloop; reflexivity|].
    split; [exact Hmx|]. split; [exact Hmy|]. split; [exact Hside|].
    split; [exact Hdist|]. rewrite Hdist. repeat split; [exact H0 | exact H1 | lra].
Qed.

Lemma raycast_bounded_witness :
  exists (r : Ray) (h : RayHit),
    raycast_loop mathQ (set_player (set_pl_pos 1.5 1.5 (player (at_exit 0))) (at_exit 0)) 0 = Ok r
    /\ hit r = 1%Z /\
    raycast mathQ (set_player (set_pl_pos 1.5 1.5 (player (at_exit 0))) (at_exit 0)) 0 = Ok h /\
    rh_mapX h = 2%Z /\ rh_mapY h = 1%Z /\ rh_side h = 0%Z /\
    rh_dist h == 0.5 /\ 0 <= rh_dist h /\ rh_dist h <= 1 /\ rh_dist h < 128.
Proof.
  apply (proj2 (raycast_bounded mathQ
                  (set_player (set_pl_pos 1.5 1.5 (player (at_exit 0))) (at_exit 0)) 0) Xpos);
    vm_compute; reflexivity.
Defined.

(** A ray fired along [+x] at the wall cell [(2, 1)] next to the player's
    cell [(1, 1)], from a hair above the lower side of the cell: the [1e-9]
    taken for the zero component of the direction carries it into the row
    below first, it runs down the corridor there, and after 128 steps the
    loop ends with [hit = 0] at the floor cell [(128, 2)]; [raycast] returns
    that cell and the distance 126.5. *)
Theorem raycast_misses_wall :
  cos mathQ 0 == 1 /\ sin mathQ 0 == 0 /\
  player_cell above_corridor = mkPt 1 1 /\
  grid_read (grid above_corridor) 2 1 = Ok (Some 1%Z) /\
  exists (r : Ray) (h : RayHit),
    raycast_loop mathQ above_corridor 0 = Ok r /\ hit r = 0%Z /\
    raycast mathQ above_corridor 0 = Ok h /\
    rh_mapX h = 128%Z /\ rh_mapY h = 2%Z /\ rh_side h = 0%Z /\
    grid_read (grid above_corridor) 128 2 = Ok (Some 0%Z) /\
    rh_dist h == 126.5.
Proof.
  split; [reflexivity|]. split; [reflexivity|]. split; [reflexivity|].
  split; [reflexivity|].
  eexists. eexists. split; [vm_compute; reflexivity|]. split; [reflexivity|].
  split; [vm_compute; reflexivity|]. repeat split.
Qed.
(** ** Entity placement *)

Lemma on_key_false (l : list Pt) (c : Pt) : on_key l c = false <-> c ∉ l.
Proof.
  unfold on_key. induction l as [|o l IH]; simpl.
  - split; [intros _ H; inversion H | reflexivity].
  - rewrite orb_false_iff, IH, not_elem_of_cons. split.
    + intros [Ho Hl]. split; [|exact Hl]. intros ->.
      rewrite !Z.eqb_refl in Ho. discriminate.
    + intros [Ho Hl]. split; [|exact Hl].
      destruct o as [ox oy], c as [cx cy]. simpl.
      destruct (Z.eqb_spec ox cx) as [->|]; [|reflexivity].
      destruct (Z.eqb_spec oy cy) as [->|]; [|reflexivity].
      contradiction Ho. reflexivity.
Qed.

Lemma norm_ltb_far (p : Player) (c : Pt) (r : Q) :
  0 < r -> norm_ltb (dist (center c) (player_pos p)) r = false -> far_from p c r.
Proof.
  intros Hr H. unfold norm_ltb in H. apply Qltb_lt in Hr. rewrite Hr in H. simpl in H.
  apply Qltb_ge in H. exact H.
Qed.

(** The key loop: when it returns, three distinct far keys are placed, and
    only the PRNG state and the keys have changed. *)
Lemma place_keys_spec (fuel : nat) (s s' : Game) :
  place_keys fuel s = Ok s' -> keys_placed s ->
  keys_placed s' /\ length (keyPos s') = 3%nat /\
  player s' = player s /\ exitPos s' = exitPos s /\ grid s' = grid s.
Proof.
  revert s. induction fuel as [|fuel IH]; intros s H Hinv.
  - simpl in H. destruct (Nat.ltb_spec (length (keyPos s)) 3); [discriminate|].
    inversion H; subst s'. destruct Hinv as (Hnd & Hlen & Hfar).
    repeat split; auto. lia.
  - simpl in H. destruct (Nat.ltb_spec (length (keyPos s)) 3) as [Hlt|Hge].
    + bind_inv H as [k t] E.
      destruct (norm_ltb (dist (center k) (player_pos (player s))) 8) eqn:Hd.
      { apply IH in H; [exact H | exact Hinv]. }
      destruct (on_key (keyPos s) k) eqn:Hk.
      { apply IH in H; [exact H | exact Hinv]. }
      apply IH in H; [exact H|].
      destruct Hinv as (Hnd & Hlen & Hfar). unfold keys_placed. simpl.
      apply on_key_false in Hk. simpl in Hk.
      repeat split.
      * apply NoDup_app. repeat split; [exact Hnd | | apply NoDup_singleton].
        intros x Hx Hx'. apply list_elem_of_singleton in Hx'. subst x. contradiction.
      * rewrite length_app. simpl. lia.
      * intros k' Hk'. apply elem_of_app in Hk'. destruct Hk' as [Hk' | Hk'].
        -- apply Hfar. exact Hk'.
        -- apply list_elem_of_singleton in Hk'. subst k'.
           apply norm_ltb_far; [reflexivity | exact Hd].
    + inversion H; subst s'. destruct Hinv as (Hnd & Hlen & Hfar).
      repeat split; auto. lia.
Qed.

(** The exit loop: when it returns, the exit is far and on no key, and only
    the PRNG state and the exit have changed. *)
Lemma place_exit_spec (fuel : nat) (s s' : Game) :
  place_exit fuel s = Ok s' ->
  (exists e, exitPos s' = Some e /\ far_from (player s) e 10 /\ e ∉ keyPos s) /\
  player s' = player s /\ keyPos s' = keyPos s /\ grid s' = grid s.
Proof.
  revert s. induction fuel as [|fuel IH]; intros s H; simpl in H; [discriminate|].
  bind_inv H as [e t] E.
  destruct (norm_ltb (dist (center e) (player_pos (player s))) 10) eqn:Hd.
  { apply IH in H. exact H. }
  destruct (on_key (keyPos s) e) eqn:Hk.
  { apply IH in H. exact H. }
  inversion H; subst s'. simpl. split; [|auto].
  exists e. repeat split.
  - apply norm_ltb_far; [reflexivity | exact Hd].
  - apply on_key_false in Hk. exact Hk.
Qed.

Lemma place_enemy_loop_frame (n : nat) (s s' : Game) (en : option Pt) :
  place_enemy_loop n s = Ok (en, s') ->
  player s' = player s /\ keyPos s' = keyPos s /\ exitPos s' = exitPos s /\ grid s' = grid s.
Proof.
  revert s. induction n as [|n IH]; intros s H; simpl in H.
  - inversion H; subst. auto.
  - bind_inv H as [c t] E.
    destruct (_ || _) in H.
    + apply IH in H. exact H.
    + inversion H; subst. auto.
Qed.

Lemma place_enemy_frame (M : MathLib) (s s' : Game) :
  place_enemy M s = Ok s' ->
  player s' = player s /\ keyPos s' = keyPos s /\ exitPos s' = exitPos s /\ grid s' = grid s.
Proof.
  unfold place_enemy, enemy_cell. intros H.
  bind_inv H as [en s1] E. bind_inv E as [o s2] E'.
  apply place_enemy_loop_frame in E'. destruct E' as (Hp & Hk & He & Hg).
  assert (Hs1 : player s1 = player s2 /\ keyPos s1 = keyPos s2 /\
                exitPos s1 = exitPos s2 /\ grid s1 = grid s2).
  { destruct o as [c|].
    - inversion E; subst. auto.
    - bind_inv E as [c t] E2. inversion E; subst. auto. }
  destruct Hs1 as (Hp1 & Hk1 & He1 & Hg1).
  unfold rng_next in H. inversion H; subst s'. simpl.
  repeat split; congruence.
Qed.

(** C5.  Whenever [startNew] returns, exactly three keys are placed on
    pairwise distinct cells, each key cell center is at Euclidean distance at
    least 8 from the player, the exit cell center is at distance at least 10
    from the player, and the exit cell is not a key cell. *)
Theorem startNew_distances (M : MathLib) (fuel : nat) (date_now : Z) (perf_now : Q)
    (s s' : Game) :
  startNew M fuel date_now perf_now s = Ok s' ->
  length (keyPos s') = 3%nat /\
  NoDup (keyPos s') /\
  (forall k, k ∈ keyPos s' -> far_from (player s') k 8) /\
  exists e, exitPos s' = Some e /\ far_from (player s') e 10 /\ e ∉ keyPos s'.
Proof.
  unfold startNew. intros H.
  bind_inv H as s1 E1. bind_inv H as s2 E2. bind_inv H as s3 E3.
  bind_inv H as s4 E4. bind_inv H as s5 E5. inversion H; subst s'. clear H.
  apply place_keys_spec in E3;
    [|repeat split; simpl; [apply NoDup_nil_2 | lia | intros k Hk; inversion Hk]].
  destruct E3 as ((Hnd & _ & Hfar) & Hlen & Hp3 & _).
  apply place_exit_spec in E4. destruct E4 as ((e & He & Hfe & Hne) & Hp4 & Hk4 & _).
  apply place_enemy_frame in E5. destruct E5 as (Hp5 & Hk5 & He5 & _).
  unfold start_ui. simpl. rewrite Hp5, Hk5, He5, Hp4, Hk4.
  repeat split; auto. exists e. auto.
Qed.

Lemma startNew_distances_witness :
  exists s', startNew mathQ 50 1234567 0 (new_Game ui0) = Ok s' /\
    length (keyPos s') = 3%nat /\
    NoDup (keyPos s') /\
    (forall k, k ∈ keyPos s' -> far_from (player s') k 8) /\
    exists e, exitPos s' = Some e /\ far_from (player s') e 10 /\ e ∉ keyPos s'.
Proof.
  destruct (startNew mathQ 50 1234567 0 (new_Game ui0)) as [s'| |] eqn:H;
    [|vm_compute in H; discriminate..].
  exists s'. split; [reflexivity|].
  exact (startNew_distances mathQ 50 1234567 0 (new_Game ui0) s' H).
Defined.

(** ** Bounded and unbounded placement loops *)

(** [findRandomFloor]'s loop with [n] tries left makes [k <= n] tries of two
    draws each, and returns a floor cell it drew or, after all [n] tries, the
    cell [(1, 1)]. *)
Lemma findRandomFloor_loop_spec (n : nat) (g : Grid) (w h t : Z) :
  (2 <= length g)%nat -> h = Z.of_nat (length g) ->
  exists (p : Pt) (k : nat),
    findRandomFloor_loop n g w h t = Ok (p, after_draws t (2 * Z.of_nat k)) /\
    (k <= n)%nat /\
    (((1 <= k)%nat /\ is_floor g p) \/ (k = n /\ p = mkPt 1 1)) /\
    ((3 <= w)%Z -> (3 <= h)%Z -> (1 <= pt_x p <= w - 2)%Z /\ (1 <= pt_y p <= h - 2)%Z).
Proof.
  intros Hrows ->. revert t. induction n as [|n IH]; intros t.
  - exists (mkPt 1 1), 0%nat.
    replace (after_draws t (2 * Z.of_nat 0)) with t by reflexivity.
    repeat split; auto; simpl; lia.
  - cbn [findRandomFloor_loop]. unfold rng_next.
    set (t1 := JS.add t 1831565813). set (t2 := JS.add t1 1831565813).
    destruct (rng_out_range t1) as [Hx0 Hx1]. destruct (rng_out_range t2) as [Hy0 Hy1].
    specialize (IH t2).
    assert (Ht2 : forall k, after_draws t2 (2 * Z.of_nat k) = after_draws t (2 * Z.of_nat (S k))).
    { intros k. subst t2 t1. apply after_draws_two. }
    generalize dependent (rng_out t1). generalize dependent (rng_out t2).
    intros r2 Hy0 Hy1 r1 Hx0 Hx1.
    set (x := (1 + floor_mul r1 (w - 2))%Z).
    set (y := (1 + floor_mul r2 (Z.of_nat (length g) - 2))%Z).
    assert (Hy : (1 <= y <= Z.of_nat (length g) - 1)%Z).
    { subst y. pose proof (floor_mul_nonneg _ (Z.of_nat (length g) - 2) Hy0 ltac:(lia)).
      pose proof (floor_mul_le _ (Z.of_nat (length g) - 2) Hy1 ltac:(lia)). lia. }
    assert (Hrange : (3 <= w)%Z -> (3 <= Z.of_nat (length g))%Z ->
                     (1 <= x <= w - 2)%Z /\ (1 <= y <= Z.of_nat (length g) - 2)%Z).
    { intros Hw Hh. subst x y.
      pose proof (floor_mul_lt _ (w - 2) Hx0 Hx1 ltac:(lia)).
      pose proof (floor_mul_lt _ (Z.of_nat (length g) - 2) Hy0 Hy1 ltac:(lia)). lia. }
    clearbody x y. clear Hx0 Hx1 Hy0 Hy1.
    unfold grid_read at 1.
    destruct (index_Some g y ltac:(lia)) as [row Hrow]. rewrite Hrow. cbn [deref bind].
    destruct (is_val (index row x) 0) eqn:Hv.
    + exists (mkPt x y), 1%nat. rewrite <- (Ht2 0%nat).
      replace (after_draws t2 (2 * Z.of_nat 0)) with t2 by reflexivity.
      split; [reflexivity|]. split; [lia|]. split; [|exact Hrange].
      left. split; [lia|]. unfold is_floor, grid_read. cbn [pt_x pt_y]. rewrite Hrow.
      cbn [deref bind].
      unfold is_val in Hv. apply bool_decide_eq_true in Hv. rewrite Hv. reflexivity.
    + destruct IH as (p & k & Hr & Hk & Hcase & Hrange').
      exists p, (S k). rewrite Hr, Ht2.
      split; [reflexivity|]. split; [lia|]. split; [|exact Hrange'].
      destruct Hcase as [[Hk1 Hf] | [-> ->]]; [left; split; [lia | exact Hf] | right; auto].
Qed.

Lemma findRandomFloor_spec (g : Grid) (t : Z) :
  (2 <= length g)%nat ->
  exists (p : Pt) (k : nat),
    findRandomFloor g t = Ok (p, after_draws t (2 * Z.of_nat k)) /\
    (Z.of_nat k <= 10000)%Z /\
    (((1 <= k)%nat /\ is_floor g p) \/ (Z.of_nat k = 10000%Z /\ p = mkPt 1 1)) /\
    ((3 <= grid_width g)%Z -> (3 <= grid_height g)%Z ->
       (1 <= pt_x p <= grid_width g - 2)%Z /\ (1 <= pt_y p <= grid_height g - 2)%Z).
Proof.
  intros Hrows. unfold findRandomFloor.
  rewrite row0_length_width by (unfold grid_height; lia). cbn [bind].
  destruct (findRandomFloor_loop_spec (Z.to_nat 10000) g (grid_width g)
              (Z.of_nat (length g)) t Hrows eq_refl) as (p & k & Hr & Hk & Hcase & Hrange).
  exists p, k. split; [exact Hr|]. split; [lia|]. split; [|exact Hrange].
  destruct Hcase as [Hf | [-> ->]]; [left; exact Hf | right; split; [lia | reflexivity]].
Qed.

Lemma place_enemy_loop_bounded (n : nat) (s : Game) :
  (2 <= length (grid s))%nat ->
  exists (en : option Pt) (s' : Game) (k : nat),
    place_enemy_loop n s = Ok (en, s') /\
    R s' = after_draws (R s) (2 * Z.of_nat k) /\
    (Z.of_nat k <= Z.of_nat n * 10000)%Z /\ grid s' = grid s.
Proof.
  revert s. induction n as [|n IH]; intros s Hrows.
  - exists None, s, 0%nat. simpl. repeat split; try reflexivity; lia.
  - cbn [place_enemy_loop].
    destruct (findRandomFloor_spec (grid s) (R s) Hrows) as (p & k & -> & Hk & _).
    cbn [bind]. destruct (_ || _).
    + destruct (IH (set_R (after_draws (R s) (2 * Z.of_nat k)) s) Hrows)
        as (en & s' & k' & -> & HR & Hk' & Hg).
      exists en, s', (k + k')%nat. split; [reflexivity|].
      simpl in HR, Hg. rewrite HR. repeat split; [rewrite after_draws_add by lia; f_equal; lia | lia | exact Hg].
    + exists (Some p), (set_R (after_draws (R s) (2 * Z.of_nat k)) s), k.
      simpl. repeat split. lia.
Qed.

Lemma enemy_cell_bounded (s : Game) :
  (2 <= length (grid s))%nat ->
  exists (c : Pt) (s' : Game) (k : nat),
    enemy_cell s = Ok (c, s') /\
    R s' = after_draws (R s) (2 * Z.of_nat k) /\
    (Z.of_nat k <= 8001 * 10000)%Z /\ grid s' = grid s.
Proof.
  intros Hrows. unfold enemy_cell.
  destruct (place_enemy_loop_bounded (Z.to_nat 8000) s Hrows) as (en & s1 & k & -> & HR & Hk & Hg).
  cbn [bind]. destruct en as [c|].
  - exists c, s1, k. repeat split; [exact HR | lia | exact Hg].
  - destruct (findRandomFloor_spec (grid s1) (R s1) ltac:(rewrite Hg; exact Hrows))
      as (p & k' & -> & Hk' & _).
    cbn [bind]. exists p, (set_R (after_draws (R s1) (2 * Z.of_nat k')) s1), (k + k')%nat.
    simpl. rewrite HR. repeat split; [rewrite after_draws_add by lia; f_equal; lia | lia | exact Hg].
Qed.

(** Every attempt of the key loop returns: the loop ends with the keys
    placed, or it is still drawing when the bound is reached. *)
Lemma place_keys_attempts (fuel : nat) (s : Game) :
  (2 <= length (grid s))%nat ->
  place_keys fuel s = Timeout \/ exists s', place_keys fuel s = Ok s'.
Proof.
  revert s. induction fuel as [|fuel IH]; intros s Hrows; simpl.
  - destruct (_ <? _)%nat; eauto.
  - destruct (_ <? _)%nat; [|eauto].
    destruct (findRandomFloor_spec (grid s) (R s) Hrows) as (p & k & -> & _).
    cbn [bind]. destruct (norm_ltb _ _); [apply IH; exact Hrows|].
    destruct (on_key _ _); apply IH; exact Hrows.
Qed.

Lemma place_exit_attempts (fuel : nat) (s : Game) :
  (2 <= length (grid s))%nat ->
  place_exit fuel s = Timeout \/ exists s', place_exit fuel s = Ok s'.
Proof.
  revert s. induction fuel as [|fuel IH]; intros s Hrows; simpl; [eauto|].
  destruct (findRandomFloor_spec (grid s) (R s) Hrows) as (p & k & -> & _).
  cbn [bind]. destruct (norm_ltb _ _); [apply IH; exact Hrows|].
  destruct (on_key _ _); [apply IH; exact Hrows | eauto].
Qed.

(** C4 (amended).  On every grid with at least two rows, [findRandomFloor]
    returns after at most 10000 tries (two draws each) with a floor cell it
    drew or, once the 10000 tries are spent, with the cell [(1, 1)]; the
    player is placed by one such call; the enemy cell is found after at most
    8000 attempts plus one fallback call, so after at most 8001 * 10000 tries.
    The key loop and the exit loop have no attempt bound and no fallback:
    each of their attempts returns, and they end only when a candidate passes
    the distance and distinctness tests. *)
Theorem placement_bounds (M : MathLib) (s : Game) :
  (2 <= length (grid s))%nat ->
  (exists (p : Pt) (k : nat),
     findRandomFloor (grid s) (R s) = Ok (p, after_draws (R s) (2 * Z.of_nat k)) /\
     (Z.of_nat k <= 10000)%Z /\
     (((1 <= k)%nat /\ is_floor (grid s) p) \/ (Z.of_nat k = 10000%Z /\ p = mkPt 1 1))) /\
  (exists s', place_player M s = Ok s') /\
  (exists (c : Pt) (s' : Game) (k : nat),
     enemy_cell s = Ok (c, s') /\ R s' = after_draws (R s) (2 * Z.of_nat k) /\
     (Z.of_nat k <= 8001 * 10000)%Z) /\
  (exists s', place_enemy M s = Ok s') /\
  (forall fuel, place_keys fuel s = Timeout \/ exists s', place_keys fuel s = Ok s') /\
  (forall fuel, place_exit fuel s = Timeout \/ exists s', place_exit fuel s = Ok s').
Proof.
  intros Hrows. split; [|split; [|split; [|split; [|split]]]].
  - destruct (findRandomFloor_spec (grid s) (R s) Hrows) as (p & k & H & Hk & Hcase & _).
    exists p, k. auto.
  - unfold place_player.
    destruct (findRandomFloor_spec (grid s) (R s) Hrows) as (p & k & -> & _).
    cbn [bind]. unfold rng_next. eauto.
  - destruct (enemy_cell_bounded s Hrows) as (c & s' & k & H & HR & Hk & _).
    exists c, s', k. auto.
  - unfold place_enemy.
    destruct (enemy_cell_bounded s Hrows) as (c & s' & k & -> & _).
    cbn [bind]. unfold rng_next. eauto.
  - intros fuel. apply place_keys_attempts. exact Hrows.
  - intros fuel. apply place_exit_attempts. exact Hrows.
Qed.

Lemma placement_bounds_witness :
  (exists s', place_player mathQ (at_exit 0) = Ok s') /\
  (exists s', place_enemy mathQ (at_exit 0) = Ok s').
Proof.
  destruct (placement_bounds mathQ (at_exit 0)) as (_ & Hp & _ & He & _).
  - vm_compute. lia.
  - split; [exact Hp | exact He].
Defined.

(** On a 5 by 5 map every floor cell is nearer than 8 to the player, so no
    key is ever accepted. *)
Lemma place_keys_starved (fuel : nat) (s : Game) :
  grid_width (grid s) = 5%Z -> grid_height (grid s) = 5%Z -> keyPos s = [] ->
  (forall x y, (1 <= x <= 3)%Z -> (1 <= y <= 3)%Z ->
     norm_ltb (dist (center (mkPt x y)) (player_pos (player s))) 8 = true) ->
  place_keys fuel s = Timeout.
Proof.
  revert s. induction fuel as [|fuel IH]; intros s Hw Hh Hkeys Hnear; simpl; rewrite Hkeys.
  - reflexivity.
  - simpl.
    destruct (findRandomFloor_spec (grid s) (R s)) as (p & k & -> & _ & _ & Hrange).
    { unfold grid_height in Hh. lia. }
    cbn [bind]. destruct p as [x y]. cbn [pt_x pt_y] in Hrange.
    rewrite Hw, Hh in Hrange. destruct (Hrange ltac:(lia) ltac:(lia)) as [Hx Hy].
    rewrite Hnear by lia.
    apply IH; auto.
Qed.

(** C4, the claim as first stated, fails: started on a 5 by 5 map with the
    seed 7, [startNew] is still in its key loop at every bound on the number
    of iterations. *)
Lemma startNew_key_loop_diverges :
  forall fuel, startNew mathQ fuel 7 0 tiny_session = Timeout.
Proof.
  intros fuel. unfold startNew.
  destruct (start_maze 7 tiny_session) as [s1| |] eqn:E1; [|vm_compute in E1; discriminate..].
  vm_compute in E1. injection E1 as <-. cbn [bind].
  match goal with |- context [place_player mathQ ?s] =>
    destruct (place_player mathQ s) as [s2| |] eqn:E2; [|vm_compute in E2; discriminate..] end.
  vm_compute in E2. injection E2 as <-. cbn [bind].
  rewrite place_keys_starved; [reflexivity | reflexivity | reflexivity | reflexivity |].
  intros x y Hx Hy.
  assert (Hxs : x = 1%Z \/ x = 2%Z \/ x = 3%Z) by lia.
  assert (Hys : y = 1%Z \/ y = 2%Z \/ y = 3%Z) by lia.
  destruct Hxs as [->|[->| ->]], Hys as [->|[->| ->]]; vm_compute; reflexivity.
Qed.

(** ** Grid reads and writes *)

Lemma index_lookup {A} (l : list A) (i : Z) (a : A) :
  index l i = Some a <-> (0 <= i)%Z /\ l !! Z.to_nat i = Some a.
Proof.
  unfold index. destruct (Z.leb_spec 0 i); split; try tauto; try discriminate.
  - intros [? _]. lia.
Qed.

Lemma rect_row (w h : Z) (g : Grid) (y : Z) (row : list Z) :
  rect w h g -> index g y = Some row -> Z.of_nat (length row) = w /\ (0 <= y < h)%Z.
Proof.
  intros [Hh Hw] Hrow. apply index_lookup in Hrow. destruct Hrow as [Hy Hrow].
  split.
  - rewrite Forall_lookup in Hw. exact (Hw _ _ Hrow).
  - apply lookup_lt_Some in Hrow. lia.
Qed.

Lemma cell_of_bounds (w h : Z) (g : Grid) (x y v : Z) :
  rect w h g -> cell_of g x y = Some v -> (0 <= x < w)%Z /\ (0 <= y < h)%Z.
Proof.
  intros Hr H. unfold cell_of in H. destruct (index g y) as [row|] eqn:Hrow; [|discriminate].
  destruct (rect_row w h g y row Hr Hrow) as [Hw Hy]. split; [|exact Hy].
  apply index_lookup in H. destruct H as [Hx H]. apply lookup_lt_Some in H. lia.
Qed.

Lemma cell_of_inside (w h : Z) (g : Grid) (x y : Z) :
  rect w h g -> (0 <= x < w)%Z -> (0 <= y < h)%Z -> exists v, cell_of g x y = Some v.
Proof.
  intros Hr Hx Hy. unfold cell_of.
  destruct (index_Some g y) as [row Hrow]; [destruct Hr; lia|]. rewrite Hrow.
  destruct (rect_row w h g y row Hr Hrow) as [Hw _].
  apply index_Some. lia.
Qed.

Lemma grid_read_cell (w h : Z) (g : Grid) (x y : Z) :
  rect w h g -> (0 <= y < h)%Z -> grid_read g x y = Ok (cell_of g x y).
Proof.
  intros Hr Hy. unfold grid_read, cell_of.
  destruct (index_Some g y) as [row ->]; [destruct Hr; lia|]. reflexivity.
Qed.

Lemma grid_read_Ok_cell (g : Grid) (x y : Z) (v : option Z) :
  grid_read g x y = Ok v -> cell_of g x y = v.
Proof.
  unfold grid_read, cell_of. destruct (index g y); simpl; [|discriminate]. congruence.
Qed.

Lemma sum_list_with_insert {A} (f : A -> nat) (l : list A) (i : nat) (a b : A) :
  l !! i = Some a ->
  (sum_list_with f (<[i:=b]> l) + f a = sum_list_with f l + f b)%nat.
Proof.
  revert i. induction l as [|c l IH]; intros i H; [discriminate|].
  destruct i as [|i]; simpl in *.
  - injection H as ->. lia.
  - specialize (IH i H). lia.
Qed.

(** A write inside the grid returns; it changes the cell written and no
    other, keeps the shape, and trades the old wall bit for the new one. *)
Lemma grid_write_spec (w h : Z) (g : Grid) (x y v : Z) :
  rect w h g -> (0 <= x < w)%Z -> (0 <= y < h)%Z ->
  exists g' old,
    grid_write g x y v = Ok g' /\ rect w h g' /\ cell_of g x y = Some old /\
    (forall x' y', cell_of g' x' y' =
                   if decide (x' = x /\ y' = y) then Some v else cell_of g x' y') /\
    (count_walls g' + wallbit old = count_walls g + wallbit v)%nat.
Proof.
  intros Hr Hx Hy. unfold grid_write, Grid in *.
  destruct (index_Some g y) as [row Hrow]; [destruct Hr; lia|].
  destruct (rect_row w h g y row Hr Hrow) as [Hw _].
  destruct (index_Some row x) as [old Hold]; [lia|].
  rewrite Hrow. cbn [deref bind]. rewrite Hold. cbn [deref bind].
  apply index_lookup in Hrow. destruct Hrow as [_ Hrow].
  apply index_lookup in Hold. destruct Hold as [_ Hold].
  eexists. exists old. split; [reflexivity|]. split; [|split; [|split]].
  - destruct Hr as [Hh Hall]. split; [rewrite length_insert; exact Hh|].
    apply Forall_insert; [exact Hall|]. cbv beta. rewrite length_insert. exact Hw.
  - unfold cell_of, index. destruct (Z.leb_spec 0 y); [|lia]. rewrite Hrow.
    destruct (Z.leb_spec 0 x); [|lia]. exact Hold.
  - intros x' y'. unfold cell_of, index.
    destruct (Z.leb_spec 0 y') as [Hy'|Hy'].
    + destruct (decide (y' = y)) as [->|Hne].
      * rewrite list_lookup_insert_eq by (apply lookup_lt_Some in Hrow; exact Hrow).
        rewrite Hrow. destruct (Z.leb_spec 0 x') as [Hx'|Hx'].
        -- destruct (decide (x' = x)) as [->|Hnx].
           ++ rewrite list_lookup_insert_eq by (apply lookup_lt_Some in Hold; exact Hold).
              rewrite decide_True by auto. reflexivity.
           ++ rewrite list_lookup_insert_ne by lia.
              rewrite decide_False by (intros [? _]; contradiction). reflexivity.
        -- rewrite decide_False by (intros [? _]; lia). reflexivity.
      * rewrite list_lookup_insert_ne by lia.
        rewrite decide_False by (intros [_ ?]; contradiction). reflexivity.
    + rewrite decide_False by (intros [_ ?]; lia). reflexivity.
  - unfold count_walls.
    pose proof (sum_list_with_insert (sum_list_with wallbit) g (Z.to_nat y) row
                  (<[Z.to_nat x:=v]> row) Hrow) as Houter.
    pose proof (sum_list_with_insert wallbit row (Z.to_nat x) old v Hold) as Hinner.
    lia.
Qed.

Lemma count_walls_le (w h : Z) (g : Grid) :
  rect w h g -> (Z.of_nat (count_walls g) <= w * h)%Z.
Proof.
  intros [Hh Hall]. subst h. unfold count_walls.
  induction Hall as [|row g Hrow Hall IH]; simpl; [lia|].
  assert (Hb : (sum_list_with wallbit row <= length row)%nat).
  { clear. induction row as [|c row IH]; simpl; [lia|]. unfold wallbit at 1.
    destruct (c =? 1)%Z; lia. }
  lia.
Qed.

Lemma new_grid_rect (w h : Z) : (0 <= w)%Z -> (0 <= h)%Z -> rect w h (new_grid w h).
Proof.
  intros Hw Hh. unfold rect, new_grid. rewrite length_replicate. split; [lia|].
  apply Forall_replicate. rewrite length_replicate. lia.
Qed.

Lemma new_grid_cell (w h x y v : Z) :
  cell_of (new_grid w h) x y = Some v -> v = 1%Z.
Proof.
  unfold cell_of, new_grid. intros H.
  destruct (index _ y) as [row|] eqn:Hrow; [|discriminate].
  apply index_lookup in Hrow. destruct Hrow as [_ Hrow].
  apply lookup_replicate in Hrow. destruct Hrow as [-> _].
  apply index_lookup in H. destruct H as [_ H].
  apply lookup_replicate in H. destruct H as [-> _]. reflexivity.
Qed.

(** ** Walking through floor cells *)

Lemma adjacent_sym (a b : Pt) : adjacent a b -> adjacent b a.
Proof. unfold adjacent. intros [[? ?]|[? ?]]; [left | right]; split; lia. Qed.

Lemma connected_floor_l (g : Grid) (a b : Pt) : connected g a b -> floor_cell g a.
Proof. induction 1; assumption. Qed.

Lemma connected_floor_r (g : Grid) (a b : Pt) : connected g a b -> floor_cell g b.
Proof. induction 1; assumption. Qed.

Lemma connected_trans (g : Grid) (a b c : Pt) :
  connected g a b -> connected g b c -> connected g a c.
Proof.
  intros Hab Hbc. induction Hbc as [|c d Hbc IH Hadj Hd]; [exact Hab|].
  apply (connected_step g a c d); assumption.
Qed.

Lemma connected_sym (g : Grid) (a b : Pt) : connected g a b -> connected g b a.
Proof.
  induction 1 as [Ha|b c Hab IH Hadj Hc]; [apply connected_here; exact Ha|].
  apply connected_trans with b; [|exact IH].
  apply (connected_step g c c b); [apply connected_here; exact Hc | |].
  - apply adjacent_sym. exact Hadj.
  - apply (connected_floor_r g a b Hab).
Qed.

(** Carving more cells keeps every walk. *)
Lemma connected_mono (g g' : Grid) (a b : Pt) :
  (forall c, floor_cell g c -> floor_cell g' c) -> connected g a b -> connected g' a b.
Proof.
  intros Hsub. induction 1 as [Ha|b c Hab IH Hadj Hc].
  - apply connected_here. apply Hsub. exact Ha.
  - apply (connected_step g' a b c); [exact IH | exact Hadj | apply Hsub; exact Hc].
Qed.

(** ** The candidates of one carving step *)

Lemma interior_guard (w h : Z) (nx ny : Z) :
  (nx <=? 0)%Z || (ny <=? 0)%Z || (nx >=? w - 1)%Z || (ny >=? h - 1)%Z = false <->
  interior w h (mkPt nx ny).
Proof.
  unfold interior. simpl. rewrite !orb_false_iff.
  destruct (Z.leb_spec nx 0), (Z.leb_spec ny 0), (Z.geb_spec nx (w - 1)),
    (Z.geb_spec ny (h - 1)); split; intros; try lia; intuition discriminate.
Qed.

Lemma collect_spec (w h : Z) (g : Grid) (cur : Pt) (ds : list Pt) :
  rect w h g ->
  exists cands,
    collect w h g cur ds = Ok cands /\
    (forall c, c ∈ cands ->
       exists d, d ∈ ds /\
         c = mkCand (pt_x cur + pt_x d) (pt_y cur + pt_y d)
                    (pt_x cur + pt_x d / 2) (pt_y cur + pt_y d / 2) /\
         interior w h (shift cur d) /\
         cell_of g (pt_x cur + pt_x d) (pt_y cur + pt_y d) = Some 1%Z) /\
    (cands = [] ->
       forall d, d ∈ ds -> interior w h (shift cur d) ->
         cell_of g (pt_x cur + pt_x d) (pt_y cur + pt_y d) <> Some 1%Z).
Proof.
  intros Hr. induction ds as [|d ds IH].
  - exists []. split; [reflexivity|]. split.
    + intros c Hc. inversion Hc.
    + intros _ d Hd. inversion Hd.
  - destruct IH as (rest & Hrest & Hin & Hnil). cbn [collect].
    destruct (_ || _) eqn:Hguard.
    + exists rest. split; [exact Hrest|]. split.
      * intros c Hc. destruct (Hin c Hc) as (d' & Hd' & Hrest').
        exists d'. split; [right; exact Hd' | exact Hrest'].
      * intros Hempty d' Hd' Hint. apply elem_of_cons in Hd'. destruct Hd' as [->|Hd'].
        -- apply interior_guard in Hint. unfold shift in Hint. cbn [pt_x pt_y] in Hint.
           congruence.
        -- apply Hnil; assumption.
    + apply interior_guard in Hguard.
      rewrite (grid_read_cell w h) by (auto; destruct Hguard as [_ Hy]; simpl in Hy; lia).
      cbn [bind]. rewrite Hrest. cbn [bind].
      destruct (is_val _ 1) eqn:Hv.
      * eexists. split; [reflexivity|]. split.
        -- intros c Hc. apply elem_of_cons in Hc. destruct Hc as [->|Hc].
           ++ exists d. split; [left|]. split; [reflexivity|]. split; [exact Hguard|].
              unfold is_val in Hv. apply bool_decide_eq_true in Hv. exact Hv.
           ++ destruct (Hin c Hc) as (d' & Hd' & Hrest').
              exists d'. split; [right; exact Hd' | exact Hrest'].
        -- discriminate.
      * exists rest. split; [reflexivity|]. split.
        -- intros c Hc. destruct (Hin c Hc) as (d' & Hd' & Hrest').
           exists d'. split; [right; exact Hd' | exact Hrest'].
        -- intros Hempty d' Hd' Hint. apply elem_of_cons in Hd'. destruct Hd' as [->|Hd'].
           ++ unfold is_val in Hv. apply bool_decide_eq_false in Hv. exact Hv.
           ++ apply Hnil; assumption.
Qed.

(** ** One carving step *)

Lemma dirs_cases (d : Pt) :
  d ∈ dirs ->
  d = mkPt 0 (-2) \/ d = mkPt 0 2 \/ d = mkPt (-2) 0 \/ d = mkPt 2 0.
Proof.
  unfold dirs. intros H. repeat (apply elem_of_cons in H; destruct H as [H|H]; [auto|]).
  inversion H.
Qed.

Lemma pt_eq (a b : Pt) : pt_x a = pt_x b -> pt_y a = pt_y b -> a = b.
Proof. destruct a, b. simpl. congruence. Qed.

(** Carving towards the wall anchor [shift cur d]: both writes return, the
    invariant holds with the new anchor pushed, and a wall is gone. *)
Lemma carve_push (w h : Z) (g : Grid) (cur : Pt) (below : list Pt) (d : Pt) :
  carve_inv w h g (cur :: below) -> d ∈ dirs -> interior w h (shift cur d) ->
  cell_of g (pt_x cur + pt_x d) (pt_y cur + pt_y d) = Some 1%Z ->
  exists g1 g2,
    grid_write g (pt_x cur + pt_x d / 2) (pt_y cur + pt_y d / 2) 0 = Ok g1 /\
    grid_write g1 (pt_x cur + pt_x d) (pt_y cur + pt_y d) 0 = Ok g2 /\
    carve_inv w h g2 (shift cur d :: cur :: below) /\
    (count_walls g2 + 1 <= count_walls g)%nat.
Proof.
  intros Hinv Hd Hn Hwall.
  destruct Hinv as [Hrect Hbin Hint Hstart Hconn Hstack Hclosed].
  destruct (Hstack cur ltac:(left)) as [Hcurf [Hox Hoy]].
  pose proof (Hint cur Hcurf) as Hcuri.
  set (mx := (pt_x cur + pt_x d / 2)%Z). set (my := (pt_y cur + pt_y d / 2)%Z).
  set (nx := (pt_x cur + pt_x d)%Z) in *. set (ny := (pt_y cur + pt_y d)%Z) in *.
  assert (Hgeo : (0 < mx < w - 1 /\ 0 < my < h - 1)%Z /\
                 adjacent cur (mkPt mx my) /\ adjacent (mkPt mx my) (mkPt nx ny) /\
                 ~ (nx = mx /\ ny = my) /\
                 (Z.odd nx = true /\ Z.odd ny = true) /\
                 (Z.odd mx = false \/ Z.odd my = false)).
  { unfold interior, shift in Hn, Hcuri. cbn [pt_x pt_y] in Hn. fold nx ny in Hn.
    unfold adjacent. cbn [pt_x pt_y]. subst mx my nx ny.
    destruct (dirs_cases d Hd) as [->|[->|[->| ->]]]; cbn [pt_x pt_y] in *;
      change (0 / 2)%Z with 0%Z; change (-2 / 2)%Z with (-1)%Z; change (2 / 2)%Z with 1%Z;
      rewrite !Z.odd_add, Hox, Hoy; cbn [Z.odd xorb negb Pos.pred_double];
      (split; [lia|]); (split; [lia|]); (split; [lia|]); (split; [lia|]);
      (split; [split; reflexivity|]); auto. }
  destruct Hgeo as (Hmi & Hadj1 & Hadj2 & Hne & Hnodd & Hmeven).
  assert (Hni : (0 <= nx < w)%Z /\ (0 <= ny < h)%Z).
  { unfold interior, shift in Hn. cbn [pt_x pt_y] in Hn. fold nx ny in Hn. lia. }
  destruct (grid_write_spec w h g mx my 0 Hrect ltac:(lia) ltac:(lia))
    as (g1 & old1 & Hw1 & Hrect1 & Hold1 & Hcell1 & Hcount1).
  destruct (grid_write_spec w h g1 nx ny 0 Hrect1 ltac:(lia) ltac:(lia))
    as (g2 & old2 & Hw2 & Hrect2 & Hold2 & Hcell2 & Hcount2).
  exists g1, g2. split; [exact Hw1|]. split; [exact Hw2|].
  assert (Hcell : forall x y, cell_of g2 x y =
            if decide (x = nx /\ y = ny) then Some 0%Z
            else if decide (x = mx /\ y = my) then Some 0%Z else cell_of g x y).
  { intros x y. rewrite Hcell2, Hcell1. reflexivity. }
  assert (Hmono : forall c, floor_cell g c -> floor_cell g2 c).
  { intros c Hc. unfold floor_cell in *. rewrite Hcell. repeat case_decide; auto. }
  assert (Hnew : forall c, floor_cell g2 c ->
            c = mkPt nx ny \/ c = mkPt mx my \/ floor_cell g c).
  { intros c Hc. unfold floor_cell in *. rewrite Hcell in Hc.
    repeat case_decide; [left | right; left | right; right; exact Hc];
      apply pt_eq; simpl; tauto. }
  assert (Hfm : floor_cell g2 (mkPt mx my)).
  { unfold floor_cell. cbn [pt_x pt_y]. rewrite Hcell. repeat case_decide; tauto. }
  assert (Hfn : floor_cell g2 (mkPt nx ny)).
  { unfold floor_cell. cbn [pt_x pt_y]. rewrite Hcell. rewrite decide_True by auto. reflexivity. }
  assert (Hcm : connected g2 (mkPt 1 1) (mkPt mx my)).
  { apply (connected_step g2 _ cur); [|exact Hadj1|exact Hfm].
    apply (connected_mono g); [exact Hmono | apply Hconn; exact Hcurf]. }
  split.
  - constructor.
    + exact Hrect2.
    + intros x y v Hv. rewrite Hcell in Hv. repeat case_decide; [left; congruence..|].
      apply (Hbin x y v Hv).
    + intros c Hc. destruct (Hnew c Hc) as [->|[->|Hold]]; [exact Hn| |apply Hint; exact Hold].
      unfold interior. cbn [pt_x pt_y]. exact Hmi.
    + apply Hmono. exact Hstart.
    + intros c Hc. destruct (Hnew c Hc) as [->|[->|Hold]].
      * apply (connected_step g2 _ (mkPt mx my)); [exact Hcm | exact Hadj2 | exact Hfn].
      * exact Hcm.
      * apply (connected_mono g); [exact Hmono | apply Hconn; exact Hold].
    + intros c Hc. apply elem_of_cons in Hc. destruct Hc as [->|Hc].
      * split; [exact Hfn | exact Hnodd].
      * destruct (Hstack c Hc) as [Hf Ha]. split; [apply Hmono; exact Hf | exact Ha].
    + intros c Hc [Hax Hay]. destruct (Hnew c Hc) as [->|[->|Hold]].
      * left. left.
      * cbn [pt_x pt_y] in Hax, Hay. destruct Hmeven; congruence.
      * destruct (Hclosed c Hold (conj Hax Hay)) as [Hin|Hcl]; [left; right; exact Hin|].
        right. intros d' Hd' Hi'. apply Hmono. apply Hcl; assumption.
  - assert (Hold2' : old2 = 1%Z).
    { rewrite Hcell1 in Hold2. rewrite decide_False in Hold2 by exact Hne. congruence. }
    subst old2. unfold wallbit in Hcount1, Hcount2. simpl in Hcount2.
    destruct (old1 =? 1)%Z; simpl in Hcount1; lia.
Qed.

(** Backtracking: nothing is left to carve around [cur]. *)
Lemma carve_pop (w h : Z) (g : Grid) (cur : Pt) (below : list Pt) :
  carve_inv w h g (cur :: below) ->
  (forall d, d ∈ dirs -> interior w h (shift cur d) ->
     cell_of g (pt_x cur + pt_x d) (pt_y cur + pt_y d) <> Some 1%Z) ->
  carve_inv w h g below.
Proof.
  intros [Hrect Hbin Hint Hstart Hconn Hstack Hclosed] Hnone.
  constructor; auto.
  - intros c Hc. apply Hstack. right. exact Hc.
  - intros c Hc Ha. destruct (Hclosed c Hc Ha) as [Hin|Hcl]; [|right; exact Hcl].
    apply elem_of_cons in Hin. destruct Hin as [->|Hin]; [|left; exact Hin].
    right. intros d Hd Hi. specialize (Hnone d Hd Hi).
    unfold floor_cell, shift. cbn [pt_x pt_y].
    destruct Hi as [Hix Hiy]. unfold shift in Hix, Hiy. cbn [pt_x pt_y] in Hix, Hiy.
    destruct (cell_of_inside w h g (pt_x cur + pt_x d) (pt_y cur + pt_y d) Hrect
                ltac:(lia) ltac:(lia)) as [v Hv].
    destruct (Hbin _ _ _ Hv) as [->| ->]; [exact Hv | contradiction].
Qed.

(** ** The carving loop *)

(** The loop returns before its bound is reached, with an empty stack: every
    iteration pops the stack or carves a wall. *)
Lemma carve_spec (fuel : nat) (w h : Z) (g : Grid) (stack : list Pt) (t : Z) :
  carve_inv w h g stack ->
  (2 * count_walls g + length stack <= fuel)%nat ->
  exists g' t', carve fuel w h g stack t = Ok (g', t') /\ carve_inv w h g' [].
Proof.
  revert g stack t. induction fuel as [|fuel IH]; intros g stack t Hinv Hfuel.
  - destruct stack as [|cur below]; [|simpl in Hfuel; lia].
    exists g, t. split; [reflexivity | exact Hinv].
  - destruct stack as [|cur below].
    { exists g, t. split; [reflexivity | exact Hinv]. }
    cbn [carve].
    destruct (collect_spec w h g cur dirs (ci_rect _ _ _ _ Hinv))
      as (cands & -> & Hin & Hnil).
    cbn [bind]. destruct cands as [|c0 cands'].
    + apply IH.
      * apply (carve_pop w h g cur below Hinv). apply Hnil. reflexivity.
      * simpl in Hfuel. lia.
    + unfold rng_next. destruct (rng_out_range (JS.add t 1831565813)) as [Hr0 Hr1].
      generalize dependent (rng_out (JS.add t 1831565813)). intros r Hr0 Hr1.
      pose proof (floor_mul_lt r (Z.of_nat (length (c0 :: cands'))) Hr0 Hr1
                    ltac:(simpl; lia)) as Hidx.
      destruct (index_Some (c0 :: cands') _ Hidx) as [pick Hpick].
      rewrite Hpick. cbn [deref bind].
      assert (Hmem : pick ∈ c0 :: cands').
      { apply index_lookup in Hpick. destruct Hpick as [_ Hpick].
        apply list_elem_of_lookup. eauto. }
      destruct (Hin pick Hmem) as (d & Hd & -> & Hint & Hwall).
      cbn [c_nx c_ny c_wx c_wy].
      destruct (carve_push w h g cur below d Hinv Hd Hint Hwall)
        as (g1 & g2 & -> & Hw2 & Hinv2 & Hcount).
      cbn [bind]. rewrite Hw2. cbn [bind].
      apply IH; [exact Hinv2|]. simpl in Hfuel |- *. lia.
Qed.

(** Once the stack is empty every interior anchor has been carved. *)
Lemma carve_inv_anchors (w h : Z) (g : Grid) :
  carve_inv w h g [] -> forall c, anchor c -> interior w h c -> floor_cell g c.
Proof.
  intros Hinv.
  assert (Hcl : forall c, floor_cell g c -> anchor c -> closed w h g c).
  { intros c Hf Ha. destruct (ci_closed _ _ _ _ Hinv c Hf Ha) as [Hin|Hcl]; [|exact Hcl].
    inversion Hin. }
  assert (Hall : forall n : nat, forall i j : Z,
            (0 <= i)%Z -> (0 <= j)%Z -> (i + j = Z.of_nat n)%Z ->
            interior w h (mkPt (2 * i + 1) (2 * j + 1)) ->
            floor_cell g (mkPt (2 * i + 1) (2 * j + 1))).
  { induction n as [|n IHn]; intros i j Hi Hj Hsum Hint.
    - assert (i = 0%Z) by lia. assert (j = 0%Z) by lia. subst i j.
      exact (ci_start _ _ _ _ Hinv).
    - unfold interior in Hint. cbn [pt_x pt_y] in Hint.
      assert (Hodd : forall k, Z.odd (2 * k + 1) = true).
      { intros k. rewrite Z.add_comm, Z.odd_add_mul_2. reflexivity. }
      destruct (Z_lt_le_dec 0 i) as [Hpos|Hzero].
      + assert (Hprev : floor_cell g (mkPt (2 * (i - 1) + 1) (2 * j + 1))).
        { apply IHn; [lia | lia | lia |]. unfold interior. cbn [pt_x pt_y]. lia. }
        pose proof (Hcl _ Hprev (conj (Hodd (i - 1)%Z) (Hodd j)) (mkPt 2 0)
                      ltac:(unfold dirs; repeat (apply elem_of_cons; first [left; reflexivity | right]))) as Hnext.
        unfold shift in Hnext. cbn [pt_x pt_y] in Hnext.
        replace (2 * (i - 1) + 1 + 2)%Z with (2 * i + 1)%Z in Hnext by lia.
        replace (2 * j + 1 + 0)%Z with (2 * j + 1)%Z in Hnext by lia.
        apply Hnext. unfold interior. cbn [pt_x pt_y]. lia.
      + assert (i = 0%Z) by lia. subst i.
        assert (Hprev : floor_cell g (mkPt (2 * 0 + 1) (2 * (j - 1) + 1))).
        { apply IHn; [lia | lia | lia |]. unfold interior. cbn [pt_x pt_y]. lia. }
        pose proof (Hcl _ Hprev (conj (Hodd 0%Z) (Hodd (j - 1)%Z)) (mkPt 0 2)
                      ltac:(unfold dirs; repeat (apply elem_of_cons; first [left; reflexivity | right]))) as Hnext.
        unfold shift in Hnext. cbn [pt_x pt_y] in Hnext.
        replace (2 * (j - 1) + 1 + 2)%Z with (2 * j + 1)%Z in Hnext by lia.
        replace (2 * 0 + 1 + 0)%Z with (2 * 0 + 1)%Z in Hnext by lia.
        apply Hnext. unfold interior. cbn [pt_x pt_y]. lia. }
  intros [x y] [Hx Hy] Hint. cbn [pt_x pt_y] in Hx, Hy.
  unfold interior in Hint. cbn [pt_x pt_y] in Hint.
  rewrite Z.odd_spec in Hx, Hy. destruct Hx as [i ->], Hy as [j ->].
  apply (Hall (Z.to_nat (i + j)) i j); [lia | lia | lia |].
  unfold interior. cbn [pt_x pt_y]. lia.
Qed.

Lemma carve_inv_maze_ok (w h : Z) (g : Grid) : carve_inv w h g [] -> maze_ok w h g.
Proof.
  intros Hinv. constructor.
  - exact (ci_rect _ _ _ _ Hinv).
  - exact (ci_binary _ _ _ _ Hinv).
  - exact (ci_interior _ _ _ _ Hinv).
  - exact (carve_inv_anchors w h g Hinv).
  - exact (ci_conn _ _ _ _ Hinv).
Qed.

(** ** Knocking down walls *)

Lemma knock_spec (w h : Z) (g : Grid) (t : Z) :
  (3 <= w)%Z -> (3 <= h)%Z -> maze_ok w h g ->
  exists g' t', knock w h g t = Ok (g', t') /\ maze_ok w h g'.
Proof.
  intros Hw Hh Hok. destruct Hok as [Hrect Hbin Hint Hanch Hconn].
  unfold knock, rng_next.
  destruct (rng_out_range (JS.add t 1831565813)) as [Ha0 Ha1].
  destruct (rng_out_range (JS.add (JS.add t 1831565813) 1831565813)) as [Hb0 Hb1].
  generalize dependent (rng_out (JS.add (JS.add t 1831565813) 1831565813)).
  generalize dependent (rng_out (JS.add t 1831565813)).
  intros r1 Ha0 Ha1 r2 Hb0 Hb1.
  pose proof (floor_mul_lt r1 (w - 2) Ha0 Ha1 ltac:(lia)) as Hx.
  pose proof (floor_mul_lt r2 (h - 2) Hb0 Hb1 ltac:(lia)) as Hy.
  set (x := (1 + floor_mul r1 (w - 2))%Z) in *.
  set (y := (1 + floor_mul r2 (h - 2))%Z) in *.
  assert (Hxr : (1 <= x <= w - 2)%Z) by (subst x; lia).
  assert (Hyr : (1 <= y <= h - 2)%Z) by (subst y; lia).
  clearbody x y. clear Hx Hy.
  rewrite !(grid_read_cell w h) by (auto; lia). cbn [bind].
  destruct (is_val (cell_of g x y) 1) eqn:Hwall.
  2:{ eexists. eexists. split; [reflexivity|]. constructor; assumption. }
  destruct (_ >=? 2)%Z eqn:Hn.
  2:{ eexists. eexists. split; [reflexivity|]. constructor; assumption. }
  destruct (grid_write_spec w h g x y 0 Hrect ltac:(lia) ltac:(lia))
    as (g' & old & -> & Hrect' & _ & Hcell & _).
  cbn [bind]. eexists. eexists. split; [reflexivity|].
  assert (Hmono : forall c, floor_cell g c -> floor_cell g' c).
  { intros c Hc. unfold floor_cell in *. rewrite Hcell. case_decide; auto. }
  assert (Hnew : forall c, floor_cell g' c -> c = mkPt x y \/ floor_cell g c).
  { intros c Hc. unfold floor_cell in *. rewrite Hcell in Hc.
    case_decide; [left; apply pt_eq; simpl; tauto | right; exact Hc]. }
  assert (Hnb : exists b, adjacent b (mkPt x y) /\ floor_cell g b).
  { assert (Hsome : is_val (cell_of g x (y - 1)) 0 = true \/
                    is_val (cell_of g x (y + 1)) 0 = true \/
                    is_val (cell_of g (x - 1) y) 0 = true \/
                    is_val (cell_of g (x + 1) y) 0 = true).
    { destruct (is_val (cell_of g x (y - 1)) 0); [auto|].
      destruct (is_val (cell_of g x (y + 1)) 0); [auto|].
      destruct (is_val (cell_of g (x - 1) y) 0); [auto|].
      destruct (is_val (cell_of g (x + 1) y) 0); [auto|].
      simpl in Hn. discriminate. }
    unfold is_val in Hsome. rewrite !bool_decide_eq_true in Hsome.
    unfold adjacent, floor_cell.
    destruct Hsome as [H|[H|[H|H]]];
      [exists (mkPt x (y - 1)) | exists (mkPt x (y + 1))
       | exists (mkPt (x - 1) y) | exists (mkPt (x + 1) y)];
      cbn [pt_x pt_y]; (split; [lia | exact H]). }
  constructor.
  - exact Hrect'.
  - intros x' y' v Hv. rewrite Hcell in Hv. case_decide; [left; congruence|].
    apply (Hbin x' y' v Hv).
  - intros c Hc. destruct (Hnew c Hc) as [->|Hold]; [|apply Hint; exact Hold].
    unfold interior. cbn [pt_x pt_y]. lia.
  - intros c Ha Hi. apply Hmono. apply Hanch; assumption.
  - intros c Hc. destruct (Hnew c Hc) as [->|Hold].
    + destruct Hnb as (b & Hadj & Hb).
      apply (connected_step g' _ b); [|exact Hadj|exact Hc].
      apply (connected_mono g); [exact Hmono | apply Hconn; exact Hb].
    + apply (connected_mono g); [exact Hmono | apply Hconn; exact Hold].
Qed.

Lemma knock_loop_spec (n : nat) (w h : Z) (g : Grid) (t : Z) :
  (3 <= w)%Z -> (3 <= h)%Z -> maze_ok w h g ->
  exists g' t', knock_loop n w h g t = Ok (g', t') /\ maze_ok w h g'.
Proof.
  intros Hw Hh. revert g t. induction n as [|n IH]; intros g t Hok.
  - exists g, t. split; [reflexivity | exact Hok].
  - cbn [knock_loop].
    destruct (knock_spec w h g t Hw Hh Hok) as (g1 & t1 & -> & Hok1). cbn [bind].
    apply IH. exact Hok1.
Qed.

(** ** makeMaze *)

Lemma start_carve_inv (w h : Z) :
  (3 <= w)%Z -> (3 <= h)%Z ->
  exists g, grid_write (new_grid w h) 1 1 0 = Ok g /\
            carve_inv w h g [mkPt 1 1] /\
            (2 * count_walls g + 1 <= carve_fuel w h)%nat.
Proof.
  intros Hw Hh.
  pose proof (new_grid_rect w h ltac:(lia) ltac:(lia)) as Hrect0.
  destruct (grid_write_spec w h (new_grid w h) 1 1 0 Hrect0 ltac:(lia) ltac:(lia))
    as (g & old & Hwr & Hrect & Hold & Hcell & Hcount).
  exists g. split; [exact Hwr|].
  assert (Hone : forall c, floor_cell g c -> c = mkPt 1 1).
  { intros c Hc. unfold floor_cell in Hc. rewrite Hcell in Hc.
    case_decide; [apply pt_eq; simpl; tauto|].
    apply new_grid_cell in Hc. discriminate. }
  assert (Hstart : floor_cell g (mkPt 1 1)).
  { unfold floor_cell. cbn [pt_x pt_y]. rewrite Hcell. rewrite decide_True by auto. reflexivity. }
  split.
  - constructor.
    + exact Hrect.
    + intros x y v Hv. rewrite Hcell in Hv. case_decide; [left; congruence|].
      right. exact (new_grid_cell _ _ _ _ _ Hv).
    + intros c Hc. rewrite (Hone c Hc). unfold interior. cbn [pt_x pt_y]. lia.
    + exact Hstart.
    + intros c Hc. rewrite (Hone c Hc). apply connected_here. exact Hstart.
    + intros c Hc. apply list_elem_of_singleton in Hc. subst c.
      split; [exact Hstart | split; reflexivity].
    + intros c Hc _. left. rewrite (Hone c Hc). left.
  - apply new_grid_cell in Hold. subst old. simpl in Hcount.
    pose proof (count_walls_le w h (new_grid w h) Hrect0) as Hle.
    unfold carve_fuel.
    assert (Hwh : Z.of_nat (Z.to_nat w * Z.to_nat h) = (w * h)%Z)
      by (rewrite Nat2Z.inj_mul, !Z2Nat.id; lia).
    unfold wallbit in Hcount. simpl in Hcount. lia.
Qed.

(** [makeMaze] returns on every size from 3 by 3 on, whatever the seed, and
    the grid it returns satisfies [maze_ok]. *)
Lemma makeMaze_spec (w h seed : Z) :
  (3 <= w)%Z -> (3 <= h)%Z ->
  exists m, makeMaze w h seed = Ok m /\ maze_seed m = seed /\ maze_ok w h (maze_grid m).
Proof.
  intros Hw Hh. unfold makeMaze.
  destruct (start_carve_inv w h Hw Hh) as (g1 & -> & Hinv & Hfuel). cbn [bind].
  destruct (carve_spec (carve_fuel w h) w h g1 [mkPt 1 1] (rng seed) Hinv
              ltac:(simpl; lia)) as (g2 & t2 & -> & Hinv2).
  cbn [bind].
  destruct (knock_loop_spec (loop_count w h) w h g2 t2 Hw Hh (carve_inv_maze_ok _ _ _ Hinv2))
    as (g3 & t3 & -> & Hok).
  cbn [bind]. eexists. split; [reflexivity|]. split; [reflexivity | exact Hok].
Qed.

(** ** Generated mazes *)

(** X1.  [makeMaze] returns for every width and height from 3 on and every
    seed: the carving loop ends before its iteration bound and no array
    access leaves the grid.  The grid returned has [h] rows of [w] cells,
    each cell holding [0] or [1]. *)
Theorem makeMaze_returns (w h seed : Z) :
  (3 <= w)%Z -> (3 <= h)%Z ->
  exists m, makeMaze w h seed = Ok m /\
            rect w h (maze_grid m) /\ binary (maze_grid m).
Proof.
  intros Hw Hh. destruct (makeMaze_spec w h seed Hw Hh) as (m & Hm & _ & Hok).
  exists m. split; [exact Hm|]. split; [exact (mo_rect _ _ _ Hok) | exact (mo_binary _ _ _ Hok)].
Qed.

Lemma makeMaze_returns_witness :
  exists m, makeMaze 9 7 2024 = Ok m /\ rect 9 7 (maze_grid m) /\ binary (maze_grid m).
Proof. apply (makeMaze_returns 9 7 2024); lia. Defined.

Lemma makeMaze_Ok_spec (w h seed : Z) (m : Maze) :
  (3 <= w)%Z -> (3 <= h)%Z -> makeMaze w h seed = Ok m -> maze_ok w h (maze_grid m).
Proof.
  intros Hw Hh Hm. destruct (makeMaze_spec w h seed Hw Hh) as (m' & Hm' & _ & Hok).
  congruence.
Qed.

(** X2.  In a generated maze every cell of the border (first and last row,
    first and last column) is a wall. *)
Theorem makeMaze_border_walls (w h seed : Z) (m : Maze) (x y : Z) :
  (3 <= w)%Z -> (3 <= h)%Z -> makeMaze w h seed = Ok m ->
  (0 <= x < w)%Z -> (0 <= y < h)%Z ->
  (x = 0 \/ x = w - 1 \/ y = 0 \/ y = h - 1)%Z ->
  cell_of (maze_grid m) x y = Some 1%Z.
Proof.
  intros Hw Hh Hm Hx Hy Hborder.
  pose proof (makeMaze_Ok_spec w h seed m Hw Hh Hm) as Hok.
  destruct (cell_of_inside w h (maze_grid m) x y (mo_rect _ _ _ Hok) Hx Hy) as [v Hv].
  destruct (mo_binary _ _ _ Hok x y v Hv) as [->| ->]; [|exact Hv].
  pose proof (mo_interior _ _ _ Hok (mkPt x y) Hv) as [Hix Hiy].
  cbn [pt_x pt_y] in Hix, Hiy. lia.
Qed.

Lemma makeMaze_border_walls_witness :
  exists m, makeMaze 9 7 2024 = Ok m /\ cell_of (maze_grid m) 8 3 = Some 1%Z.
Proof.
  eexists. split; [vm_compute; reflexivity|].
  eapply (makeMaze_border_walls 9 7 2024 _ 8 3);
    [lia | lia | vm_compute; reflexivity | lia | lia | lia].
Defined.

(** X3.  In a generated maze every cell with odd coordinates strictly inside
    the border is floor: the carving visits every room. *)
Theorem makeMaze_rooms (w h seed : Z) (m : Maze) (c : Pt) :
  (3 <= w)%Z -> (3 <= h)%Z -> makeMaze w h seed = Ok m ->
  anchor c -> interior w h c -> floor_cell (maze_grid m) c.
Proof.
  intros Hw Hh Hm Ha Hi.
  exact (mo_anchors _ _ _ (makeMaze_Ok_spec w h seed m Hw Hh Hm) c Ha Hi).
Qed.

Lemma makeMaze_rooms_witness :
  exists m, makeMaze 9 7 2024 = Ok m /\ floor_cell (maze_grid m) (mkPt 7 5).
Proof.
  eexists. split; [vm_compute; reflexivity|].
  eapply (makeMaze_rooms 9 7 2024 _ (mkPt 7 5));
    [lia | lia | vm_compute; reflexivity | split; reflexivity | unfold interior; simpl; lia].
Defined.

(** X4.  In a generated maze any two floor cells are joined by a walk
    through floor cells that goes from a cell to one sharing a side with it;
    knocking down walls after the carving never cuts a walk. *)
Theorem makeMaze_connected (w h seed : Z) (m : Maze) (a b : Pt) :
  (3 <= w)%Z -> (3 <= h)%Z -> makeMaze w h seed = Ok m ->
  floor_cell (maze_grid m) a -> floor_cell (maze_grid m) b ->
  connected (maze_grid m) a b.
Proof.
  intros Hw Hh Hm Ha Hb.
  pose proof (makeMaze_Ok_spec w h seed m Hw Hh Hm) as Hok.
  apply connected_trans with (mkPt 1 1).
  - apply connected_sym. apply (mo_conn _ _ _ Hok). exact Ha.
  - apply (mo_conn _ _ _ Hok). exact Hb.
Qed.

Lemma makeMaze_connected_witness :
  exists m, makeMaze 9 7 2024 = Ok m /\ connected (maze_grid m) (mkPt 1 5) (mkPt 7 1).
Proof.
  eexists. split; [vm_compute; reflexivity|].
  eapply (makeMaze_connected 9 7 2024 _ (mkPt 1 5) (mkPt 7 1));
    [lia | lia | vm_compute; reflexivity | vm_compute; reflexivity | vm_compute; reflexivity].
Defined.

(** ** Sessions started on a generated maze *)

Lemma Qfloor_shift (x : Z) (q : Q) : 0 <= q -> q < 1 -> Qfloor (inject_Z x + q) = x.
Proof.
  intros H0 H1.
  pose proof (Qfloor_le (inject_Z x + q)) as Hle.
  pose proof (Qlt_floor (inject_Z x + q)) as Hlt.
  rewrite inject_Z_plus in Hlt. change (inject_Z 1) with 1 in Hlt.
  assert (Ha : (Qfloor (inject_Z x + q) < x + 1)%Z).
  { rewrite Zlt_Qlt, inject_Z_plus. change (inject_Z 1) with 1. lra. }
  assert (Hb : (x < Qfloor (inject_Z x + q) + 1)%Z).
  { rewrite Zlt_Qlt, inject_Z_plus. change (inject_Z 1) with 1. lra. }
  lia.
Qed.

Lemma rect_width (w h : Z) (g : Grid) : rect w h g -> (0 < h)%Z -> grid_width g = w.
Proof.
  intros [Hh Hall] Hpos. unfold grid_width. destruct g as [|row g]; [simpl in Hh; lia|].
  inversion Hall; subst. reflexivity.
Qed.

(** On a rectangular grid [isWall] reads the cell that contains the point. *)
Lemma isWall_cell (w h : Z) (g : Grid) (a b : Q) :
  rect w h g -> (0 <= Qfloor a < w)%Z -> (0 <= Qfloor b < h)%Z ->
  isWall g a b = Ok (is_val (cell_of g (Qfloor a) (Qfloor b)) 1).
Proof.
  intros Hr Ha Hb. unfold isWall. pose proof Hr as [Hh _].
  destruct (Z.ltb_spec (Qfloor b) 0); [lia|].
  destruct (Z.geb_spec (Qfloor b) (Z.of_nat (length g))); [lia|]. cbn [orb].
  rewrite row0_length_width by (unfold grid_height; lia).
  rewrite (rect_width w h g Hr) by lia. cbn [bind].
  destruct (Z.ltb_spec (Qfloor a) 0); [lia|].
  destruct (Z.geb_spec (Qfloor a) w); [lia|]. cbn [orb].
  rewrite (grid_read_cell w h) by (auto; lia). reflexivity.
Qed.

(** An actor can stand in the middle of any floor cell. *)
Lemma canStand_center (w h : Z) (g : Grid) (c : Pt) :
  rect w h g -> floor_cell g c ->
  canStand g (inject_Z (pt_x c) + 0.5) (inject_Z (pt_y c) + 0.5) = Ok true.
Proof.
  intros Hr Hc. destruct (cell_of_bounds w h g _ _ _ Hr Hc) as [Hx Hy].
  assert (Hmid : forall z, Qfloor (inject_Z z + 0.5) = z).
  { intros z. apply Qfloor_shift; [discriminate | reflexivity]. }
  assert (Hup : forall z, Qfloor (inject_Z z + 0.5 + 0.14) = z).
  { intros z. rewrite (Qfloor_comp _ (inject_Z z + (0.5 + 0.14))) by ring.
    apply Qfloor_shift; [discriminate | reflexivity]. }
  assert (Hdown : forall z, Qfloor (inject_Z z + 0.5 - 0.14) = z).
  { intros z. rewrite (Qfloor_comp _ (inject_Z z + (0.5 - 0.14))) by ring.
    apply Qfloor_shift; [discriminate | reflexivity]. }
  unfold canStand.
  rewrite !(isWall_cell w h g) by (auto; rewrite ?Hmid, ?Hup, ?Hdown; lia).
  rewrite !Hmid, Hup, Hdown, Hup, Hdown. unfold floor_cell in Hc. rewrite Hc. reflexivity.
Qed.

Lemma findRandomFloor_floor (w h : Z) (g : Grid) (t : Z) :
  (3 <= w)%Z -> (3 <= h)%Z -> maze_ok w h g ->
  exists p t', findRandomFloor g t = Ok (p, t') /\ floor_cell g p /\ interior w h p.
Proof.
  intros Hw Hh Hok. pose proof (mo_rect _ _ _ Hok) as Hr.
  destruct (findRandomFloor_spec g t) as (p & k & Hf & _ & Hcase & _).
  { destruct Hr as [Hlen _]. lia. }
  exists p. eexists. split; [exact Hf|].
  assert (Hp : floor_cell g p).
  { destruct Hcase as [[_ Hfl] | [_ ->]].
    - unfold is_floor in Hfl. apply grid_read_Ok_cell in Hfl. exact Hfl.
    - apply (mo_anchors _ _ _ Hok); [split; reflexivity|]. unfold interior. simpl. lia. }
  split; [exact Hp | exact (mo_interior _ _ _ Hok p Hp)].
Qed.

Lemma findRandomFloor_Ok_floor (w h : Z) (g : Grid) (t t' : Z) (p : Pt) :
  (3 <= w)%Z -> (3 <= h)%Z -> maze_ok w h g ->
  findRandomFloor g t = Ok (p, t') -> floor_cell g p.
Proof.
  intros Hw Hh Hok H.
  destruct (findRandomFloor_floor w h g t Hw Hh Hok) as (p' & t'' & H' & Hp & _).
  congruence.
Qed.

Lemma place_keys_floor (w h : Z) (fuel : nat) (s s' : Game) :
  (3 <= w)%Z -> (3 <= h)%Z -> maze_ok w h (grid s) ->
  place_keys fuel s = Ok s' ->
  (forall k, k ∈ keyPos s -> floor_cell (grid s) k) ->
  forall k, k ∈ keyPos s' -> floor_cell (grid s) k.
Proof.
  intros Hw Hh. revert s. induction fuel as [|fuel IH]; intros s Hok H Hall; simpl in H.
  - destruct (_ <? _)%nat; [discriminate|]. inversion H; subst. exact Hall.
  - destruct (_ <? _)%nat; [|inversion H; subst; exact Hall].
    bind_inv H as [k t] E.
    pose proof (findRandomFloor_Ok_floor w h _ _ _ _ Hw Hh Hok E) as Hk.
    destruct (norm_ltb _ _); [exact (IH (set_R t s) Hok H Hall)|].
    destruct (on_key _ _); [exact (IH (set_R t s) Hok H Hall)|].
    apply (IH (set_keyPos (keyPos s ++ [k]) (set_R t s)) Hok H).
    cbn [keyPos set_keyPos set_R]. intros k' Hk'.
    apply elem_of_app in Hk'. destruct Hk' as [Hk'|Hk']; [apply Hall; exact Hk'|].
    apply list_elem_of_singleton in Hk'. subst k'. exact Hk.
Qed.

Lemma place_exit_floor (w h : Z) (fuel : nat) (s s' : Game) :
  (3 <= w)%Z -> (3 <= h)%Z -> maze_ok w h (grid s) ->
  place_exit fuel s = Ok s' ->
  exists e, exitPos s' = Some e /\ floor_cell (grid s) e.
Proof.
  intros Hw Hh. revert s. induction fuel as [|fuel IH]; intros s Hok H; simpl in H;
    [discriminate|].
  bind_inv H as [e t] E.
  pose proof (findRandomFloor_Ok_floor w h _ _ _ _ Hw Hh Hok E) as He.
  destruct (norm_ltb _ _); [exact (IH (set_R t s) Hok H)|].
  destruct (on_key _ _); [exact (IH (set_R t s) Hok H)|].
  inversion H; subst. exists e. split; [reflexivity | exact He].
Qed.

Lemma place_enemy_loop_floor (w h : Z) (n : nat) (s s' : Game) (c : Pt) :
  (3 <= w)%Z -> (3 <= h)%Z -> maze_ok w h (grid s) ->
  place_enemy_loop n s = Ok (Some c, s') -> floor_cell (grid s) c.
Proof.
  intros Hw Hh. revert s. induction n as [|n IH]; intros s Hok H; simpl in H;
    [discriminate|].
  bind_inv H as [cand t] E.
  pose proof (findRandomFloor_Ok_floor w h _ _ _ _ Hw Hh Hok E) as Hc.
  destruct (_ || _); [exact (IH (set_R t s) Hok H)|].
  inversion H; subst. exact Hc.
Qed.

Lemma place_enemy_floor (M : MathLib) (w h : Z) (s s' : Game) :
  (3 <= w)%Z -> (3 <= h)%Z -> maze_ok w h (grid s) ->
  place_enemy M s = Ok s' ->
  on_floor (grid s) (en_x (enemy s')) (en_y (enemy s')) /\
  en_state (enemy s') = wander /\ en_lastSeen (enemy s') = 0 /\
  running s' = running s /\ paused s' = paused s /\ keys s' = keys s /\ seed s' = seed s /\
  ui s' = ui s.
Proof.
  intros Hw Hh Hok H. unfold place_enemy, enemy_cell in H.
  bind_inv H as [en s1] E. bind_inv E as [o s2] E'.
  assert (Hfr : forall n s s' o, place_enemy_loop n s = Ok (o, s') ->
            running s' = running s /\ paused s' = paused s /\ keys s' = keys s /\
            seed s' = seed s /\ ui s' = ui s).
  { clear. induction n as [|n IH]; intros s s' o H; simpl in H.
    - inversion H; subst. auto.
    - bind_inv H as [c t] E. destruct (_ || _).
      + apply IH in H. exact H.
      + inversion H; subst. auto. }
  pose proof (Hfr _ _ _ _ E') as (Hf1 & Hf2 & Hf3 & Hf4 & Hf5).
  pose proof (place_enemy_loop_frame _ _ _ _ E') as (_ & _ & _ & Hg).
  assert (Hen : floor_cell (grid s) en /\ running s1 = running s2 /\ paused s1 = paused s2 /\
                keys s1 = keys s2 /\ seed s1 = seed s2 /\ ui s1 = ui s2).
  { destruct o as [c|].
    - inversion E; subst. split; [|auto].
      exact (place_enemy_loop_floor w h _ _ _ _ Hw Hh Hok E').
    - bind_inv E as [c t] E2. inversion E; subst. split; [|auto].
      rewrite <- Hg. apply (findRandomFloor_Ok_floor w h _ _ _ _ Hw Hh) in E2; [exact E2|].
      rewrite Hg. exact Hok. }
  destruct Hen as (Hen & Hs1 & Hs2 & Hs3 & Hs4 & Hs5).
  unfold rng_next in H. inversion H; subst s'. cbn.
  split; [exists en; auto|]. repeat split; congruence.
Qed.

Lemma same_session_refl (s : Game) : same_session s s.
Proof. unfold same_session. auto 10. Qed.

Lemma same_session_trans (s1 s2 s3 : Game) :
  same_session s1 s2 -> same_session s2 s3 -> same_session s1 s3.
Proof. unfold same_session. intuition congruence. Qed.

Lemma place_keys_same (fuel : nat) (s s' : Game) :
  place_keys fuel s = Ok s' -> same_session s s' /\ enemy s' = enemy s.
Proof.
  revert s. induction fuel as [|fuel IH]; intros s H; simpl in H.
  - destruct (_ <? _)%nat; [discriminate|]. inversion H; subst.
    split; [(unfold same_session; cbn; auto 10) | reflexivity].
  - destruct (_ <? _)%nat;
      [|inversion H; subst; split; [(unfold same_session; cbn; auto 10) | reflexivity]].
    bind_inv H as [k t] E.
    destruct (norm_ltb _ _); [exact (IH (set_R t s) H)|].
    destruct (on_key _ _); [exact (IH (set_R t s) H)|].
    exact (IH (set_keyPos (keyPos s ++ [k]) (set_R t s)) H).
Qed.

Lemma place_exit_same (fuel : nat) (s s' : Game) :
  place_exit fuel s = Ok s' -> same_session s s' /\ enemy s' = enemy s.
Proof.
  revert s. induction fuel as [|fuel IH]; intros s H; simpl in H; [discriminate|].
  bind_inv H as [e t] E.
  destruct (norm_ltb _ _); [exact (IH (set_R t s) H)|].
  destruct (on_key _ _); [exact (IH (set_R t s) H)|].
  inversion H; subst. split; [(unfold same_session; cbn; auto 10) | reflexivity].
Qed.

Lemma place_enemy_same (M : MathLib) (s s' : Game) :
  place_enemy M s = Ok s' -> same_session s s'.
Proof.
  intros H. unfold place_enemy, enemy_cell in H.
  bind_inv H as [en s1] E. bind_inv E as [o s2] E'.
  assert (Hfr : forall n s s' o, place_enemy_loop n s = Ok (o, s') -> same_session s s').
  { clear. induction n as [|n IH]; intros s s' o H; simpl in H.
    - inversion H; subst. (unfold same_session; cbn; auto 10).
    - bind_inv H as [c t] E. destruct (_ || _).
      + exact (IH (set_R t s) _ _ H).
      + inversion H; subst. (unfold same_session; cbn; auto 10). }
  pose proof (Hfr _ _ _ _ E') as H2.
  assert (H1 : same_session s2 s1).
  { destruct o as [c|].
    - inversion E; subst. (unfold same_session; cbn; auto 10).
    - bind_inv E as [c t] E2. inversion E; subst. (unfold same_session; cbn; auto 10). }
  unfold rng_next in H. inversion H; subst s'.
  apply same_session_trans with s1; [|(unfold same_session; cbn; auto 10)].
  apply same_session_trans with s2; assumption.
Qed.

Lemma start_maze_spec (date_now : Z) (s s1 : Game) :
  (3 <= mapW s)%Z -> (3 <= mapH s)%Z -> start_maze date_now s = Ok s1 ->
  makeMaze (mapW s) (mapH s) date_now = Ok (mkMaze (grid s1) (seed s1)) /\
  maze_ok (mapW s) (mapH s) (grid s1) /\
  seed s1 = date_now /\ R s1 = rng date_now /\ running s1 = true /\ paused s1 = false /\
  mapW s1 = mapW s /\ mapH s1 = mapH s.
Proof.
  intros Hw Hh H. unfold start_maze in H. bind_inv H as m Em.
  cbn [mapW mapH set_running set_paused] in Em.
  pose proof (makeMaze_Ok_spec _ _ _ _ Hw Hh Em) as Hok.
  assert (Hseed : maze_seed m = date_now).
  { destruct (makeMaze_spec (mapW s) (mapH s) date_now Hw Hh) as (m' & Hm' & Hs' & _).
    congruence. }
  inversion H; subst s1. cbn. rewrite Hseed.
  split; [destruct m; cbn in *; congruence|]. auto 10.
Qed.

Lemma place_player_spec (M : MathLib) (w h : Z) (s s' : Game) :
  (3 <= w)%Z -> (3 <= h)%Z -> maze_ok w h (grid s) -> place_player M s = Ok s' ->
  same_session s s' /\ on_floor (grid s) (pl_x (player s')) (pl_y (player s')).
Proof.
  intros Hw Hh Hok H. unfold place_player in H. bind_inv H as [p t] Ep.
  pose proof (findRandomFloor_Ok_floor _ _ _ _ _ _ Hw Hh Hok Ep) as Hp.
  unfold rng_next in H. inversion H; subst s'. cbn.
  split; [unfold same_session; cbn; auto 10 | exists p; auto].
Qed.

(** What [startNew] has built when it returns. *)
Lemma startNew_spec (M : MathLib) (fuel : nat) (date_now : Z) (perf_now : Q) (s s' : Game) :
  (3 <= mapW s)%Z -> (3 <= mapH s)%Z ->
  startNew M fuel date_now perf_now s = Ok s' ->
  makeMaze (mapW s) (mapH s) date_now = Ok (mkMaze (grid s') (seed s')) /\
  maze_ok (mapW s) (mapH s) (grid s') /\
  (mapW s' = mapW s /\ mapH s' = mapH s /\ seed s' = date_now /\
   running s' = true /\ paused s' = false /\ keys s' = 0%Z) /\
  on_floor (grid s') (pl_x (player s')) (pl_y (player s')) /\
  on_floor (grid s') (en_x (enemy s')) (en_y (enemy s')) /\
  (forall k, k ∈ keyPos s' -> floor_cell (grid s') k) /\
  (exists e, exitPos s' = Some e /\ floor_cell (grid s') e /\ e ∉ keyPos s') /\
  length (keyPos s') = 3%nat /\ NoDup (keyPos s').
Proof.
  intros Hw Hh H. unfold startNew in H.
  bind_inv H as s1 E1. bind_inv H as s2 E2.
  set (s2' := set_keyPos [] (set_keys 0 s2)) in H.
  bind_inv H as s3 E3. bind_inv H as s4 E4. bind_inv H as s5 E5.
  inversion H; subst s'. clear H.
  destruct (start_maze_spec _ _ _ Hw Hh E1) as (Hmaze & Hok & Hseed & _ & Hrun & Hpau & HW & HH).
  destruct (place_player_spec M _ _ _ _ Hw Hh Hok E2)
    as ((A1 & A2 & A3 & A4 & A5 & A6 & A7 & A8) & Hpl).
  assert (Hg2 : grid s2' = grid s1) by exact A6.
  assert (Hok2 : maze_ok (mapW s) (mapH s) (grid s2')) by (rewrite Hg2; exact Hok).
  pose proof (place_keys_same _ _ _ E3) as [(K1 & K2 & K3 & K4 & K5 & K6 & K7 & K8) _].
  destruct (place_keys_spec _ _ _ E3) as ((Hnd3 & _) & Hlen3 & Hp3 & _ & Hg3).
  { repeat split; cbn; [apply NoDup_nil_2 | lia | intros k Hk; inversion Hk]. }
  pose proof (place_keys_floor _ _ _ _ _ Hw Hh Hok2 E3
                ltac:(intros k Hk; inversion Hk)) as Hfl3.
  assert (Hok3 : maze_ok (mapW s) (mapH s) (grid s3)) by (rewrite Hg3; exact Hok2).
  pose proof (place_exit_same _ _ _ E4) as [(L1 & L2 & L3 & L4 & L5 & L6 & L7 & L8) _].
  destruct (place_exit_spec _ _ _ E4) as ((e & He & _ & Hne) & Hp4 & Hkp4 & Hg4).
  destruct (place_exit_floor _ _ _ _ _ Hw Hh Hok3 E4) as (e' & He' & Hfe).
  assert (Hok4 : maze_ok (mapW s) (mapH s) (grid s4)) by (rewrite Hg4; exact Hok3).
  pose proof (place_enemy_same _ _ _ E5) as (N1 & N2 & N3 & N4 & N5 & N6 & N7 & N8).
  destruct (place_enemy_frame _ _ _ E5) as (Hp5 & Hkp5 & He5 & Hg5).
  destruct (place_enemy_floor M _ _ _ _ Hw Hh Hok4 E5) as (Hen & _).
  subst s2'. cbn [running paused mapW mapH seed grid keys ui set_keys set_keyPos]
    in K1, K2, K3, K4, K5, K6, K7, K8, Hg2, Hg3, Hp3.
  assert (Hgrid : grid s5 = grid s1) by congruence.
  unfold start_ui. cbn.
  rewrite Hgrid, Hp5, Hp4, Hp3, Hkp5, Hkp4, He5.
  split; [rewrite Hmaze; do 2 f_equal; congruence|].
  split; [exact Hok|].
  split; [repeat split; congruence|].
  split; [exact Hpl|].
  split; [rewrite <- Hg2, <- Hg3, <- Hg4; exact Hen|].
  split; [intros k Hk; rewrite <- Hg2; apply Hfl3; exact Hk|].
  split; [|split; [exact Hlen3 | exact Hnd3]].
  exists e. split; [exact He|]. split; [|exact Hne].
  rewrite He in He'. injection He' as <-. rewrite <- Hg2, <- Hg3. exact Hfe.
Qed.


(** X5.  When [startNew] returns (on a map at least 3 by 3), the player and
    the enemy stand at the centers of floor cells of the session grid, and
    the key cells and the exit cell are floor cells. *)
Theorem startNew_on_floor (M : MathLib) (fuel : nat) (date_now : Z) (perf_now : Q)
    (s s' : Game) :
  (3 <= mapW s)%Z -> (3 <= mapH s)%Z ->
  startNew M fuel date_now perf_now s = Ok s' ->
  on_floor (grid s') (pl_x (player s')) (pl_y (player s')) /\
  on_floor (grid s') (en_x (enemy s')) (en_y (enemy s')) /\
  (forall k, k ∈ keyPos s' -> floor_cell (grid s') k) /\
  (exists e, exitPos s' = Some e /\ floor_cell (grid s') e).
Proof.
  intros Hw Hh H.
  destruct (startNew_spec M fuel date_now perf_now s s' Hw Hh H)
    as (_ & _ & _ & Hpl & Hen & Hkeys & (e & He & Hfe & _) & _).
  repeat split; auto. exists e. auto.
Qed.

Lemma startNew_on_floor_witness :
  exists s', startNew mathQ 50 1234567 0 (new_Game ui0) = Ok s' /\
    on_floor (grid s') (pl_x (player s')) (pl_y (player s')) /\
    on_floor (grid s') (en_x (enemy s')) (en_y (enemy s')) /\
    (forall k, k ∈ keyPos s' -> floor_cell (grid s') k) /\
    (exists e, exitPos s' = Some e /\ floor_cell (grid s') e).
Proof.
  eexists. split; [vm_compute; reflexivity|].
  eapply (startNew_on_floor mathQ 50 1234567 0 (new_Game ui0));
    [vm_compute; discriminate | vm_compute; discriminate | vm_compute; reflexivity].
Defined.

(** X6.  When [startNew] returns (on a map at least 3 by 3), both actors can
    stand where they were put: [canStand] accepts the position of the player
    and that of the enemy. *)
Theorem startNew_standable (M : MathLib) (fuel : nat) (date_now : Z) (perf_now : Q)
    (s s' : Game) :
  (3 <= mapW s)%Z -> (3 <= mapH s)%Z ->
  startNew M fuel date_now perf_now s = Ok s' ->
  canStand (grid s') (pl_x (player s')) (pl_y (player s')) = Ok true /\
  canStand (grid s') (en_x (enemy s')) (en_y (enemy s')) = Ok true.
Proof.
  intros Hw Hh H.
  destruct (startNew_spec M fuel date_now perf_now s s' Hw Hh H)
    as (_ & Hok & _ & (p & Hp & -> & ->) & (c & Hc & -> & ->) & _).
  pose proof (mo_rect _ _ _ Hok) as Hr.
  split; apply (canStand_center _ _ _ _ Hr); assumption.
Qed.

Lemma startNew_standable_witness :
  exists s', startNew mathQ 50 1234567 0 (new_Game ui0) = Ok s' /\
    canStand (grid s') (pl_x (player s')) (pl_y (player s')) = Ok true /\
    canStand (grid s') (en_x (enemy s')) (en_y (enemy s')) = Ok true.
Proof.
  eexists. split; [vm_compute; reflexivity|].
  eapply (startNew_standable mathQ 50 1234567 0 (new_Game ui0));
    [vm_compute; discriminate | vm_compute; discriminate | vm_compute; reflexivity].
Defined.

(** X7.  A session is reproducible from the seed it shows: when [startNew]
    returns, the seed of the session is the value of [Date.now()] it was
    started with, and running [makeMaze] again on the session's map size and
    seed returns the session's grid. *)
Theorem startNew_reproducible (M : MathLib) (fuel : nat) (date_now : Z) (perf_now : Q)
    (s s' : Game) :
  (3 <= mapW s)%Z -> (3 <= mapH s)%Z ->
  startNew M fuel date_now perf_now s = Ok s' ->
  seed s' = date_now /\
  makeMaze (mapW s') (mapH s') (seed s') = Ok (mkMaze (grid s') (seed s')).
Proof.
  intros Hw Hh H.
  destruct (startNew_spec M fuel date_now perf_now s s' Hw Hh H)
    as (Hmaze & _ & (HW & HH & Hseed & _) & _).
  split; [exact Hseed|]. rewrite HW, HH. rewrite Hseed at 1. exact Hmaze.
Qed.

Lemma startNew_reproducible_witness :
  exists s', startNew mathQ 50 1234567 0 (new_Game ui0) = Ok s' /\
    seed s' = 1234567%Z /\
    makeMaze (mapW s') (mapH s') (seed s') = Ok (mkMaze (grid s') (seed s')).
Proof.
  eexists. split; [vm_compute; reflexivity|].
  eapply (startNew_reproducible mathQ 50 1234567 0 (new_Game ui0));
    [vm_compute; discriminate | vm_compute; discriminate | vm_compute; reflexivity].
Defined.

(** ** Pickups *)

Lemma take_key_None (l : list Pt) (px py : Z) :
  take_key l px py = None <-> on_key l (mkPt px py) = false.
Proof.
  induction l as [|k l IH]; simpl; [tauto|].
  destruct ((pt_x k =? px)%Z && (pt_y k =? py)%Z); simpl.
  - split; discriminate.
  - rewrite <- IH. destruct (take_key l px py); simpl; split; congruence.
Qed.

(** The key loop splices out exactly the first key on the cell. *)
Lemma take_key_Some (l l' : list Pt) (px py : Z) :
  take_key l px py = Some l' ->
  exists l1 l2, l = l1 ++ mkPt px py :: l2 /\ l' = l1 ++ l2 /\ (mkPt px py ∉ l1).
Proof.
  revert l'. induction l as [|k l IH]; intros l' H; simpl in H; [discriminate|].
  destruct ((pt_x k =? px)%Z && (pt_y k =? py)%Z) eqn:Hk.
  - injection H as <-. apply andb_true_iff in Hk. destruct Hk as [Hx Hy].
    apply Z.eqb_eq in Hx, Hy. exists [], l. simpl. split; [|split; [reflexivity|]].
    + f_equal. destruct k; simpl in *; congruence.
    + intros Hin. inversion Hin.
  - destruct (take_key l px py) as [rest|] eqn:Hrest; [|discriminate].
    simpl in H. injection H as <-.
    destruct (IH rest eq_refl) as (l1 & l2 & -> & -> & Hnot).
    exists (k :: l1), l2. split; [reflexivity|]. split; [reflexivity|].
    apply not_elem_of_cons. split; [|exact Hnot].
    intros <-. simpl in Hk. rewrite !Z.eqb_refl in Hk. discriminate.
Qed.

(** [pickup] moves nobody and leaves the grid and the exit alone. *)
Lemma pickup_frame (s : Game) :
  player (pickup s) = player s /\ enemy (pickup s) = enemy s /\
  grid (pickup s) = grid s /\ exitPos (pickup s) = exitPos s.
Proof.
  unfold pickup.
  set (s1 := match take_key _ _ _ with Some l => _ | None => s end).
  assert (H1 : player s1 = player s /\ enemy s1 = enemy s /\
               grid s1 = grid s /\ exitPos s1 = exitPos s).
  { subst s1. destruct (take_key _ _ _); cbn; auto. }
  clearbody s1. destruct H1 as (<- & <- & <- & <-).
  destruct (exitPos s1) as [e|] eqn:He; [|auto].
  destruct (_ && _); [|auto].
  destruct (_ >=? 3)%Z; cbn; auto.
Qed.

(** The first half of [pickup], on the keys. *)
Lemma pickup_cases (s : Game) :
  (on_key (keyPos s) (player_cell s) = false /\
   keys (pickup s) = keys s /\ keyPos (pickup s) = keyPos s) \/
  (exists l1 l2, keyPos s = l1 ++ player_cell s :: l2 /\ (player_cell s ∉ l1) /\
                 keyPos (pickup s) = l1 ++ l2 /\ keys (pickup s) = (keys s + 1)%Z /\
                 ui_keys (ui (pickup s)) = String_of (keys s + 1)).
Proof.
  unfold pickup, player_cell.
  set (s1 := match take_key _ _ _ with Some l => _ | None => s end).
  assert (Htail : keys (match exitPos s1 with
                        | Some e =>
                            if (pt_x e =? Qfloor (pl_x (player s)))%Z &&
                               (pt_y e =? Qfloor (pl_y (player s)))%Z
                            then if (keys s1 >=? 3)%Z then win s1
                                 else set_ui (set_ui_status "Need 3 keys" (ui s1)) s1
                            else s1
                        | None => s1
                        end) = keys s1 /\
                  keyPos (match exitPos s1 with
                        | Some e =>
                            if (pt_x e =? Qfloor (pl_x (player s)))%Z &&
                               (pt_y e =? Qfloor (pl_y (player s)))%Z
                            then if (keys s1 >=? 3)%Z then win s1
                                 else set_ui (set_ui_status "Need 3 keys" (ui s1)) s1
                            else s1
                        | None => s1
                        end) = keyPos s1 /\
                  ui_keys (ui (match exitPos s1 with
                        | Some e =>
                            if (pt_x e =? Qfloor (pl_x (player s)))%Z &&
                               (pt_y e =? Qfloor (pl_y (player s)))%Z
                            then if (keys s1 >=? 3)%Z then win s1
                                 else set_ui (set_ui_status "Need 3 keys" (ui s1)) s1
                            else s1
                        | None => s1
                        end)) = ui_keys (ui s1)).
  { destruct (exitPos s1) as [e|]; [|auto].
    destruct (_ && _); [|auto].
    destruct (_ >=? 3)%Z; cbn; auto. }
  destruct Htail as (-> & -> & ->). subst s1.
  destruct (take_key (keyPos s) _ _) as [l|] eqn:Ht.
  - right. destruct (take_key_Some _ _ _ _ Ht) as (l1 & l2 & Hl & -> & Hnot).
    exists l1, l2. cbn. auto.
  - left. apply take_key_None in Ht. auto.
Qed.

Lemma pickup_session_inv (s : Game) :
  session_inv s ->
  session_inv (pickup s) /\ (keys s <= keys (pickup s) <= keys s + 1)%Z.
Proof.
  intros (Hnd & Hsum & Hexit).
  destruct (pickup_frame s) as (_ & _ & _ & Hex).
  destruct (pickup_cases s) as [(_ & Hk & Hl) | (l1 & l2 & Hl & _ & Hl' & Hk & _)].
  - split; [|lia]. unfold session_inv. rewrite Hk, Hl, Hex. auto.
  - split; [|lia]. unfold session_inv. rewrite Hk, Hl', Hex.
    rewrite Hl in Hnd, Hsum, Hexit. split; [|split].
    + apply NoDup_app in Hnd. destruct Hnd as (H1 & H2 & H3).
      apply NoDup_cons in H3. destruct H3 as [_ H3].
      apply NoDup_app. split; [exact H1|]. split; [|exact H3].
      intros x Hx Hx2. apply (H2 x Hx). right. exact Hx2.
    + rewrite length_app in Hsum |- *. simpl in Hsum. lia.
    + intros e He Hin. apply (Hexit e He). apply elem_of_app in Hin.
      apply elem_of_app. destruct Hin as [Hin|Hin]; [left; exact Hin | right; right; exact Hin].
Qed.

(** X8.  [pickup] keeps the bookkeeping of keys: if the keys left lie on
    distinct cells, none on the exit cell, and collected plus left make three,
    the same holds after [pickup].  A call collects at most one key. *)
Theorem pickup_keeps_keys (s : Game) :
  session_inv s ->
  session_inv (pickup s) /\ (keys s <= keys (pickup s) <= keys s + 1)%Z.
Proof. apply pickup_session_inv. Qed.

Lemma pickup_keeps_keys_witness :
  session_inv (pickup (set_keys 2 (at_exit 0))) /\
  (keys (set_keys 2 (at_exit 0)) <= keys (pickup (set_keys 2 (at_exit 0)))
   <= keys (set_keys 2 (at_exit 0)) + 1)%Z.
Proof.
  apply (pickup_keeps_keys (set_keys 2 (at_exit 0))).
  split; [|split].
  - apply NoDup_singleton.
  - reflexivity.
  - intros e He. injection He as <-. intros Hin.
    apply list_elem_of_singleton in Hin. discriminate.
Defined.

(** X9.  When [startNew] returns (on a map at least 3 by 3) the bookkeeping
    of keys holds: no key is collected, three keys lie on distinct cells, and
    none of them lies on the exit cell. *)
Theorem startNew_session_inv (M : MathLib) (fuel : nat) (date_now : Z) (perf_now : Q)
    (s s' : Game) :
  (3 <= mapW s)%Z -> (3 <= mapH s)%Z ->
  startNew M fuel date_now perf_now s = Ok s' ->
  session_inv s' /\ keys s' = 0%Z /\ running s' = true /\ paused s' = false.
Proof.
  intros Hw Hh H.
  destruct (startNew_spec M fuel date_now perf_now s s' Hw Hh H)
    as (_ & _ & (_ & _ & _ & Hrun & Hpau & Hkeys) & _ & _ & _ & (e & He & _ & Hne) & Hlen & Hnd).
  split; [|auto]. unfold session_inv. rewrite Hkeys, Hlen. split; [exact Hnd|].
  split; [reflexivity|]. intros e' He'. rewrite He in He'. injection He' as <-. exact Hne.
Qed.

Lemma startNew_session_inv_witness :
  exists s', startNew mathQ 50 1234567 0 (new_Game ui0) = Ok s' /\
    session_inv s' /\ keys s' = 0%Z /\ running s' = true /\ paused s' = false.
Proof.
  eexists. split; [vm_compute; reflexivity|].
  eapply (startNew_session_inv mathQ 50 1234567 0 (new_Game ui0));
    [vm_compute; discriminate | vm_compute; discriminate | vm_compute; reflexivity].
Defined.

(** X10.  When the player's cell holds a key, [pickup] removes that key from
    the keys left and no other, counts it, and shows the new count; the
    positions, the grid and the exit are untouched. *)
Theorem pickup_collects (s : Game) :
  NoDup (keyPos s) -> player_cell s ∈ keyPos s ->
  keys (pickup s) = (keys s + 1)%Z /\
  ui_keys (ui (pickup s)) = String_of (keys s + 1) /\
  (forall k, k ∈ keyPos (pickup s) <-> k ∈ keyPos s /\ k <> player_cell s) /\
  player (pickup s) = player s /\ enemy (pickup s) = enemy s /\
  grid (pickup s) = grid s /\ exitPos (pickup s) = exitPos s.
Proof.
  intros Hnd Hin.
  pose proof (pickup_frame s) as Hfr.
  destruct (pickup_cases s) as [(Hoff & _) | (l1 & l2 & Hl & Hnot & Hl' & Hk & Hui)].
  - apply on_key_false in Hoff. contradiction.
  - split; [exact Hk|]. split; [exact Hui|]. split; [|exact Hfr].
    intros k. rewrite Hl', Hl. rewrite Hl in Hnd.
    apply NoDup_app in Hnd. destruct Hnd as (_ & Hdisj & Hnd2).
    apply NoDup_cons in Hnd2. destruct Hnd2 as [Hnot2 _].
    rewrite !elem_of_app, elem_of_cons. split.
    + intros [H1|H2]; (split; [tauto|]); intros ->; contradiction.
    + intros [[H1|[H2|H3]] Hne]; [left; exact H1 | contradiction | right; exact H3].
Qed.

Lemma pickup_collects_witness :
  keys (pickup (set_keyPos [mkPt 1 3; mkPt 3 1] (at_exit 1))) = 2%Z.
Proof.
  apply (pickup_collects (set_keyPos [mkPt 1 3; mkPt 3 1] (at_exit 1))).
  - apply NoDup_cons. split; [|apply NoDup_singleton].
    intros Hin. apply list_elem_of_singleton in Hin. discriminate.
  - right. left.
Defined.

(** X11.  [pickup] changes nothing when the player's cell holds neither a key
    nor the exit. *)
Theorem pickup_elsewhere (s : Game) :
  on_key (keyPos s) (player_cell s) = false ->
  exitPos s <> Some (player_cell s) ->
  pickup s = s.
Proof.
  intros Hoff Hex. unfold pickup.
  apply take_key_None in Hoff. unfold player_cell in Hex. rewrite Hoff.
  destruct (exitPos s) as [e|]; [|reflexivity].
  destruct (Z.eqb_spec (pt_x e) (Qfloor (pl_x (player s)))) as [Hx|]; [|reflexivity].
  destruct (Z.eqb_spec (pt_y e) (Qfloor (pl_y (player s)))) as [Hy|]; [|reflexivity].
  contradiction Hex. f_equal. apply pt_eq; assumption.
Qed.

Lemma pickup_elsewhere_witness :
  pickup (set_player (set_pl_pos 1.5 1.5 (player (at_exit 1))) (at_exit 1))
  = set_player (set_pl_pos 1.5 1.5 (player (at_exit 1))) (at_exit 1).
Proof.
  apply (pickup_elsewhere (set_player (set_pl_pos 1.5 1.5 (player (at_exit 1))) (at_exit 1))).
  - reflexivity.
  - discriminate.
Defined.

Lemma pickup_stops_after (s : Game) :
  running s = true -> running (pickup s) = false ->
  exitPos s = Some (player_cell s) /\ (3 <= keys (pickup s))%Z /\
  ui_title (ui (pickup s)) = "Clear!"%string.
Proof.
  intros Hrun Hstop. unfold pickup in *. fold (player_cell s) in *.
  set (s1 := match take_key _ _ _ with Some l => _ | None => s end) in *.
  assert (H1 : running s1 = true /\ exitPos s1 = exitPos s).
  { subst s1. destruct (take_key _ _ _); cbn; auto. }
  destruct H1 as [Hr1 He1]. rewrite He1 in *.
  destruct (exitPos s) as [e|]; [|congruence].
  destruct (Z.eqb_spec (pt_x e) (Qfloor (pl_x (player s)))) as [Hx|]; [|simpl in Hstop; congruence].
  destruct (Z.eqb_spec (pt_y e) (Qfloor (pl_y (player s)))) as [Hy|]; [|simpl in Hstop; congruence].
  cbn [andb] in *.
  destruct (Z.geb_spec (keys s1) 3) as [Hk|Hk]; [|cbn in Hstop; congruence].
  split; [f_equal; apply pt_eq; assumption|]. split; [cbn; lia | reflexivity].
Qed.

(** X12.  [pickup] ends a running session in one case only: the player
    stands on the exit cell with at least three keys counted. *)
Theorem pickup_stops_only_on_win (s : Game) :
  running s = true -> running (pickup s) = false ->
  exitPos s = Some (player_cell s) /\ (3 <= keys (pickup s))%Z /\
  ui_title (ui (pickup s)) = "Clear!"%string.
Proof. apply pickup_stops_after. Qed.

Lemma pickup_stops_only_on_win_witness :
  exitPos (at_exit 3) = Some (player_cell (at_exit 3)) /\
  (3 <= keys (pickup (at_exit 3)))%Z /\
  ui_title (ui (pickup (at_exit 3))) = "Clear!"%string.
Proof.
  apply (pickup_stops_only_on_win (at_exit 3)); reflexivity.
Defined.

(** ** Enemy updates *)

Lemma wander_target_same (M : MathLib) (s : Game) (a : Q) :
  exists a' s', wander_target M s a = Ok (a', s') /\ same_but_R s s'.
Proof.
  unfold wander_target, rng_next.
  destruct (Qltb (rng_out (JS.add (R s) 1831565813)) 0.02).
  - match goal with |- context [isWall ?g ?x ?y] =>
      destruct (isWall_returns g x y) as [[] ->] end; cbn [bind];
      (do 2 eexists; split; [reflexivity|]; unfold same_but_R, same_session; cbn; auto 15).
  - match goal with |- context [isWall ?g ?x ?y] =>
      destruct (isWall_returns g x y) as [[] ->] end; cbn [bind];
      (do 2 eexists; split; [reflexivity|]; unfold same_but_R, same_session; cbn; auto 15).
Qed.

(** Turning and moving: the enemy goes where [tryMove] lets it go from its
    place, and the session ends when it gets within 0.35 of the player. *)
Lemma enemy_act_spec (M : MathLib) (dt : Q) (s : Game) :
  exists (s1 : Game) (a nx ny : Q) (p : Pos),
    same_but_R s s1 /\
    tryMove (grid s) (mkPos (en_x (enemy s)) (en_y (enemy s))) nx ny = Ok p /\
    enemy_act M dt s = Ok (enemy_moved s1 a p).
Proof.
  unfold enemy_act.
  assert (Ht : exists a' s1,
    (if bool_decide (en_state (enemy s) = chase)
     then Ok (atan2 M (pl_y (player s) - en_y (enemy s)) (pl_x (player s) - en_x (enemy s)), s)
     else wander_target M s (en_a (enemy s))) = Ok (a', s1) /\ same_but_R s s1).
  { destruct (bool_decide (en_state (enemy s) = chase)).
    - do 2 eexists. split; [reflexivity|]. unfold same_but_R, same_session. auto 15.
    - apply wander_target_same. }
  destruct Ht as (a' & s1 & -> & Hsame). cbn [bind].
  pose proof Hsame as ((_ & _ & _ & _ & _ & Hg & _ & _) & Hp & _ & _ & _ & He & _).
  cbn [enemy set_enemy en_x en_y en_a en_state en_speed set_en_a grid player].
  match goal with |- context [tryMove ?g ?q ?x ?y] =>
    destruct (tryMove_returns g q x y) as [p Hmove]; rewrite Hmove;
    exists s1, (en_a (set_en_a (en_a (enemy s1) +
                                wrapAngle M (a' - en_a (enemy s1)) * clamp (dt * 4) 0 1)
                               (enemy s1))), x, y, p end.
  split; [exact Hsame|]. split; [rewrite <- Hg, <- He; exact Hmove|].
  cbn [bind]. unfold enemy_moved. cbn. destruct (norm_ltb _ _); reflexivity.
Qed.

Lemma sight_loop_returns (n : nat) (g : Grid) (e : Enemy) (dx dy : Q) (steps i : Z) :
  exists b, sight_loop n g e dx dy steps i = Ok b.
Proof.
  revert i. induction n as [|n IH]; intros i; simpl; [eauto|].
  match goal with |- context [isWall ?g ?x ?y] =>
    destruct (isWall_returns g x y) as [[] ->] end; cbn [bind]; [eauto | apply IH].
Qed.

Lemma canSeePlayer_returns (s : Game) (maxDist : Q) :
  exists b, canSeePlayer s maxDist = Ok b.
Proof.
  unfold canSeePlayer. destruct (norm_gtb _ _); [eauto | apply sight_loop_returns].
Qed.

Lemma enemy_decide_frame (sees : bool) (now : Q) (s : Game) :
  running (enemy_decide sees now s) = running s /\
  player (enemy_decide sees now s) = player s /\
  keys (enemy_decide sees now s) = keys s /\
  keyPos (enemy_decide sees now s) = keyPos s /\
  exitPos (enemy_decide sees now s) = exitPos s /\
  grid (enemy_decide sees now s) = grid s /\
  seed (enemy_decide sees now s) = seed s /\
  en_x (enemy (enemy_decide sees now s)) = en_x (enemy s) /\
  en_y (enemy (enemy_decide sees now s)) = en_y (enemy s).
Proof.
  unfold enemy_decide. destruct sees; [cbn; auto 10|].
  destruct (_ && _); cbn; auto 10.
Qed.

(** What one [stepEnemy] update does to the session. *)
Lemma stepEnemy_spec (M : MathLib) (dt now : Q) (s : Game) :
  exists (s' : Game) (nx ny : Q) (p : Pos),
    stepEnemy M dt now s = Ok s' /\
    tryMove (grid s) (mkPos (en_x (enemy s)) (en_y (enemy s))) nx ny = Ok p /\
    en_x (enemy s') = pos_x p /\ en_y (enemy s') = pos_y p /\
    player s' = player s /\ keys s' = keys s /\ keyPos s' = keyPos s /\
    exitPos s' = exitPos s /\ grid s' = grid s /\ seed s' = seed s /\
    running s' = (if Qltb (gap_sq s') (0.35 * 0.35) then false else running s) /\
    (Qltb (gap_sq s') (0.35 * 0.35) = true ->
       ui_title (ui s') = "Game Over"%string /\ ui_overlay (ui s') = "flex"%string).
Proof.
  unfold stepEnemy. destruct (canSeePlayer_returns s 12) as [sees ->]. cbn [bind].
  destruct (enemy_decide_frame sees now s)
    as (D1 & D2 & D3 & D4 & D5 & D6 & D7 & D8 & D9).
  destruct (enemy_act_spec M dt (enemy_decide sees now s))
    as (s1 & a & nx & ny & p & Hsame & Hmove & ->).
  destruct Hsame as ((S1 & S2 & S3 & S4 & S5 & S6 & S7 & S8) & T1 & T2 & T3 & T4 & T5 & T6).
  rewrite D6, D8, D9 in Hmove.
  exists (enemy_moved s1 a p), nx, ny, p. split; [reflexivity|]. split; [exact Hmove|].
  unfold enemy_moved, gap_sq, norm_ltb, hypot. cbn [norm_sq].
  change (Qltb 0 0.35) with true. cbn [andb].
  destruct (Qltb _ (0.35 * 0.35)) eqn:Hnear; cbn; rewrite ?Hnear;
    repeat split; try congruence; try discriminate.
Qed.

(** X13.  A [stepEnemy] update always returns, and it touches neither the
    player, nor the key count, the keys left, the exit, the grid or the
    seed. *)
Theorem stepEnemy_frame (M : MathLib) (dt now : Q) (s : Game) :
  exists s', stepEnemy M dt now s = Ok s' /\
    player s' = player s /\ keys s' = keys s /\ keyPos s' = keyPos s /\
    exitPos s' = exitPos s /\ grid s' = grid s /\ seed s' = seed s.
Proof.
  destruct (stepEnemy_spec M dt now s)
    as (s' & nx & ny & p & H & _ & _ & _ & F1 & F2 & F3 & F4 & F5 & F6 & _).
  exists s'. auto 10.
Qed.

(** X14.  A [stepEnemy] update ends the session exactly when it leaves the
    enemy nearer than 0.35 to the player: then [running] is [false] and the
    overlay shows "Game Over"; otherwise [running] is as before. *)
Theorem stepEnemy_catches (M : MathLib) (dt now : Q) (s s' : Game) :
  stepEnemy M dt now s = Ok s' ->
  (gap_sq s' < 0.35 * 0.35 ->
     running s' = false /\ ui_title (ui s') = "Game Over"%string /\
     ui_overlay (ui s') = "flex"%string) /\
  (0.35 * 0.35 <= gap_sq s' -> running s' = running s).
Proof.
  intros H.
  destruct (stepEnemy_spec M dt now s)
    as (s2 & nx & ny & p & H2 & _ & _ & _ & _ & _ & _ & _ & _ & _ & Hrun & Hover).
  assert (s2 = s') by congruence. subst s2. split.
  - intros Hnear. apply Qltb_lt in Hnear. rewrite Hnear in Hrun. split; [exact Hrun|].
    apply Hover. exact Hnear.
  - intros Hfar. apply Qltb_ge in Hfar. rewrite Hfar in Hrun. exact Hrun.
Qed.

Lemma stepEnemy_catches_witness :
  exists s', stepEnemy mathQ 0.016 5 seen_player = Ok s' /\ running s' = running seen_player.
Proof.
  eexists. split; [vm_compute; reflexivity|].
  eapply (proj2 (stepEnemy_catches mathQ 0.016 5 seen_player _ _)).
  vm_compute. discriminate.
  Unshelve. vm_compute. reflexivity.
Defined.

(** X15.  A [stepEnemy] update never moves the enemy into a wall: if
    [canStand] accepts the position of the enemy before the update, it
    accepts its position after the update. *)
Theorem stepEnemy_keeps_standable (M : MathLib) (dt now : Q) (s s' : Game) :
  canStand (grid s) (en_x (enemy s)) (en_y (enemy s)) = Ok true ->
  stepEnemy M dt now s = Ok s' ->
  canStand (grid s') (en_x (enemy s')) (en_y (enemy s')) = Ok true.
Proof.
  intros Hstand H.
  destruct (stepEnemy_spec M dt now s)
    as (s2 & nx & ny & p & H2 & Hmove & Hx & Hy & _ & _ & _ & _ & Hg & _).
  assert (s2 = s') by congruence. subst s2.
  destruct (tryMove_standable (grid s) (mkPos (en_x (enemy s)) (en_y (enemy s))) nx ny Hstand)
    as (p' & Hmove' & Hp').
  assert (p' = p) by congruence. subst p'.
  rewrite Hg, Hx, Hy. exact Hp'.
Qed.

Lemma stepEnemy_keeps_standable_witness :
  exists s', stepEnemy mathQ 0.016 5 seen_player = Ok s' /\
    canStand (grid s') (en_x (enemy s')) (en_y (enemy s')) = Ok true.
Proof.
  eexists. split; [vm_compute; reflexivity|].
  eapply (stepEnemy_keeps_standable mathQ 0.016 5 seen_player);
    vm_compute; reflexivity.
Defined.

(** ** Angles *)

Lemma turns_enough (M : MathLib) (excess : Q) :
  excess <= inject_Z (Z.of_nat (turns M excess)) * (PI M * 2).
Proof.
  pose proof (PI_pos M) as Hpi. unfold turns.
  set (c := Qceiling (excess / (PI M * 2))).
  assert (Hc : excess / (PI M * 2) <= inject_Z c) by apply Qle_ceiling.
  assert (Hn : inject_Z c <= inject_Z (Z.of_nat (Z.to_nat c))).
  { rewrite <- Zle_Qle. lia. }
  assert (Hd : 0 < PI M * 2) by lra.
  apply Qle_trans with (inject_Z c * (PI M * 2)).
  - apply Qle_trans with (excess / (PI M * 2) * (PI M * 2)).
    + apply Qle_lteq. right. field. lra.
    + apply Qmult_le_compat_r; [exact Hc | lra].
  - apply Qmult_le_compat_r; [exact Hn | lra].
Qed.

Lemma wrap_up_spec (M : MathLib) (n : nat) (a : Q) :
  - PI M <= a + inject_Z (Z.of_nat n) * (PI M * 2) ->
  - PI M <= wrap_up M n a /\
  (a < - PI M -> wrap_up M n a < PI M) /\
  (- PI M <= a -> wrap_up M n a = a) /\
  exists k : Z, wrap_up M n a == a + inject_Z k * (PI M * 2).
Proof.
  pose proof (PI_pos M) as Hpi.
  revert a. induction n as [|n IH]; intros a Hn.
  - cbn [wrap_up]. change (inject_Z (Z.of_nat 0)) with 0 in Hn.
    split; [lra|]. split; [lra|]. split; [reflexivity|]. exists 0%Z. change (inject_Z 0) with 0. ring.
  - cbn [wrap_up]. destruct (Qltb a (- PI M)) eqn:Hlt.
    + apply Qltb_lt in Hlt.
      assert (Hn' : - PI M <= a + PI M * 2 + inject_Z (Z.of_nat n) * (PI M * 2)).
      { rewrite Nat2Z.inj_succ in Hn. unfold Z.succ in Hn. rewrite inject_Z_plus in Hn.
        change (inject_Z 1) with 1 in Hn. lra. }
      destruct (IH (a + PI M * 2) Hn') as (H1 & H2 & H3 & (k & Hk)).
      split; [exact H1|]. split; [|split].
      * intros _. destruct (Qlt_le_dec (a + PI M * 2) (- PI M)) as [Hs|Hs].
        -- apply H2. exact Hs.
        -- rewrite (H3 Hs). lra.
      * intros Hge. lra.
      * exists (k + 1)%Z. rewrite Hk, inject_Z_plus. change (inject_Z 1) with 1. ring.
    + apply Qltb_ge in Hlt. split; [exact Hlt|]. split; [lra|]. split; [reflexivity|].
      exists 0%Z. change (inject_Z 0) with 0. ring.
Qed.

Lemma wrap_down_spec (M : MathLib) (n : nat) (a : Q) :
  a - inject_Z (Z.of_nat n) * (PI M * 2) <= PI M ->
  wrap_down M n a <= PI M /\
  (PI M < a -> - PI M < wrap_down M n a) /\
  (a <= PI M -> wrap_down M n a = a) /\
  exists k : Z, wrap_down M n a == a + inject_Z k * (PI M * 2).
Proof.
  pose proof (PI_pos M) as Hpi.
  revert a. induction n as [|n IH]; intros a Hn.
  - cbn [wrap_down]. change (inject_Z (Z.of_nat 0)) with 0 in Hn.
    split; [lra|]. split; [lra|]. split; [reflexivity|]. exists 0%Z. change (inject_Z 0) with 0. ring.
  - cbn [wrap_down]. destruct (Qltb (PI M) a) eqn:Hlt.
    + apply Qltb_lt in Hlt.
      assert (Hn' : a - PI M * 2 - inject_Z (Z.of_nat n) * (PI M * 2) <= PI M).
      { rewrite Nat2Z.inj_succ in Hn. unfold Z.succ in Hn. rewrite inject_Z_plus in Hn.
        change (inject_Z 1) with 1 in Hn. lra. }
      destruct (IH (a - PI M * 2) Hn') as (H1 & H2 & H3 & (k & Hk)).
      split; [exact H1|]. split; [|split].
      * intros _. destruct (Qlt_le_dec (PI M) (a - PI M * 2)) as [Hs|Hs].
        -- apply H2. exact Hs.
        -- rewrite (H3 Hs). lra.
      * intros Hle. lra.
      * exists (k + -1)%Z. rewrite Hk, inject_Z_plus.
        change (inject_Z (-1)) with (- (1)). ring.
    + apply Qltb_ge in Hlt. split; [exact Hlt|]. split; [lra|]. split; [reflexivity|].
      exists 0%Z. change (inject_Z 0) with 0. ring.
Qed.

(** X16.  [wrapAngle] returns an angle between [-PI] and [PI] that differs
    from its argument by a whole number of turns; both loops end, the first
    once the angle is no longer below [-PI], the second once it is no longer
    above [PI]. *)
Theorem wrapAngle_range (M : MathLib) (a : Q) :
  - PI M <= wrapAngle M a /\ wrapAngle M a <= PI M /\
  exists k : Z, wrapAngle M a == a + inject_Z k * (PI M * 2).
Proof.
  pose proof (PI_pos M) as Hpi. unfold wrapAngle.
  destruct (wrap_up_spec M (turns M (- PI M - a)) a) as (U1 & U2 & U3 & (k1 & Hk1)).
  { pose proof (turns_enough M (- PI M - a)). lra. }
  set (a1 := wrap_up M (turns M (- PI M - a)) a) in *.
  destruct (wrap_down_spec M (turns M (a1 - PI M)) a1) as (D1 & D2 & D3 & (k2 & Hk2)).
  { pose proof (turns_enough M (a1 - PI M)). lra. }
  split; [|split; [exact D1|]].
  - destruct (Qlt_le_dec (PI M) a1) as [Hhigh|Hlow].
    + apply Qlt_le_weak. apply D2. exact Hhigh.
    + rewrite (D3 Hlow). exact U1.
  - exists (k1 + k2)%Z. rewrite Hk2, Hk1, inject_Z_plus. ring.
Qed.

(** ** Frames *)

(** The session once the player has moved to [p] and picked up what lies
    there. *)
Lemma step_unfold (M : MathLib) (pow : Q -> Q -> Q) (dt now : Q) (s : Game) :
  exists (nx ny : Q) (p : Pos),
    tryMove (grid s) (player_pos (player s)) nx ny = Ok p /\
    step M pow dt now s =
      (if negb (running (pickup (set_player (set_pl_pos (pos_x p) (pos_y p) (player s)) s)))
       then Ok (pickup (set_player (set_pl_pos (pos_x p) (pos_y p) (player s)) s))
       else stepEnemy M dt now
              (pickup (set_player (set_pl_pos (pos_x p) (pos_y p) (player s)) s))).
Proof.
  unfold step.
  match goal with |- context [tryMove ?g ?q ?x ?y] =>
    destruct (tryMove_returns g q x y) as [p Hp]; exists x, y, p end.
  split; [exact Hp|]. rewrite Hp. reflexivity.
Qed.

(** X17.  A [step] always returns, keeps the grid, and moves no actor into a
    wall: if [canStand] accepts the positions of the player and of the enemy
    before the frame, it accepts them after the frame. *)
Theorem step_keeps_standable (M : MathLib) (pow : Q -> Q -> Q) (dt now : Q) (s : Game) :
  canStand (grid s) (pl_x (player s)) (pl_y (player s)) = Ok true ->
  canStand (grid s) (en_x (enemy s)) (en_y (enemy s)) = Ok true ->
  exists s', step M pow dt now s = Ok s' /\ grid s' = grid s /\
    canStand (grid s') (pl_x (player s')) (pl_y (player s')) = Ok true /\
    canStand (grid s') (en_x (enemy s')) (en_y (enemy s')) = Ok true.
Proof.
  intros Hpl Hen.
  destruct (step_unfold M pow dt now s) as (nx & ny & p & Hmove & ->).
  destruct (tryMove_standable (grid s) (player_pos (player s)) nx ny Hpl)
    as (p' & Hmove' & Hp).
  assert (p' = p) by congruence. subst p'.
  set (s0 := set_player (set_pl_pos (pos_x p) (pos_y p) (player s)) s).
  destruct (pickup_frame s0) as (F1 & F2 & F3 & _).
  assert (Hpl1 : canStand (grid (pickup s0)) (pl_x (player (pickup s0)))
                   (pl_y (player (pickup s0))) = Ok true).
  { rewrite F1, F3. exact Hp. }
  assert (Hen1 : canStand (grid (pickup s0)) (en_x (enemy (pickup s0)))
                   (en_y (enemy (pickup s0))) = Ok true).
  { rewrite F2, F3. exact Hen. }
  destruct (negb (running (pickup s0))).
  - exists (pickup s0). split; [reflexivity|]. split; [exact F3|]. auto.
  - destruct (stepEnemy_spec M dt now (pickup s0))
      as (s' & ex & ey & q & -> & Hq & Hx & Hy & G1 & _ & _ & _ & G5 & _).
    destruct (tryMove_standable (grid (pickup s0))
                (mkPos (en_x (enemy (pickup s0))) (en_y (enemy (pickup s0)))) ex ey Hen1)
      as (q' & Hq' & Hstand).
    assert (q' = q) by congruence. subst q'.
    exists s'. split; [reflexivity|]. split; [rewrite G5; exact F3|].
    rewrite G5, G1, Hx, Hy. auto.
Qed.

Lemma step_keeps_standable_witness :
  exists s', step mathQ (fun x y => x) 0.016 5 (setMove 0.5 (-1) seen_player) = Ok s' /\
    grid s' = grid (setMove 0.5 (-1) seen_player) /\
    canStand (grid s') (pl_x (player s')) (pl_y (player s')) = Ok true /\
    canStand (grid s') (en_x (enemy s')) (en_y (enemy s')) = Ok true.
Proof.
  apply (step_keeps_standable mathQ (fun x y => x) 0.016 5 (setMove 0.5 (-1) seen_player));
    vm_compute; reflexivity.
Defined.

Lemma boost_zero (pow : Q -> Q -> Q) : boost pow 0 == 0 /\ boost pow (- 0) == 0.
Proof. unfold boost. change (- 0) with 0. change (Qsign 0) with 0. split; ring. Qed.

(** X18.  With the stick inside the dead zone (both axes below 0.06 in
    absolute value) a [step] leaves the player where it is. *)
Theorem step_dead_zone (M : MathLib) (pow : Q -> Q -> Q) (dt now : Q) (s s' : Game) :
  Qabs (fst (move s)) < 0.06 -> Qabs (snd (move s)) < 0.06 ->
  step M pow dt now s = Ok s' ->
  pl_x (player s') == pl_x (player s) /\ pl_y (player s') == pl_y (player s).
Proof.
  intros Hx Hy H. unfold step in H.
  apply Qltb_lt in Hx, Hy. rewrite Hx, Hy in H.
  destruct (boost_zero pow) as [Hb0 Hb1].
  set (nx := pl_x (player s) + _ * dt) in H. set (ny := pl_y (player s) + _ * dt) in H.
  assert (Hnx : nx == pl_x (player s)).
  { subst nx. rewrite Hb0, Hb1. ring. }
  assert (Hny : ny == pl_y (player s)).
  { subst ny. rewrite Hb0, Hb1. ring. }
  clearbody nx ny.
  bind_inv H as p Hmove.
  assert (Hp : pos_x p == pl_x (player s) /\ pos_y p == pl_y (player s)).
  { unfold tryMove in Hmove. bind_inv Hmove as cx Ecx. bind_inv Hmove as cy Ecy.
    inversion Hmove; subst p. destruct cx, cy; cbn; split;
      first [exact Hnx | exact Hny | reflexivity]. }
  set (s0 := set_player (set_pl_pos (pos_x p) (pos_y p) (player s)) s) in H.
  destruct (pickup_frame s0) as (F1 & _).
  assert (Hpl : player s' = player (pickup s0)).
  { destruct (negb (running (pickup s0))).
    - inversion H. reflexivity.
    - destruct (stepEnemy_spec M dt now (pickup s0))
        as (s2 & ex & ey & q & H2 & _ & _ & _ & G1 & _).
      assert (s2 = s') by congruence. subst s2. exact G1. }
  rewrite Hpl, F1. cbn. exact Hp.
Qed.

Lemma step_dead_zone_witness :
  exists s', step mathQ (fun x y => x) 0.016 5 (setMove 0.05 (-0.01) seen_player) = Ok s' /\
    pl_x (player s') == pl_x (player (setMove 0.05 (-0.01) seen_player)) /\
    pl_y (player s') == pl_y (player (setMove 0.05 (-0.01) seen_player)).
Proof.
  eexists. split; [vm_compute; reflexivity|].
  eapply (step_dead_zone mathQ (fun x y => x) 0.016 5 (setMove 0.05 (-0.01) seen_player));
    vm_compute; reflexivity.
Defined.

(** X19.  A [step] ends a running session in two ways only: as won, and then
    the enemy has not been updated in that frame, or as lost. *)
Theorem step_ends_won_or_lost (M : MathLib) (pow : Q -> Q -> Q) (dt now : Q) (s s' : Game) :
  running s = true -> step M pow dt now s = Ok s' -> running s' = false ->
  (ui_title (ui s') = "Clear!"%string /\ enemy s' = enemy s /\ R s' = R s /\
   exitPos s' = Some (player_cell s')) \/
  ui_title (ui s') = "Game Over"%string.
Proof.
  intros Hrun H Hstop.
  destruct (step_unfold M pow dt now s) as (nx & ny & p & Hmove & Hstep).
  rewrite Hstep in H. clear Hstep.
  set (s0 := set_player (set_pl_pos (pos_x p) (pos_y p) (player s)) s) in H.
  destruct (running (pickup s0)) eqn:Hr1; cbn [negb] in H.
  - right.
    destruct (stepEnemy_spec M dt now (pickup s0))
      as (s2 & ex & ey & q & H2 & _ & _ & _ & _ & _ & _ & _ & _ & _ & Hrun2 & Hover).
    assert (s2 = s') by congruence. subst s2.
    destruct (Qltb (gap_sq s') (0.35 * 0.35)); [apply Hover; reflexivity|].
    congruence.
  - left. inversion H; subst s'.
    destruct (pickup_stops_after s0 Hrun Hr1) as (He & _ & Ht).
    destruct (pickup_frame s0) as (F1 & F2 & _ & F4).
    assert (HR : R (pickup s0) = R s).
    { unfold pickup. destruct (take_key _ _ _); cbn [exitPos set_ui set_keys set_keyPos];
        destruct (exitPos s0) as [e|]; try reflexivity;
        destruct (_ && _); try reflexivity; destruct (_ >=? 3)%Z; reflexivity. }
    split; [exact Ht|]. split; [rewrite F2; reflexivity|]. split; [exact HR|].
    rewrite F4, He. unfold player_cell. rewrite F1. reflexivity.
Qed.

Lemma step_ends_won_or_lost_witness :
  exists s', step mathQ (fun x y => x) 0.016 5 (at_exit 3) = Ok s' /\
    ((ui_title (ui s') = "Clear!"%string /\ enemy s' = enemy (at_exit 3) /\
      R s' = R (at_exit 3) /\ exitPos s' = Some (player_cell s')) \/
     ui_title (ui s') = "Game Over"%string).
Proof.
  eexists. split; [vm_compute; reflexivity|].
  eapply (step_ends_won_or_lost mathQ (fun x y => x) 0.016 5 (at_exit 3));
    vm_compute; reflexivity.
Defined.

(** X20.  A [step] keeps the bookkeeping of keys and collects at most one
    key. *)
Theorem step_keeps_keys (M : MathLib) (pow : Q -> Q -> Q) (dt now : Q) (s s' : Game) :
  session_inv s -> step M pow dt now s = Ok s' ->
  session_inv s' /\ (keys s <= keys s' <= keys s + 1)%Z.
Proof.
  intros Hinv H.
  destruct (step_unfold M pow dt now s) as (nx & ny & p & Hmove & Hstep).
  rewrite Hstep in H. clear Hstep.
  set (s0 := set_player (set_pl_pos (pos_x p) (pos_y p) (player s)) s) in H.
  destruct (pickup_session_inv s0 Hinv) as [Hinv1 Hk1].
  change (keys s0) with (keys s) in Hk1.
  destruct (negb (running (pickup s0))).
  - inversion H; subst s'. auto.
  - destruct (stepEnemy_spec M dt now (pickup s0))
      as (s2 & ex & ey & q & H2 & _ & _ & _ & _ & G2 & G3 & G4 & _).
    assert (s2 = s') by congruence. subst s2.
    unfold session_inv in *. rewrite G2, G3, G4. auto.
Qed.

Lemma step_keeps_keys_witness :
  exists s', step mathQ (fun x y => x) 0.016 5 (set_keys 2 (at_exit 0)) = Ok s' /\
    session_inv s' /\ (keys (set_keys 2 (at_exit 0)) <= keys s'
                       <= keys (set_keys 2 (at_exit 0)) + 1)%Z.
Proof.
  eexists. split; [vm_compute; reflexivity|].
  eapply (step_keeps_keys mathQ (fun x y => x) 0.016 5 (set_keys 2 (at_exit 0))).
  - split; [apply NoDup_singleton|]. split; [reflexivity|].
    intros e He. injection He as <-. intros Hin.
    apply list_elem_of_singleton in Hin. discriminate.
  - vm_compute. reflexivity.
Defined.

(** ** The frame loop and pausing *)

Lemma clamp_range (v a b : Q) : a <= b -> a <= clamp v a b /\ clamp v a b <= b.
Proof.
  intros Hab. unfold clamp. split; [apply Q.le_max_l|].
  apply Q.max_lub; [exact Hab | apply Q.le_min_l].
Qed.

Lemma clamp_above (v a b : Q) : a <= b -> b <= v -> clamp v a b == b.
Proof.
  intros Hab Hv. unfold clamp. rewrite (Q.min_l b v Hv). apply Q.max_r. exact Hab.
Qed.

Lemma clamp_below (v a b : Q) : a <= b -> v <= a -> clamp v a b == a.
Proof.
  intros Hab Hv. unfold clamp. apply Q.max_l.
  apply Qle_trans with v; [apply Q.le_min_r | exact Hv].
Qed.

(** X21.  [loop] does nothing when the session is not running or is paused.
    Otherwise it stamps the time and makes one [step] whose time step is
    the time since the last frame in seconds, cut to between 0 and 0.033: it
    is 0.033 whenever 33 ms or more have passed, and 0 when the clock has not
    advanced.  The frame is drawn and the next one requested exactly when the
    session still runs after the step. *)
Theorem loop_time_step (M : MathLib) (pow : Q -> Q -> Q) (t : Q) (s : Game) :
  (running s = false \/ paused s = true -> loop M pow t s = Ok (s, false)) /\
  (running s = true -> paused s = false ->
     let dt := clamp ((t - lastT s) / 1000) 0 0.033 in
     0 <= dt /\ dt <= 0.033 /\
     (33 <= t - lastT s -> dt == 0.033) /\
     (t <= lastT s -> dt == 0) /\
     loop M pow t s =
       bind (step M pow dt (t / 1000) (set_lastT t s)) (fun s' => Ok (s', running s'))).
Proof.
  split.
  - intros [H|H]; unfold loop; rewrite H; [reflexivity|].
    rewrite orb_true_r. reflexivity.
  - intros Hrun Hpau dt.
    destruct (clamp_range ((t - lastT s) / 1000) 0 0.033 ltac:(discriminate)) as [H0 H1].
    split; [exact H0|]. split; [exact H1|]. split; [|split].
    + intros Hlate. apply clamp_above; [discriminate|].
      apply Qle_shift_div_l; [reflexivity|]. lra.
    + intros Hearly. apply clamp_below; [discriminate|].
      apply Qle_shift_div_r; [reflexivity|]. lra.
    + unfold loop. rewrite Hrun, Hpau. cbn [negb orb]. fold dt.
      destruct (step M pow dt (t / 1000) (set_lastT t s)) as [s'| |]; cbn [bind];
        try reflexivity.
      destruct (running s'); reflexivity.
Qed.

Lemma loop_time_step_witness :
  loop mathQ (fun x y => x) 1000 (at_exit 3) =
    bind (step mathQ (fun x y => x) (clamp ((1000 - lastT (at_exit 3)) / 1000) 0 0.033)
            (1000 / 1000) (set_lastT 1000 (at_exit 3)))
         (fun s' => Ok (s', running s')).
Proof.
  apply (proj2 (loop_time_step mathQ (fun x y => x) 1000 (at_exit 3))); reflexivity.
Defined.



(** ** Ray distances *)

Lemma ray_init_sound (px py dx dy : Q) : ray_sound (ray_dir dx dy) (ray_init px py dx dy).
Proof.
  unfold ray_sound, ray_init, ray_dir. cbn [sideDistX sideDistY deltaDistX deltaDistY].
  pose proof (Qabs_nonneg (1 / or_tiny dx)) as Hdx.
  pose proof (Qabs_nonneg (1 / or_tiny dy)) as Hdy.
  pose proof (Qfloor_le px) as Hx0. pose proof (Qlt_floor px) as Hx1.
  pose proof (Qfloor_le py) as Hy0. pose proof (Qlt_floor py) as Hy1.
  rewrite inject_Z_plus in Hx1, Hy1. change (inject_Z 1) with 1 in Hx1, Hy1.
  repeat split; try assumption.
  - destruct (Qltb dx 0); apply Qmult_le_0_compat; try assumption; lra.
  - destruct (Qltb dy 0); apply Qmult_le_0_compat; try assumption; lra.
Qed.

Lemma dda_advance_stepped (d : RayDir) (r : Ray) :
  ray_sound d r -> ray_sound d (dda_advance d r) /\ ray_stepped d (dda_advance d r).
Proof.
  intros (Hx & Hy & Hdx & Hdy). unfold dda_advance, ray_sound, ray_stepped.
  destruct (Qltb (sideDistX r) (sideDistY r)); cbn [sideDistX sideDistY side].
  - split; [repeat split; try assumption; lra|]. left. split; [reflexivity | lra].
  - split; [repeat split; try assumption; lra|]. right. split; [reflexivity | lra].
Qed.

Lemma dda_stepped (n : nat) (g : Grid) (d : RayDir) (r r' : Ray) :
  ray_sound d r -> (1 <= n)%nat \/ ray_stepped d r ->
  dda n g d r = Ok r' -> ray_stepped d r'.
Proof.
  revert r. induction n as [|n IH]; intros r Hsound Hn H.
  - cbn [dda] in H. inversion H; subst r'. destruct Hn as [Hn|Hn]; [lia | exact Hn].
  - cbn [dda] in H.
    destruct (dda_advance_stepped d r Hsound) as [Hsound1 Hstep1].
    bind_inv H as off Eoff. destruct off.
    + inversion H; subst r'. exact Hstep1.
    + bind_inv H as c Ec. destruct (is_val c 1).
      * inversion H; subst r'. exact Hstep1.
      * apply (IH _ Hsound1); [right; exact Hstep1 | exact H].
Qed.

(** X23.  [raycast] always returns, and the distance it returns is never
    negative; the side it returns is 0 or 1. *)
Theorem raycast_dist_nonneg (M : MathLib) (s : Game) (angle : Q) :
  exists h, raycast M s angle = Ok h /\ 0 <= rh_dist h /\
            (rh_side h = 0%Z \/ rh_side h = 1%Z).
Proof.
  unfold raycast, raycast_loop.
  set (d := ray_dir (cos M angle) (sin M angle)).
  set (r0 := ray_init _ _ _ _).
  destruct (dda_spec (Z.to_nat 128) (grid s) d r0) as (r & k & Hr & _).
  rewrite Hr. cbn [bind]. eexists. split; [reflexivity|].
  assert (Hstep : ray_stepped d r).
  { apply (dda_stepped (Z.to_nat 128) (grid s) d r0 r); [apply ray_init_sound | | exact Hr].
    left. change (Z.to_nat 128) with 128%nat. lia. }
  unfold ray_result. cbn [rh_dist rh_side].
  destruct Hstep as [[Hs Hd] | [Hs Hd]]; rewrite Hs; cbn [Z.eqb]; split; auto; lra.
Qed.

(** ** The PRNG *)

Lemma toUint32_wrap (t k : Z) : JS.toUint32 (t + k * 2 ^ 32) = JS.toUint32 t.
Proof. unfold JS.toUint32, JS.two32. apply Z_mod_plus_full. Qed.

(** X24.  Every call of the generator returns a number in the interval from
    0 (included) to 1 (excluded).  As long as the sum stays within 2^53 the
    call moves the state on by exactly 0x6D2B79F5; beyond, the state is a
    double that rounds. *)
Theorem rng_next_unit_interval (t : Z) :
  0 <= fst (rng_next t) /\ fst (rng_next t) < 1 /\
  ((0 <= t)%Z -> (t + 0x6D2B79F5 <= 2 ^ 53)%Z ->
   snd (rng_next t) = (t + 0x6D2B79F5)%Z).
Proof.
  unfold rng_next. cbn [fst snd].
  destruct (rng_out_range (JS.add t 1831565813)) as [H0 H1].
  split; [exact H0|]. split; [exact H1|]. apply add_exact.
Qed.

Lemma rng_next_unit_interval_witness :
  snd (rng_next 4294967295) = 6126533108%Z.
Proof.
  apply (proj2 (proj2 (rng_next_unit_interval 4294967295))); vm_compute; discriminate.
Defined.

Lemma toInt32_wrap (t k : Z) : JS.toInt32 (t + k * 2 ^ 32) = JS.toInt32 t.
Proof. unfold JS.toInt32. rewrite toUint32_wrap. reflexivity. Qed.

Lemma xor_wrap (t k b : Z) : JS.xor (t + k * 2 ^ 32) b = JS.xor t b.
Proof. unfold JS.xor. rewrite toInt32_wrap. reflexivity. Qed.

Lemma or_wrap (t k b : Z) : JS.or (t + k * 2 ^ 32) b = JS.or t b.
Proof. unfold JS.or. rewrite toInt32_wrap. reflexivity. Qed.

Lemma ushr_wrap (t k n : Z) : JS.ushr (t + k * 2 ^ 32) n = JS.ushr t n.
Proof. unfold JS.ushr. rewrite toUint32_wrap. reflexivity. Qed.

Lemma rng_out_wrap (t k : Z) : rng_out (t + k * 2 ^ 32) = rng_out t.
Proof.
  unfold rng_out. cbv zeta. rewrite !xor_wrap, !or_wrap, !ushr_wrap. reflexivity.
Qed.

(** X25.  The number drawn depends on the state only through its low 32
    bits.  The state itself is never reduced: it grows, and from any seed it
    stays between 0 and 2^84 after any number of draws, where the increment
    is absorbed by the rounding of the addition, so that the addition never
    overflows. *)
Theorem rng_state_bounded (seed n t k : Z) :
  rng_out (t + k * 2 ^ 32) = rng_out t /\
  (0 <= after_draws (rng seed) n <= 2 ^ 84)%Z.
Proof. split; [apply rng_out_wrap | apply after_draws_bounded]. Qed.
(** ** Spawning and reachability *)

(** X26.  On a generated maze [findRandomFloor] never falls back on a wall:
    it returns a floor cell strictly inside the border, after at least one
    and at most 10000 tries of two draws each. *)
Theorem findRandomFloor_on_maze (w h seed : Z) (m : Maze) (t : Z) :
  (3 <= w)%Z -> (3 <= h)%Z -> makeMaze w h seed = Ok m ->
  exists (p : Pt) (k : Z),
    findRandomFloor (maze_grid m) t = Ok (p, after_draws t (2 * k)) /\
    (1 <= k <= 10000)%Z /\
    floor_cell (maze_grid m) p /\ interior w h p.
Proof.
  intros Hw Hh Hm. pose proof (makeMaze_Ok_spec w h seed m Hw Hh Hm) as Hok.
  pose proof (mo_rect _ _ _ Hok) as Hr.
  destruct (findRandomFloor_spec (maze_grid m) t) as (p & k & Hf & Hk & Hcase & _).
  { destruct Hr as [Hlen _]. lia. }
  exists p, (Z.of_nat k). split; [exact Hf|].
  assert (Hp : floor_cell (maze_grid m) p).
  { destruct Hcase as [[_ Hfl] | [_ ->]].
    - unfold is_floor in Hfl. apply grid_read_Ok_cell in Hfl. exact Hfl.
    - apply (mo_anchors _ _ _ Hok); [split; reflexivity|]. unfold interior. simpl. lia. }
  split; [|split; [exact Hp | exact (mo_interior _ _ _ Hok p Hp)]].
  destruct Hcase as [[Hk1 _] | [Hk2 _]]; lia.
Qed.

Lemma findRandomFloor_on_maze_witness :
  exists m (p : Pt) (k : Z),
    makeMaze 9 7 2024 = Ok m /\
    findRandomFloor (maze_grid m) 99 = Ok (p, after_draws 99 (2 * k)) /\
    (1 <= k <= 10000)%Z /\ floor_cell (maze_grid m) p /\ interior 9 7 p.
Proof.
  destruct (makeMaze 9 7 2024) as [m| |] eqn:H; [|vm_compute in H; discriminate..].
  destruct (findRandomFloor_on_maze 9 7 2024 m 99 ltac:(lia) ltac:(lia) H) as (p & k & Hf).
  exists m, p, k. split; [reflexivity | exact Hf].
Defined.

Lemma on_floor_cell (g : Grid) (x y : Q) :
  on_floor g x y -> floor_cell g (mkPt (Qfloor x) (Qfloor y)).
Proof.
  intros (c & Hc & -> & ->).
  rewrite !Qfloor_shift by (discriminate || reflexivity).
  destruct c. exact Hc.
Qed.

(** X30.  Every session is winnable as far as the maze goes: when [startNew]
    returns (on a map at least 3 by 3), a walk through floor cells leads from
    the cell of the player to every key, to the exit, and to the cell of the
    enemy. *)
Theorem startNew_reachable (M : MathLib) (fuel : nat) (date_now : Z) (perf_now : Q)
    (s s' : Game) :
  (3 <= mapW s)%Z -> (3 <= mapH s)%Z ->
  startNew M fuel date_now perf_now s = Ok s' ->
  (forall k, k ∈ keyPos s' -> connected (grid s') (player_cell s') k) /\
  (exists e, exitPos s' = Some e /\ connected (grid s') (player_cell s') e) /\
  connected (grid s') (player_cell s')
            (mkPt (Qfloor (en_x (enemy s'))) (Qfloor (en_y (enemy s')))).
Proof.
  intros Hw Hh H.
  destruct (startNew_spec M fuel date_now perf_now s s' Hw Hh H)
    as (_ & Hok & _ & Hpl & Hen & Hkeys & (e & He & Hfe & _) & _).
  apply on_floor_cell in Hpl, Hen. fold (player_cell s') in Hpl.
  assert (Hwalk : forall c, floor_cell (grid s') c -> connected (grid s') (player_cell s') c).
  { intros c Hc. apply connected_trans with (mkPt 1 1).
    - apply connected_sym. apply (mo_conn _ _ _ Hok). exact Hpl.
    - apply (mo_conn _ _ _ Hok). exact Hc. }
  split; [intros k Hk; apply Hwalk; apply Hkeys; exact Hk|].
  split; [exists e; split; [exact He | apply Hwalk; exact Hfe]|].
  apply Hwalk. exact Hen.
Qed.

Lemma startNew_reachable_witness :
  exists s', startNew mathQ 50 1234567 0 (new_Game ui0) = Ok s' /\
    exists e, exitPos s' = Some e /\ connected (grid s') (player_cell s') e.
Proof.
  eexists. split; [vm_compute; reflexivity|].
  eapply (startNew_reachable mathQ 50 1234567 0 (new_Game ui0));
    [vm_compute; discriminate | vm_compute; discriminate | vm_compute; reflexivity].
Defined.

(** ** Sound levels and footsteps *)

(** X27.  Whatever the danger reported, an [update] of an enabled sound
    manager keeps the heart rate target between 1.6 and 4.2, the heartbeat
    gain target between 0.10 and 0.65 and the noise gain target between 0
    and 0.22; the hum gain stays between 0.10 and 0.18 when the danger is
    between 0 and 1. *)
Theorem audio_update_levels (moving danger : Q) (a : Audio.AudioManager) :
  Audio.enabled a = true ->
  1.6 <= Audio.heartRate (Audio.update moving danger a) <= 4.2 /\
  0.10 <= Audio.heartGain (Audio.update moving danger a) <= 0.65 /\
  0 <= Audio.noiseGain (Audio.update moving danger a) <= 0.22 /\
  (0 <= danger <= 1 ->
     0.10 <= Audio.humGain (Audio.update moving danger a) <= 0.18).
Proof.
  intros Hen. unfold Audio.update. rewrite Hen. cbn [negb].
  assert (Hhb : 0 <= Qmin 1 (Qmax 0 danger) /\ Qmin 1 (Qmax 0 danger) <= 1).
  { split; [|apply Q.le_min_l]. apply Q.min_glb; [discriminate | apply Q.le_max_l]. }
  destruct Hhb as [Hb0 Hb1]. set (hb := Qmin 1 (Qmax 0 danger)) in *. clearbody hb.
  unfold Audio.blipFoot.
  cbn [Audio.enabled Audio.set_footTimer Audio.set_humGain]. rewrite Hen. cbn [negb].
  destruct (_ && _);
    cbn [Audio.heartRate Audio.heartGain Audio.noiseGain Audio.humGain Audio.set_heartRate
         Audio.set_heartGain Audio.set_noiseGain Audio.set_humGain Audio.set_footTimer
         Audio.enabled Audio.footTimer Audio.blips];
    repeat split; intros; lra.
Qed.

Lemma audio_update_levels_witness :
  1.6 <= Audio.heartRate (Audio.update 1 7 Audio.started) <= 4.2.
Proof.
  apply (audio_update_levels 1 7 Audio.started). reflexivity.
Defined.

Lemma audio_update_quiet (moving danger : Q) (a : Audio.AudioManager) :
  Audio.enabled a = true ->
  Audio.footTimer a + 1 / 60 <= 0.24 ->
  Audio.blips (Audio.update moving danger a) = Audio.blips a /\
  Audio.enabled (Audio.update moving danger a) = true /\
  Audio.footTimer (Audio.update moving danger a) = Audio.footTimer a + 1 / 60.
Proof.
  intros Hen Ht. unfold Audio.update. rewrite Hen. cbn [negb].
  cbn [Audio.footTimer Audio.set_footTimer Audio.set_humGain].
  assert (Hc : Qltb (0.42 - 0.18 * Qmin 1 moving) (Audio.footTimer a + 1 / 60) = false).
  { apply Qltb_ge. pose proof (Q.le_min_l 1 moving). lra. }
  rewrite Hc, andb_false_r. cbn. auto.
Qed.

(** X28.  Footsteps are spaced: once the footstep timer is back at 0 (as it
    is right after a footstep), no footstep is played during the next 14
    updates, however fast the player is said to move. *)
Theorem audio_footsteps_spaced (frames : list (Q * Q)) (a : Audio.AudioManager) :
  Audio.enabled a = true -> Audio.footTimer a <= 0 -> (length frames <= 14)%nat ->
  Audio.blips (Audio.updates frames a) = Audio.blips a.
Proof.
  intros Hen Ht Hlen.
  assert (Hgen : forall fr a, Audio.enabled a = true ->
            Audio.footTimer a + inject_Z (Z.of_nat (length fr)) * (1 / 60) <= 0.24 ->
            Audio.blips (Audio.updates fr a) = Audio.blips a).
  { clear. induction fr as [|[mv dg] fr IH]; intros a Hen Ht; [reflexivity|].
    cbn [Audio.updates]. cbn [length] in Ht.
    rewrite Nat2Z.inj_succ in Ht. unfold Z.succ in Ht. rewrite inject_Z_plus in Ht.
    change (inject_Z 1) with 1 in Ht.
    assert (Hpos : 0 <= inject_Z (Z.of_nat (length fr)) * (1 / 60)).
    { apply Qmult_le_0_compat; [|discriminate].
      change 0 with (inject_Z 0). rewrite <- Zle_Qle. lia. }
    destruct (audio_update_quiet mv dg a Hen ltac:(lra)) as (Hb & Hen' & Ht').
    rewrite IH; [exact Hb | exact Hen' |]. rewrite Ht'. lra. }
  apply Hgen; [exact Hen|].
  assert (Hl : inject_Z (Z.of_nat (length frames)) <= 14).
  { change 14 with (inject_Z 14). rewrite <- Zle_Qle. lia. }
  assert (Hm : inject_Z (Z.of_nat (length frames)) * (1 / 60) <= 14 * (1 / 60)).
  { apply Qmult_le_compat_r; [exact Hl | discriminate]. }
  assert (Hc : 14 * (1 / 60) <= 0.24) by discriminate.
  lra.
Qed.

Lemma audio_footsteps_spaced_witness :
  Audio.blips (Audio.updates [(1, 0); (1, 0); (1, 1)] Audio.started)
  = Audio.blips Audio.started.
Proof.
  apply (audio_footsteps_spaced [(1, 0); (1, 0); (1, 1)] Audio.started).
  - reflexivity.
  - discriminate.
  - simpl. lia.
Defined.

(** ** Look input *)

Lemma addLook_playing (dx : Q) (s : Game) :
  running s = true -> paused s = false ->
  running (addLook dx s) = true /\ paused (addLook dx s) = false /\
  pl_a (player (addLook dx s)) = pl_a (player s) + dx * 0.0045.
Proof. intros Hrun Hpau. unfold addLook. rewrite Hrun, Hpau. cbn. auto. Qed.

(** X29.  While a session runs and is not paused, a run of [pointermove]
    events has the effect of those among them that come from the pointer
    that is down: events of other pointers, and all events while no pointer
    is down, change neither the look state nor the session.  The events
    followed leave the pointer down, record the position of the last of
    them, and turn the view by 0.0045 radians per pixel between the position
    recorded before the run and the one recorded after it. *)
Theorem look_drag_turns (events : list (Z * Q)) (st : Look.LookState) (s : Game) :
  running s = true -> paused s = false ->
  Look.moves events st s = Look.moves (tracked st events) st s /\
  (tracked st events = [] -> Look.moves events st s = (st, s)) /\
  Look.active (fst (Look.moves events st s)) = Look.active st /\
  Look.id (fst (Look.moves events st s)) = Look.id st /\
  Look.lastX (fst (Look.moves events st s))
    = default (Look.lastX st) (last (tracked st events).*2) /\
  pl_a (player (snd (Look.moves events st s)))
  == pl_a (player s) + (Look.lastX (fst (Look.moves events st s)) - Look.lastX st) * 0.0045.
Proof.
  revert st s. induction events as [|[pid x] events IH]; intros st s Hrun Hpau.
  - cbn. repeat split; auto. ring.
  - destruct (decide (Look.active st = true /\ Look.id st = Some pid)) as [Hmine|Hother].
    + destruct Hmine as [Hact Hid].
      assert (Htr : tracked st ((pid, x) :: events) = (pid, x) :: tracked st events).
      { unfold tracked. rewrite filter_cons_True by (cbn; auto). reflexivity. }
      rewrite Htr. cbn [Look.moves]. unfold Look.pointermove.
      rewrite Hact, Hid. rewrite bool_decide_eq_true_2 by reflexivity. cbn [negb orb].
      set (st' := Look.mkLookState true (Some pid) x).
      destruct (addLook_playing (x - Look.lastX st) s Hrun Hpau) as (Hrun' & Hpau' & Ha).
      destruct (IH st' _ Hrun' Hpau') as (Heq & _ & Hact' & Hid' & Hlast & Hturn).
      assert (Hsame : tracked st' events = tracked st events).
      { unfold tracked, st'. cbn [Look.active Look.id]. rewrite Hact, Hid. reflexivity. }
      rewrite Hsame in Heq, Hlast.
      split; [exact Heq|]. split; [discriminate|].
      split; [exact Hact'|]. split; [exact Hid'|]. split.
      * rewrite Hlast. cbn [fmap list_fmap snd]. rewrite last_cons.
        destruct (last _); reflexivity.
      * rewrite Hturn, Ha. cbn [Look.lastX st']. ring.
    + assert (Htr : tracked st ((pid, x) :: events) = tracked st events).
      { unfold tracked. rewrite filter_cons_False by (cbn; exact Hother). reflexivity. }
      rewrite Htr. cbn [Look.moves]. unfold Look.pointermove.
      assert (Hg : negb (Look.active st) || negb (bool_decide (Look.id st = Some pid)) = true).
      { destruct (Look.active st); cbn [negb orb]; [|reflexivity].
        rewrite bool_decide_eq_false_2; [reflexivity|]. intros Hid. apply Hother. auto. }
      rewrite Hg. apply IH; assumption.
Qed.

Lemma look_drag_turns_witness :
  Look.moves [(1%Z, 310); (2%Z, 5); (1%Z, 290)]
             (Look.pointerdown 300 1 0 400 Look.initial) (at_exit 0)
  = Look.moves [(1%Z, 310); (1%Z, 290)]
               (Look.pointerdown 300 1 0 400 Look.initial) (at_exit 0) /\
  pl_a (player (snd (Look.moves [(1%Z, 310); (2%Z, 5); (1%Z, 290)]
                       (Look.pointerdown 300 1 0 400 Look.initial)
                       (at_exit 0))))
  == pl_a (player (at_exit 0))
     + (Look.lastX (fst (Look.moves [(1%Z, 310); (2%Z, 5); (1%Z, 290)]
                           (Look.pointerdown 300 1 0 400 Look.initial) (at_exit 0)))
        - Look.lastX (Look.pointerdown 300 1 0 400 Look.initial)) * 0.0045.
Proof.
  destruct (look_drag_turns [(1%Z, 310); (2%Z, 5); (1%Z, 290)]
              (Look.pointerdown 300 1 0 400 Look.initial) (at_exit 0) eq_refl eq_refl)
    as (Heq & _ & _ & _ & _ & Hturn).
  split; [exact Heq | exact Hturn].
Defined.
